(** * Water: the spectral ocean surface (WaterFFT.cpp, Complex.cpp, ThreadUtils.h,
    Random.h, Time.cpp)

    A shallow embedding of the FFT water simulation and of its threading
    harness, with the properties of the written specification checked
    against it.

    Conventions of the embedding.
    - [float] is modelled by the real numbers [R]: every operation is the
      exact one, so rounding, overflow, infinities and NaN are outside the
      model, and a division by zero gives 0.  [cos], [sin], [sqrt] and
      [exp] of the C runtime are the functions of the same name of the
      Reals library, [floor] is [Int_part].  The one computation where
      rounding decides whether the code returns, the wrap of a location
      into the grid, is given a second time over IEEE binary32 values
      ([x_index_f32]).
    - The [unsigned] parameter of the constructor is a [Z], and the
      constructor's arithmetic on it wraps at 2^32 ([wrap32]).  The
      strides, sizes and indices of a constructed object are [nat].  The
      running sign, an [int], is a [Z].
    - [std::vector] and the FFTW arrays are lists, read with [!!!] and
      written with [<[i:=x]>].  Reading or writing outside the bounds is
      undefined in C++; in the model a read gives the default element and
      a write does nothing.
    - A [while] loop that may not end takes the number of tests of its
      condition that it is allowed ([fuel]) and gives [None] when it has
      not left by then.
    - [fftwf_execute], [stbi_load], [m_FetchTime] and the draws of
      [NormalComplexRandom] come from outside the repository and are
      taken as parameters.  A member that the code reads before it
      assigns it is a parameter named [stale_...].
    - Where [NormalComplexRandom] and the clock are modelled themselves,
      [rand], [RAND_MAX] and [SDL_GetTicks] are the parameters, and [log]
      of the C runtime is [ln] of the Reals library.  An [unsigned] value
      stored in an [int] is read in two's complement ([to_int]). *)

From Stdlib Require Import Reals Lra Lia ZArith Psatz String SpecFloat.
From stdpp Require Import base list.
From Equations Require Import Equations.

Open Scope R_scope.

(** ** Complex.cpp *)

Record Complex : Type := MkComplex { m_Real : R; m_Imaginary : R }.

Definition Complex_Real (c : Complex) : R := m_Real c.
Definition Complex_Imaginary (c : Complex) : R := m_Imaginary c.

Definition Complex_Conjugate (c : Complex) : Complex :=
  MkComplex (m_Real c) (- m_Imaginary c).

(** [operator+] *)
Definition Complex_add (lhs rhs : Complex) : Complex :=
  let new_real := m_Real lhs + m_Real rhs in
  let new_im := m_Imaginary lhs + m_Imaginary rhs in
  MkComplex new_real new_im.

(** [operator-] *)
Definition Complex_sub (lhs rhs : Complex) : Complex :=
  let new_real := m_Real lhs - m_Real rhs in
  let new_im := m_Imaginary lhs - m_Imaginary rhs in
  MkComplex new_real new_im.

(** [operator*(const Complex &)] *)
Definition Complex_mul (lhs rhs : Complex) : Complex :=
  let new_real := m_Real lhs * m_Real rhs - m_Imaginary lhs * m_Imaginary rhs in
  let new_im := m_Real lhs * m_Imaginary rhs + m_Imaginary lhs * m_Real rhs in
  MkComplex new_real new_im.

(** [operator*(float)] and [operator*=(float)] *)
Definition Complex_scale (lhs : Complex) (rhs : R) : Complex :=
  let new_real := m_Real lhs * rhs in
  let new_im := m_Imaginary lhs * rhs in
  MkComplex new_real new_im.

#[global] Instance Complex_inhabited : Inhabited Complex :=
  populate (MkComplex 0 0).

(** ** glm::vec2 *)

Record vec2 : Type := MkVec2 { vx : R; vy : R }.

Definition glm_length (v : vec2) : R := sqrt (vx v * vx v + vy v * vy v).
Definition glm_dot (a b : vec2) : R := vx a * vx b + vy a * vy b.
Definition vec2_div (v : vec2) (s : R) : vec2 := MkVec2 (vx v / s) (vy v / s).
Definition vec2_neg (v : vec2) : vec2 := MkVec2 (- vx v) (- vy v).

(** ** Constants of WaterFFT.cpp *)

Definition EPSILON : R := 1 / 10000.
Definition TAU : R := 6.28318530718.
Definition MIN_DX_DZ : R := 0.02.

(** ** Integer conversions *)

Definition wrap32 (z : Z) : Z := (z mod 2 ^ 32)%Z.

(** [(unsigned)f]: truncation toward zero.  The conversion is undefined
    when the truncated value does not fit in 32 bits; the model keeps the
    mathematical integer.  The properties of the point queries that
    promise a result take the locations for which the conversions are
    defined ([conversions_defined]). *)
Definition float_to_unsigned (f : R) : Z :=
  if Rle_dec 0 f then Int_part f else (- Int_part (- f))%Z.

(** ** Spectrum and time evolution *)

Definition DispersionRelation (m_Gravity : R) (k : vec2) : R :=
  let w_0 := TAU / 200 in
  let k_magnitude := glm_length k in
  IZR (Int_part (sqrt (m_Gravity * k_magnitude) / w_0)) * w_0.

Definition HTilde (m_Gravity : R) (htilde0 htilde0_conjugate : Complex)
    (k : vec2) (time : R) : Complex :=
  let dispersion := DispersionRelation m_Gravity k in
  let omega_t := dispersion * time in
  let cos_omega_t := cos omega_t in
  let sin_omega_t := sin omega_t in
  let e_1 := MkComplex cos_omega_t sin_omega_t in
  let e_2 := MkComplex (- cos_omega_t) (- sin_omega_t) in
  let term1 := Complex_mul htilde0 e_1 in
  let term2 := Complex_mul htilde0_conjugate e_2 in
  Complex_add term1 term2.

Definition PhillipsSpectrum (m_Amplitude m_Gravity : R) (m_Wind : vec2)
    (k : vec2) : R :=
  let k_magnitude := glm_length k in
  let wind_speed := glm_length m_Wind in
  let wind_normal := vec2_div m_Wind wind_speed in
  if Rlt_dec k_magnitude EPSILON then 0 else
  let k_mag_pow_2 := k_magnitude * k_magnitude in
  let k_mag_pow_4 := k_mag_pow_2 * k_mag_pow_2 in
  let largest_wave := wind_speed * wind_speed / m_Gravity in
  let largest_wave_pow_2 := largest_wave * largest_wave in
  let k_normal := vec2_div k k_magnitude in
  let k_dot_winddir := glm_dot k_normal wind_normal in
  let k_dot_winddir_pow_2 := k_dot_winddir * k_dot_winddir in
  let exponent := - 1 / (k_mag_pow_2 * largest_wave_pow_2) in
  let damping := 0.001 in
  let l2 := largest_wave_pow_2 * damping * damping in
  let factor2 := exp exponent / k_mag_pow_4 in
  let additional_factor := exp (- k_mag_pow_2 * l2) in
  m_Amplitude * factor2 * k_dot_winddir_pow_2 * additional_factor.

(** [HTilde0]: [multiplier] is the value that this call draws from
    [NormalComplexRandom]. *)
Definition HTilde0 (m_Amplitude m_Gravity : R) (m_Wind : vec2)
    (multiplier : Complex) (k : vec2) : Complex :=
  let multiplicand := sqrt (PhillipsSpectrum m_Amplitude m_Gravity m_Wind k / 2) in
  let product := Complex_scale multiplier multiplicand in
  product.

(** ** Data of WaterFFT.h *)

Record Vertex : Type := MkVertex {
  m_Px : R; m_Py : R; m_Pz : R; m_Pw : R;
  m_Nx : R; m_Ny : R; m_Nz : R; m_Nw : R }.

Record VertexExtra : Type := MkVertexExtra {
  m_Ox : R; m_Oy : R; m_Oz : R;
  m_HTilde0 : Complex;
  m_HTilde0Conjugate : Complex }.

Record MeshPosition : Type := MkMeshPosition {
  m_VertexIndex : nat; m_Xt : R; m_Zt : R }.

(** [m_Data] is [None] for the null pointer that [stbi_load] returns when
    the file cannot be decoded. *)
Record IntensityMap : Type := MkIntensityMap {
  m_InstensityFile : string;
  m_Data : option (list Z);
  m_Width : Z;
  m_Height : Z;
  m_MaxX : Z;
  m_MaxY : Z }.

(** The five FFTW arrays of one direction (input or output). *)
Record Fields : Type := MkFields {
  f_HTilde : list Complex;
  f_HTildeSlopeX : list Complex;
  f_HTildeSlopeZ : list Complex;
  f_HTildeDisplaceX : list Complex;
  f_HTildeDisplaceZ : list Complex }.

(** [m_ReadBuffer] and [m_WriteBuffer] point at one of the two vectors. *)
Inductive BufferId : Type := BufferA | BufferB.

Record WaterFFT : Type := MkWaterFFT {
  m_HeightScale : R;
  m_DisplaceScale : R;
  m_XStride : nat;
  m_ZStride : nat;
  m_NumVerts : nat;
  m_fft_XStride : nat;
  m_fft_ZStride : nat;
  m_fft_NumVerts : nat;
  m_VertexBufferA : list Vertex;
  m_VertexBufferB : list Vertex;
  m_ReadBuffer : BufferId;
  m_WriteBuffer : BufferId;
  m_VertexExtrasBuffer : list VertexExtra;
  m_In : Fields;
  m_Out : Fields;
  m_IMap : option IntensityMap;
  m_XLength : R;
  m_ZLength : R;
  m_Amplitude : R;
  m_Gravity : R;
  m_Wind : vec2 }.

#[global] Instance Vertex_inhabited : Inhabited Vertex :=
  populate (MkVertex 0 0 0 0 0 0 0 0).
#[global] Instance VertexExtra_inhabited : Inhabited VertexExtra :=
  populate (MkVertexExtra 0 0 0 inhabitant inhabitant).

Definition buffer (w : WaterFFT) (b : BufferId) : list Vertex :=
  match b with
  | BufferA => m_VertexBufferA w
  | BufferB => m_VertexBufferB w
  end.

Definition ReadBuffer (w : WaterFFT) : list Vertex := buffer w (m_ReadBuffer w).
Definition WriteBuffer (w : WaterFFT) : list Vertex := buffer w (m_WriteBuffer w).

Definition set_buffers (w : WaterFFT) (a b : list Vertex) : WaterFFT :=
  MkWaterFFT (m_HeightScale w) (m_DisplaceScale w) (m_XStride w) (m_ZStride w)
    (m_NumVerts w) (m_fft_XStride w) (m_fft_ZStride w) (m_fft_NumVerts w)
    a b (m_ReadBuffer w) (m_WriteBuffer w)
    (m_VertexExtrasBuffer w) (m_In w) (m_Out w) (m_IMap w)
    (m_XLength w) (m_ZLength w) (m_Amplitude w) (m_Gravity w) (m_Wind w).

(** Assignment through [*m_WriteBuffer]. *)
Definition set_WriteBuffer (w : WaterFFT) (l : list Vertex) : WaterFFT :=
  match m_WriteBuffer w with
  | BufferA => set_buffers w l (m_VertexBufferB w)
  | BufferB => set_buffers w (m_VertexBufferA w) l
  end.

Definition set_pointers (w : WaterFFT) (r wr : BufferId) : WaterFFT :=
  MkWaterFFT (m_HeightScale w) (m_DisplaceScale w) (m_XStride w) (m_ZStride w)
    (m_NumVerts w) (m_fft_XStride w) (m_fft_ZStride w) (m_fft_NumVerts w)
    (m_VertexBufferA w) (m_VertexBufferB w) r wr
    (m_VertexExtrasBuffer w) (m_In w) (m_Out w) (m_IMap w)
    (m_XLength w) (m_ZLength w) (m_Amplitude w) (m_Gravity w) (m_Wind w).

Definition set_In (w : WaterFFT) (f : Fields) : WaterFFT :=
  MkWaterFFT (m_HeightScale w) (m_DisplaceScale w) (m_XStride w) (m_ZStride w)
    (m_NumVerts w) (m_fft_XStride w) (m_fft_ZStride w) (m_fft_NumVerts w)
    (m_VertexBufferA w) (m_VertexBufferB w) (m_ReadBuffer w) (m_WriteBuffer w)
    (m_VertexExtrasBuffer w) f (m_Out w) (m_IMap w)
    (m_XLength w) (m_ZLength w) (m_Amplitude w) (m_Gravity w) (m_Wind w).

Definition set_Out (w : WaterFFT) (f : Fields) : WaterFFT :=
  MkWaterFFT (m_HeightScale w) (m_DisplaceScale w) (m_XStride w) (m_ZStride w)
    (m_NumVerts w) (m_fft_XStride w) (m_fft_ZStride w) (m_fft_NumVerts w)
    (m_VertexBufferA w) (m_VertexBufferB w) (m_ReadBuffer w) (m_WriteBuffer w)
    (m_VertexExtrasBuffer w) (m_In w) f (m_IMap w)
    (m_XLength w) (m_ZLength w) (m_Amplitude w) (m_Gravity w) (m_Wind w).

Definition set_IMap (w : WaterFFT) (m : option IntensityMap) : WaterFFT :=
  MkWaterFFT (m_HeightScale w) (m_DisplaceScale w) (m_XStride w) (m_ZStride w)
    (m_NumVerts w) (m_fft_XStride w) (m_fft_ZStride w) (m_fft_NumVerts w)
    (m_VertexBufferA w) (m_VertexBufferB w) (m_ReadBuffer w) (m_WriteBuffer w)
    (m_VertexExtrasBuffer w) (m_In w) (m_Out w) m
    (m_XLength w) (m_ZLength w) (m_Amplitude w) (m_Gravity w) (m_Wind w).

(** [for (unsigned i = 0; i < n; ++i) body] over a loop state. *)
Definition for_range {S : Type} (n : nat) (body : nat -> S -> S) (s : S) : S :=
  fold_left (fun acc i => body i acc) (seq 0 n) s.

(** ** Math helpers *)

Definition Lerp (a b t : R) : R := a + (b - a) * t.

Definition QuadLerp (a b c d tx ty : R) : R :=
  let ab := Lerp a b tx in
  let cd := Lerp c d tx in
  Lerp ab cd ty.

(** ** Intensity map *)

(** [stbi_load] either fails or gives the samples with width and height.
    On failure the constructor leaves [m_Width] and [m_Height] as they
    were: [stale_w] and [stale_h] are those indeterminate values. *)
Definition IntensityMap_new
    (stbi_load : string -> option (list Z * Z * Z))
    (stale_w stale_h : Z) (filename : string) : IntensityMap :=
  match stbi_load filename with
  | Some (data, width, height) =>
      MkIntensityMap filename (Some data) width height
        (wrap32 (width - 1)) (wrap32 (height - 1))
  | None =>
      MkIntensityMap filename None stale_w stale_h
        (wrap32 (stale_w - 1)) (wrap32 (stale_h - 1))
  end.

(** [m_Data[i]]; a null or short array is read as 0 in the model. *)
Definition data_at (im : IntensityMap) (i : Z) : Z :=
  match m_Data im with
  | Some d => nth (Z.to_nat i) d 0%Z
  | None => 0%Z
  end.

Definition GetIntensity (im : IntensityMap) (x z : R) : R :=
  let xi_f := x * IZR (m_Width im) in
  let yi_f := z * IZR (m_Height im) in
  let xi0 := float_to_unsigned xi_f in
  let xi1 := Z.min (wrap32 (xi0 + 1)) (m_MaxX im) in
  let yi0 := float_to_unsigned yi_f in
  let yi1 := Z.min (wrap32 (yi0 + 1)) (m_MaxY im) in
  let x_t := xi_f - IZR xi0 in
  let y_t := yi_f - IZR yi0 in
  let ai := wrap32 (yi0 * m_Width im + xi0) in
  let bi := wrap32 (yi0 * m_Width im + xi1) in
  let ci := wrap32 (yi1 * m_Width im + xi0) in
  let di := wrap32 (yi1 * m_Width im + xi1) in
  let a := IZR (data_at im ai) / 255 in
  let b := IZR (data_at im bi) / 255 in
  let c := IZR (data_at im ci) / 255 in
  let d := IZR (data_at im di) / 255 in
  QuadLerp a b c d x_t y_t.

Definition RemoveIntensityMap (w : WaterFFT) : WaterFFT * bool :=
  match m_IMap w with
  | Some _ => (set_IMap w None, true)
  | None => (w, false)
  end.

Definition UseIntensityMap
    (stbi_load : string -> option (list Z * Z * Z))
    (stale_w stale_h : Z) (filename : string) (w : WaterFFT)
    : WaterFFT * bool :=
  let w := fst (RemoveIntensityMap w) in
  (set_IMap w (Some (IntensityMap_new stbi_load stale_w stale_h filename)), true).

Definition SwapBuffers (w : WaterFFT) : WaterFFT :=
  let temp := m_ReadBuffer w in
  set_pointers w (m_WriteBuffer w) temp.

(** ** UpdateFFT *)

(** Body of the first double loop: the frequency-domain values of one
    cell.  The state is [fft_vertex_index] and the five input arrays. *)
Definition fill_cell (w : WaterFFT) (time kz : R) (x : nat)
    (s : nat * Fields) : nat * Fields :=
  let fft_vertex_index := fst s in
  let ins := snd s in
  let n := INR x - INR (m_fft_XStride w) / 2 in
  let kx := TAU * n / m_XLength w in
  let k := MkVec2 kx kz in
  let k_magnitude := glm_length k in
  let htilde0 := m_HTilde0 (m_VertexExtrasBuffer w !!! fft_vertex_index) in
  let htilde0_conj :=
    m_HTilde0Conjugate (m_VertexExtrasBuffer w !!! fft_vertex_index) in
  let htilde := HTilde (m_Gravity w) htilde0 htilde0_conj k time in
  let displace_x :=
    if Rlt_dec k_magnitude EPSILON then MkComplex 0 0
    else Complex_mul htilde (MkComplex 0 (- kx / k_magnitude)) in
  let displace_z :=
    if Rlt_dec k_magnitude EPSILON then MkComplex 0 0
    else Complex_mul htilde (MkComplex 0 (- kz / k_magnitude)) in
  (S fft_vertex_index,
   MkFields
     (<[fft_vertex_index := htilde]> (f_HTilde ins))
     (<[fft_vertex_index := Complex_mul htilde (MkComplex 0 kx)]>
        (f_HTildeSlopeX ins))
     (<[fft_vertex_index := Complex_mul htilde (MkComplex 0 kz)]>
        (f_HTildeSlopeZ ins))
     (<[fft_vertex_index := displace_x]> (f_HTildeDisplaceX ins))
     (<[fft_vertex_index := displace_z]> (f_HTildeDisplaceZ ins))).

Definition fill_row (w : WaterFFT) (time : R) (z : nat)
    (s : nat * Fields) : nat * Fields :=
  let m := INR z - INR (m_fft_ZStride w) / 2 in
  let kz := TAU * m / m_ZLength w in
  for_range (m_fft_XStride w) (fill_cell w time kz) s.

Definition fill_inputs (w : WaterFFT) (time : R) : Fields :=
  snd (for_range (m_fft_ZStride w) (fill_row w time) (0%nat, m_In w)).

(** The five [fftwf_execute] calls; [fftwf_execute n0 n1 input] is the
    content of the plan's output array after the call. *)
Definition execute_plans (fftwf_execute : nat -> nat -> list Complex -> list Complex)
    (w : WaterFFT) (ins : Fields) : Fields :=
  let run := fftwf_execute (m_fft_XStride w) (m_fft_ZStride w) in
  MkFields (run (f_HTilde ins)) (run (f_HTildeSlopeX ins))
    (run (f_HTildeSlopeZ ins)) (run (f_HTildeDisplaceX ins))
    (run (f_HTildeDisplaceZ ins)).

(** State of the second double loop. *)
Record Synth : Type := MkSynth {
  vertex_index : nat;
  fft_vertex_index : nat;
  sign : Z;
  outs : Fields;
  write : list Vertex }.

(** [a[i] *= (float)sign] *)
Definition apply_sign (sign : Z) (i : nat) (a : list Complex) : list Complex :=
  <[i := Complex_scale (a !!! i) (IZR sign)]> a.

(** The factors of the height and of the normal's y at cell (x, z). *)
Definition y_factors (w : WaterFFT) (x z : nat) : R * R :=
  let position_y_factor := m_HeightScale w in
  let normal_y_factor := 1 / m_HeightScale w in
  match m_IMap w with
  | Some imap =>
      let x_0to1 := INR x / INR (m_fft_XStride w) in
      let z_0to1 := INR z / INR (m_fft_XStride w) in
      let intensity := GetIntensity imap x_0to1 z_0to1 in
      let intensity := if Req_dec_T intensity 0 then EPSILON else intensity in
      (position_y_factor * intensity, normal_y_factor * (1 / intensity))
  | None => (position_y_factor, normal_y_factor)
  end.

(** The vertex written for a cell from the five (signed) outputs. *)
Definition cell_vertex (w : WaterFFT) (x z : nat) (extra : VertexExtra)
    (h sx sz dx dz : Complex) (vert : Vertex) : Vertex :=
  let x_location := m_Ox extra in
  let z_location := m_Oz extra in
  let position_y_factor := fst (y_factors w x z) in
  let normal_y_factor := snd (y_factors w x z) in
  let normal_x := 0 - Complex_Real sx in
  let normal_y := 1 in
  let normal_z := 0 - Complex_Real sz in
  MkVertex
    (x_location + m_DisplaceScale w * Complex_Real dx)
    (Complex_Real h * position_y_factor)
    (z_location + m_DisplaceScale w * Complex_Real dz)
    (m_Pw vert)
    normal_x
    (normal_y * normal_y_factor)
    normal_z
    (m_Nw vert).

Definition synth_cell (w : WaterFFT) (z x : nat) (s : Synth) : Synth :=
  let i := fft_vertex_index s in
  let o := outs s in
  let o := MkFields
    (apply_sign (sign s) i (f_HTilde o))
    (apply_sign (sign s) i (f_HTildeSlopeX o))
    (apply_sign (sign s) i (f_HTildeSlopeZ o))
    (apply_sign (sign s) i (f_HTildeDisplaceX o))
    (apply_sign (sign s) i (f_HTildeDisplaceZ o)) in
  let vert := write s !!! vertex_index s in
  let vert := cell_vertex w x z (m_VertexExtrasBuffer w !!! i)
    (f_HTilde o !!! i) (f_HTildeSlopeX o !!! i) (f_HTildeSlopeZ o !!! i)
    (f_HTildeDisplaceX o !!! i) (f_HTildeDisplaceZ o !!! i) vert in
  MkSynth (S (vertex_index s)) (S i) (sign s * -1)%Z o
    (<[vertex_index s := vert]> (write s)).

Definition synth_row (w : WaterFFT) (z : nat) (s : Synth) : Synth :=
  let s := for_range (m_fft_XStride w) (synth_cell w z) s in
  MkSynth (S (vertex_index s)) (fft_vertex_index s) (sign s * -1)%Z
    (outs s) (write s).

Definition synthesize (w : WaterFFT) (o : Fields) (wb : list Vertex) : Synth :=
  for_range (m_fft_ZStride w) (synth_row w) (MkSynth 0 0 1 o wb).

(** State of the loop of [UpdateTailEdge]: the two moving indices and the
    write buffer. *)
Definition tail_step (d_vertex_index : nat) (x_offset z_offset : R) (i : nat)
    (s : nat * nat * list Vertex) : nat * nat * list Vertex :=
  let up_vertex_index := fst (fst s) in
  let og_vertex_index := snd (fst s) in
  let wb := snd s in
  let update_vert := wb !!! up_vertex_index in
  let og_vert := wb !!! og_vertex_index in
  let update_vert := MkVertex
    (m_Px og_vert + x_offset) (m_Py og_vert) (m_Pz og_vert + z_offset)
    (m_Pw update_vert)
    (m_Nx og_vert) (m_Ny og_vert) (m_Nz og_vert)
    (m_Nw update_vert) in
  ((up_vertex_index + d_vertex_index)%nat,
   (og_vertex_index + d_vertex_index)%nat,
   <[up_vertex_index := update_vert]> wb).

Definition UpdateTailEdge (w : WaterFFT) (edge : Z) (wb : list Vertex)
    : list Vertex :=
  let '(up_vertex_index, og_vertex_index, d_vertex_index, x_offset, z_offset) :=
    if (edge =? 0)%Z
    then ((m_XStride w - 1)%nat, 0%nat, m_XStride w, m_XLength w, 0)
    else ((m_XStride w * (m_ZStride w - 1))%nat, 0%nat, 1%nat, 0, m_ZLength w) in
  snd (for_range (m_ZStride w - 1)
         (tail_step d_vertex_index x_offset z_offset)
         (up_vertex_index, og_vertex_index, wb)).

(** The tail corner: position from vertex 0, nothing else is assigned. *)
Definition update_corner (w : WaterFFT) (wb : list Vertex) : list Vertex :=
  let update_vert := wb !!! (m_NumVerts w - 1)%nat in
  let og_vert := wb !!! 0%nat in
  <[(m_NumVerts w - 1)%nat :=
      MkVertex (m_Px og_vert + m_XLength w) (m_Py og_vert)
        (m_Pz og_vert + m_ZLength w) (m_Pw update_vert)
        (m_Nx update_vert) (m_Ny update_vert) (m_Nz update_vert)
        (m_Nw update_vert)]> wb.

Definition UpdateFFT (fftwf_execute : nat -> nat -> list Complex -> list Complex)
    (time : R) (w : WaterFFT) : WaterFFT :=
  let ins := fill_inputs w time in
  let raw := execute_plans fftwf_execute w ins in
  let s := synthesize w raw (WriteBuffer w) in
  let wb := write s in
  let wb := UpdateTailEdge w 0 wb in
  let wb := UpdateTailEdge w 1 wb in
  let wb := update_corner w wb in
  set_WriteBuffer (set_Out (set_In w ins) (outs s)) wb.

Definition Update := UpdateFFT.

(** ** Point queries *)

(** [if (f >= max) { grids = (unsigned)(f / max); f -= (float)(grids * max); }] *)
Definition wrap_down (index_float max_index : R) : R :=
  if Rge_dec index_float max_index then
    let grids_to_offset := float_to_unsigned (index_float / max_index) in
    index_float - IZR grids_to_offset * max_index
  else index_float.

(** [while (f < 0) f += max;] run for at most [fuel] tests of the
    condition; [None] when the loop has not left by then. *)
Fixpoint wrap_up (fuel : nat) (index_float max_index : R) : option R :=
  match fuel with
  | O => None
  | S fuel =>
      if Rlt_dec index_float 0
      then wrap_up fuel (index_float + max_index) max_index
      else Some index_float
  end.

Definition LocationToMeshPosition (fuel : nat) (w : WaterFFT) (location : vec2)
    : option MeshPosition :=
  let x_index_float := vx location + INR (m_XStride w) / 2 in
  let z_index_float := vy location + INR (m_ZStride w) / 2 in
  let x_max_index := INR (m_XStride w - 1) in
  match wrap_up fuel (wrap_down x_index_float x_max_index) x_max_index with
  | None => None
  | Some x_index_float =>
  let z_max_index := INR (m_ZStride w - 1) in
  match wrap_up fuel (wrap_down z_index_float z_max_index) z_max_index with
  | None => None
  | Some z_index_float =>
  let x_index := float_to_unsigned x_index_float in
  let xt := x_index_float - IZR x_index in
  let z_index := float_to_unsigned z_index_float in
  let zt := z_index_float - IZR z_index in
  let vertex_index := (Z.to_nat z_index * m_XStride w + Z.to_nat x_index)%nat in
  Some (MkMeshPosition vertex_index xt zt)
  end end.

Definition GetLocationHeightFFT (w : WaterFFT) (mp : MeshPosition) : R :=
  let a := ReadBuffer w !!! m_VertexIndex mp in
  let b := ReadBuffer w !!! (m_VertexIndex mp + 1)%nat in
  let c := ReadBuffer w !!! (m_VertexIndex mp + m_XStride w)%nat in
  let d := ReadBuffer w !!! (m_VertexIndex mp + m_XStride w + 1)%nat in
  let ha := m_Py a in
  let hb := m_Py b in
  let hc := m_Py c in
  let hd := m_Py d in
  let hab := ha + (hb - ha) * m_Xt mp in
  let hcd := hc + (hd - hc) * m_Xt mp in
  let habcd := hab + (hcd - hab) * m_Zt mp in
  habcd.

Definition HeightAtLocation (fuel : nat) (w : WaterFFT) (location : vec2)
    : option R :=
  match LocationToMeshPosition fuel w location with
  | Some mp => Some (GetLocationHeightFFT w mp)
  | None => None
  end.

(** The four vertices that the bilinear queries read. *)
Definition query_indices (w : WaterFFT) (mp : MeshPosition) : list nat :=
  [ m_VertexIndex mp; (m_VertexIndex mp + 1)%nat;
    (m_VertexIndex mp + m_XStride w)%nat;
    (m_VertexIndex mp + m_XStride w + 1)%nat ].

(** ** The wrap of LocationToMeshPosition in binary32

    The same statements over IEEE binary32 values with rounding to
    nearest even, for the one place where rounding decides whether the
    function returns. *)

Definition f32 : Type := spec_float.
Definition f32_add : f32 -> f32 -> f32 := SFadd 24 128.
Definition f32_sub : f32 -> f32 -> f32 := SFsub 24 128.
Definition f32_mul : f32 -> f32 -> f32 := SFmul 24 128.
Definition f32_div : f32 -> f32 -> f32 := SFdiv 24 128.

(** [(float)u] for an unsigned [u]. *)
Definition f32_of_unsigned (u : Z) : f32 := binary_normalize 24 128 u 0 false.

(** [(unsigned)f]: truncation toward zero (undefined in C++ for a
    negative or too large value). *)
Definition f32_to_unsigned (f : f32) : Z :=
  match f with
  | S754_finite s m e =>
      let v := if (0 <=? e)%Z then (Zpos m * 2 ^ e)%Z else (Zpos m / 2 ^ (- e))%Z in
      if s then (- v)%Z else v
  | _ => 0%Z
  end.

Fixpoint wrap_up_f32 (fuel : nat) (index_float max_index : f32) : option f32 :=
  match fuel with
  | O => None
  | S fuel =>
      if SFltb index_float (f32_of_unsigned 0)
      then wrap_up_f32 fuel (f32_add index_float max_index) max_index
      else Some index_float
  end.

(** The computation of [x_index_float] in [LocationToMeshPosition], up to
    the end of its [while] loop. *)
Definition x_index_f32 (fuel : nat) (m_XStride : Z) (location_x : f32)
    : option f32 :=
  let x_index_float :=
    f32_add location_x (f32_div (f32_of_unsigned m_XStride) (f32_of_unsigned 2)) in
  let x_max_index := f32_of_unsigned (m_XStride - 1) in
  let x_index_float :=
    if SFleb x_max_index x_index_float then
      let grids_to_offset := f32_to_unsigned (f32_div x_index_float x_max_index) in
      f32_sub x_index_float (f32_mul (f32_of_unsigned grids_to_offset) x_max_index)
    else x_index_float in
  wrap_up_f32 fuel x_index_float x_max_index.

(** The binary32 value -10000000000 = -(9765625 * 2^10). *)
Definition minus_1e10 : f32 := S754_finite true 9765625 10.

(** ** Construction *)

Inductive WaterFFTError_Type : Type := INVALID_GRID_DIM | SMALL_DX_DZ.

(** [while (gd_check > 2) { if (gd_check % 2 != 0) throw ...; gd_check /= 2; }]
    [Some e] when [e] is thrown, [None] when the loop is left. *)
Equations gd_check_loop (gd_check : Z) : option WaterFFTError_Type
  by wf (Z.to_nat gd_check) lt :=
  gd_check_loop gd_check with Z_gt_dec gd_check 2 := {
    | left _ =>
        if negb (gd_check mod 2 =? 0)%Z then Some INVALID_GRID_DIM
        else gd_check_loop (gd_check / 2)
    | right _ => None }.
Next Obligation.
  apply Z2Nat.inj_lt; try lia.
  - apply Z.div_pos; lia.
  - apply Z.div_lt; lia.
Qed.

(** The two checks at the head of the constructor.  [m_XStride] is read
    by the second check before the constructor assigns it (the
    assignment follows the checks): [stale_XStride] is the value the
    member holds at that point. *)
Definition parameter_checks (stale_XStride : Z) (grid_dimension : Z)
    (meter_dimension : R) : option WaterFFTError_Type :=
  match gd_check_loop grid_dimension with
  | Some error => Some error
  | None =>
      let dx_dz := meter_dimension / IZR stale_XStride in
      if Rlt_dec dx_dz MIN_DX_DZ then Some SMALL_DX_DZ else None
  end.

(** State of the loops of [InitializeVertexBuffer]: the three vectors and
    the number of calls of [NormalComplexRandom] made so far. *)
Record Init : Type := MkInit {
  init_A : list Vertex;
  init_B : list Vertex;
  init_extras : list VertexExtra;
  init_draws : nat }.

Definition init_cell (draw : nat -> Complex) (w : WaterFFT) (z : nat)
    (m kz : R) (x : nat) (s : Init) : Init :=
  let n := INR x - INR (m_fft_XStride w) / 2 in
  let start_x := m_XLength w * n / INR (m_fft_XStride w) in
  let start_y := 0 in
  let start_z := m_ZLength w * m / INR (m_fft_ZStride w) in
  let vertex := MkVertex start_x start_y start_z 0 0 1 0 0 in
  if Nat.ltb z (m_fft_ZStride w) && Nat.ltb x (m_fft_XStride w) then
    let kx := TAU * n / m_XLength w in
    let k := MkVec2 kx kz in
    let htilde0_vertex :=
      HTilde0 (m_Amplitude w) (m_Gravity w) (m_Wind w) (draw (init_draws s)) k in
    let htilde0_conjugate_vertex :=
      Complex_Conjugate
        (HTilde0 (m_Amplitude w) (m_Gravity w) (m_Wind w)
           (draw (S (init_draws s))) (vec2_neg k)) in
    MkInit (init_A s ++ [vertex]) (init_B s ++ [vertex])
      (init_extras s ++
         [MkVertexExtra start_x start_y start_z
            htilde0_vertex htilde0_conjugate_vertex])
      (S (S (init_draws s)))
  else
    MkInit (init_A s ++ [vertex]) (init_B s ++ [vertex])
      (init_extras s) (init_draws s).

Definition init_row (draw : nat -> Complex) (w : WaterFFT) (z : nat)
    (s : Init) : Init :=
  let m := INR z - INR (m_fft_ZStride w) / 2 in
  let kz := TAU * m / m_ZLength w in
  for_range (m_XStride w) (init_cell draw w z m kz) s.

Definition InitializeVertexBuffer (draw : nat -> Complex) (w : WaterFFT)
    : WaterFFT :=
  let s := for_range (m_ZStride w) (init_row draw w)
             (MkInit [] (m_VertexBufferB w) (m_VertexExtrasBuffer w) 0) in
  MkWaterFFT (m_HeightScale w) (m_DisplaceScale w) (m_XStride w) (m_ZStride w)
    (m_NumVerts w) (m_fft_XStride w) (m_fft_ZStride w) (m_fft_NumVerts w)
    (init_A s) (init_B s) BufferA BufferB
    (init_extras s) (m_In w) (m_Out w) (m_IMap w)
    (m_XLength w) (m_ZLength w) (m_Amplitude w) (m_Gravity w) (m_Wind w).

(** The outcome of [new WaterFFT(grid_dimension, meter_dimension, ...)]. *)
Inductive Construction : Type :=
  | Thrown (error : WaterFFTError_Type)
  | Constructed (w : WaterFFT).

(** The FFTW arrays are allocated without a content; [UpdateFFT] writes
    every element before it reads one, and the model starts them at 0.
    The index and offset buffers play no part below and are left out. *)
Definition WaterFFT_new (stale_XStride : Z) (draw : nat -> Complex)
    (grid_dimension : Z) (meter_dimension : R) : Construction :=
  match parameter_checks stale_XStride grid_dimension meter_dimension with
  | Some error => Thrown error
  | None =>
      let XStride := Z.to_nat (wrap32 (grid_dimension + 1)) in
      let ZStride := Z.to_nat (wrap32 (grid_dimension + 1)) in
      let NumVerts := Z.to_nat (wrap32 (Z.of_nat XStride * Z.of_nat ZStride)) in
      let fft_XStride := Z.to_nat grid_dimension in
      let fft_ZStride := Z.to_nat grid_dimension in
      let fft_NumVerts :=
        Z.to_nat (wrap32 (Z.of_nat fft_XStride * Z.of_nat fft_ZStride)) in
      let arrays := replicate fft_NumVerts (MkComplex 0 0) in
      let fields := MkFields arrays arrays arrays arrays arrays in
      Constructed (InitializeVertexBuffer draw
        (MkWaterFFT 1 1 XStride ZStride NumVerts
           fft_XStride fft_ZStride fft_NumVerts
           [] [] BufferA BufferB [] fields fields None
           meter_dimension meter_dimension 0.00005 9.81 (MkVec2 64 64)))
  end.

(** The shape that the constructor gives an object and that every
    operation keeps: an accepted grid dimension [n], [n + 1] vertices a
    side, two buffers of [(n + 1)^2] vertices and [n^2] extras. *)
Record wf (w : WaterFFT) : Prop := MkWf {
  wf_accepted : gd_check_loop (Z.of_nat (m_fft_XStride w)) = None;
  wf_fft_ZStride : m_fft_ZStride w = m_fft_XStride w;
  wf_XStride : m_XStride w = S (m_fft_XStride w);
  wf_ZStride : m_ZStride w = S (m_fft_ZStride w);
  wf_NumVerts : m_NumVerts w = (m_XStride w * m_ZStride w)%nat;
  wf_A : length (m_VertexBufferA w) = m_NumVerts w;
  wf_B : length (m_VertexBufferB w) = m_NumVerts w;
  wf_extras :
    length (m_VertexExtrasBuffer w) = (m_fft_XStride w * m_fft_ZStride w)%nat;
  wf_In :
    length (f_HTilde (m_In w)) = (m_fft_XStride w * m_fft_ZStride w)%nat /\
    length (f_HTildeSlopeX (m_In w)) = (m_fft_XStride w * m_fft_ZStride w)%nat /\
    length (f_HTildeSlopeZ (m_In w)) = (m_fft_XStride w * m_fft_ZStride w)%nat /\
    length (f_HTildeDisplaceX (m_In w)) = (m_fft_XStride w * m_fft_ZStride w)%nat /\
    length (f_HTildeDisplaceZ (m_In w)) = (m_fft_XStride w * m_fft_ZStride w)%nat;
  wf_pointers : m_ReadBuffer w <> m_WriteBuffer w }.

(** What is used of [fftwf_execute]: a plan for an [n0] by [n1] grid
    fills an output array of [n0 * n1] elements. *)
Definition fftw_shape (fftwf_execute : nat -> nat -> list Complex -> list Complex)
    : Prop :=
  forall n0 n1 input,
    length input = (n0 * n1)%nat ->
    length (fftwf_execute n0 n1 input) = (n0 * n1)%nat.

(** * The threading harness (ThreadUtils.h, WaterFFTThread)

    Two threads, the main thread and the thread running [RunWater], take
    steps in any order; one step is one statement of the source, and
    every read and write of the shared members is seen by the other
    thread at once.  [m_CV.wait] returns only after a [notify_all]: C++
    allows a wait to return without one, but never promises it; the
    relation [step_spurious] further down adds such returns. *)

Inductive Thread : Type := MainThread | WaterThread.

(** Where a thread stands inside [Barrier::WaitForAllThreads]. *)
Inductive BarrierPc : Type :=
  | Enter (knock_down : bool)  (* if (knock_down) { m_KnockedDown = true; *)
  | NotifyKnock                (*   m_CV.notify_all(); } *)
  | Test                       (* if (!m_KnockedDown) { *)
  | Lock                       (*   std::unique_lock<std::mutex> lock(m_Mutex); *)
  | Decrement                  (*   --m_ThreadsLeft; *)
  | Branch                     (*   if (m_ThreadsLeft == 0) { *)
  | Callback                   (*     single_callback(); *)
  | Reset                      (*     m_ThreadsLeft = m_TotalThreads; *)
  | NotifyAll                  (*     m_CV.notify_all(); } *)
  | WaitCV                     (*   else { m_CV.wait(lock): unlock and block *)
  | Blocked                    (*     blocked in the wait *)
  | Woken                      (*     notified: lock again and return } *)
  | Unlock.                    (* } the lock is released at the end of the scope *)

(** Where the water thread stands in [RunWater]. *)
Inductive RunPc : Type :=
  | RunTest                    (* while (m_Running) *)
  | RunUpdate                  (*   WaterFFTHolder::Update(m_FetchTime()); *)
  | RunBarrier (b : BarrierPc) (*   m_Barrier.WaitForAllThreads(PrepBuffers, false); *)
  | RunExit.                   (* the thread function has returned *)

(** Where the main thread stands: between calls, in [Wait()], or in
    [Terminate()]. *)
Inductive MainPc : Type :=
  | MainIdle
  | MainWait (b : BarrierPc)   (* WaterFFTThread::Wait(false) *)
  | TermClear                  (* m_Running = false; *)
  | TermWait (b : BarrierPc)   (* WaterFFTThread::Wait(true); *)
  | TermJoin                   (* m_Water->join(); *)
  | TermReturned.

Record Harness : Type := MkHarness {
  m_Running : bool;
  m_KnockedDown : bool;
  m_ThreadsLeft : Z;
  m_TotalThreads : Z;
  m_Mutex : option Thread;
  holder_Water : WaterFFT;              (* WaterFFTHolder::m_Water *)
  renderer_VertexBuffer : BufferId;     (* WaterRenderer::m_VertexBuffer *)
  fetched : nat;                        (* calls of m_FetchTime so far *)
  run_pc : RunPc;
  main_pc : MainPc }.

Definition set_Running (v : bool) (s : Harness) : Harness :=
  MkHarness v (m_KnockedDown s) (m_ThreadsLeft s) (m_TotalThreads s) (m_Mutex s)
    (holder_Water s) (renderer_VertexBuffer s) (fetched s) (run_pc s) (main_pc s).

Definition set_KnockedDown (v : bool) (s : Harness) : Harness :=
  MkHarness (m_Running s) v (m_ThreadsLeft s) (m_TotalThreads s) (m_Mutex s)
    (holder_Water s) (renderer_VertexBuffer s) (fetched s) (run_pc s) (main_pc s).

Definition set_ThreadsLeft (v : Z) (s : Harness) : Harness :=
  MkHarness (m_Running s) (m_KnockedDown s) v (m_TotalThreads s) (m_Mutex s)
    (holder_Water s) (renderer_VertexBuffer s) (fetched s) (run_pc s) (main_pc s).

Definition set_Mutex (v : option Thread) (s : Harness) : Harness :=
  MkHarness (m_Running s) (m_KnockedDown s) (m_ThreadsLeft s) (m_TotalThreads s) v
    (holder_Water s) (renderer_VertexBuffer s) (fetched s) (run_pc s) (main_pc s).

Definition set_run_pc (v : RunPc) (s : Harness) : Harness :=
  MkHarness (m_Running s) (m_KnockedDown s) (m_ThreadsLeft s) (m_TotalThreads s)
    (m_Mutex s) (holder_Water s) (renderer_VertexBuffer s) (fetched s) v (main_pc s).

Definition set_main_pc (v : MainPc) (s : Harness) : Harness :=
  MkHarness (m_Running s) (m_KnockedDown s) (m_ThreadsLeft s) (m_TotalThreads s)
    (m_Mutex s) (holder_Water s) (renderer_VertexBuffer s) (fetched s) (run_pc s) v.

(** [WaterFFTHolder::PrepBuffers]: swap, then hand the read buffer to the
    renderer. *)
Definition PrepBuffers (s : Harness) : Harness :=
  let water := SwapBuffers (holder_Water s) in
  MkHarness (m_Running s) (m_KnockedDown s) (m_ThreadsLeft s) (m_TotalThreads s)
    (m_Mutex s) water (m_ReadBuffer water) (fetched s) (run_pc s) (main_pc s).

Definition wake (b : BarrierPc) : BarrierPc :=
  match b with
  | Blocked => Woken
  | _ => b
  end.

(** [m_CV.notify_all()]: every thread blocked in the wait is woken. *)
Definition notify_all (s : Harness) : Harness :=
  let run := match run_pc s with
             | RunBarrier b => RunBarrier (wake b)
             | pc => pc
             end in
  let main := match main_pc s with
              | MainWait b => MainWait (wake b)
              | TermWait b => TermWait (wake b)
              | pc => pc
              end in
  set_main_pc main (set_run_pc run s).

(** One step of [self] inside [WaitForAllThreads]: the new state and the
    next place, [None] for the place when the function returns; [None]
    altogether when the thread cannot move. *)
Definition barrier_step (self : Thread) (b : BarrierPc) (s : Harness)
    : option (Harness * option BarrierPc) :=
  match b with
  | Enter true => Some (set_KnockedDown true s, Some NotifyKnock)
  | Enter false => Some (s, Some Test)
  | NotifyKnock => Some (notify_all s, Some Test)
  | Test => if m_KnockedDown s then Some (s, None) else Some (s, Some Lock)
  | Lock =>
      match m_Mutex s with
      | None => Some (set_Mutex (Some self) s, Some Decrement)
      | Some _ => None
      end
  | Decrement => Some (set_ThreadsLeft (m_ThreadsLeft s - 1) s, Some Branch)
  | Branch =>
      if (m_ThreadsLeft s =? 0)%Z then Some (s, Some Callback)
      else Some (s, Some WaitCV)
  | Callback => Some (PrepBuffers s, Some Reset)
  | Reset => Some (set_ThreadsLeft (m_TotalThreads s) s, Some NotifyAll)
  | NotifyAll => Some (notify_all s, Some Unlock)
  | WaitCV => Some (set_Mutex None s, Some Blocked)
  | Blocked => None
  | Woken =>
      match m_Mutex s with
      | None => Some (set_Mutex (Some self) s, Some Unlock)
      | Some _ => None
      end
  | Unlock => Some (set_Mutex None s, None)
  end.

Section Harness.

(** The transform and the clock of [m_FetchTime] are the program's
    surroundings. *)
Variable fftwf_execute : nat -> nat -> list Complex -> list Complex.
Variable fetch_time : nat -> R.

(** One step of the thread running [RunWater]. *)
Definition run_step (s : Harness) : option Harness :=
  match run_pc s with
  | RunTest =>
      Some (set_run_pc (if m_Running s then RunUpdate else RunExit) s)
  | RunUpdate =>
      Some (MkHarness (m_Running s) (m_KnockedDown s) (m_ThreadsLeft s)
              (m_TotalThreads s) (m_Mutex s)
              (Update fftwf_execute (fetch_time (fetched s)) (holder_Water s))
              (renderer_VertexBuffer s) (S (fetched s))
              (RunBarrier (Enter false)) (main_pc s))
  | RunBarrier b =>
      match barrier_step WaterThread b s with
      | Some (s', Some b') => Some (set_run_pc (RunBarrier b') s')
      | Some (s', None) => Some (set_run_pc RunTest s')
      | None => None
      end
  | RunExit => None
  end.

(** What the main thread does when it is between calls. *)
Inductive Call : Type := CallWait | CallTerminate.

(** One step of the main thread. *)
Definition main_step (call : Call) (s : Harness) : option Harness :=
  match main_pc s with
  | MainIdle =>
      match call with
      | CallWait => Some (set_main_pc (MainWait (Enter false)) s)
      | CallTerminate => Some (set_main_pc TermClear s)
      end
  | MainWait b =>
      match barrier_step MainThread b s with
      | Some (s', Some b') => Some (set_main_pc (MainWait b') s')
      | Some (s', None) => Some (set_main_pc MainIdle s')
      | None => None
      end
  | TermClear =>
      Some (set_main_pc (TermWait (Enter true)) (set_Running false s))
  | TermWait b =>
      match barrier_step MainThread b s with
      | Some (s', Some b') => Some (set_main_pc (TermWait b') s')
      | Some (s', None) => Some (set_main_pc TermJoin s')
      | None => None
      end
  | TermJoin =>
      match run_pc s with
      | RunExit => Some (set_main_pc TermReturned s)
      | _ => None
      end
  | TermReturned => None
  end.

Inductive step (s s' : Harness) : Prop :=
  | step_water : run_step s = Some s' -> step s s'
  | step_main (call : Call) : main_step call s = Some s' -> step s s'.

Inductive reachable (s : Harness) : Harness -> Prop :=
  | reachable_refl : reachable s s
  | reachable_step (t u : Harness) : reachable s t -> step t u -> reachable s u.

(** The state that [WaterFFTThread::Execute] leaves: [m_Running] set, the
    barrier as [Barrier(2)] builds it, the new thread at the head of
    [RunWater]. *)
Definition Execute (water : WaterFFT) : Harness :=
  MkHarness true false 2 2 None water (m_ReadBuffer water) 0
    RunTest MainIdle.

(** Which thread takes the next step. *)
Inductive Move : Type := MoveWater | MoveMain (call : Call).

Definition move (m : Move) (s : Harness) : option Harness :=
  match m with
  | MoveWater => run_step s
  | MoveMain call => main_step call s
  end.

Fixpoint play (schedule : list Move) (s : Harness) : option Harness :=
  match schedule with
  | [] => Some s
  | m :: schedule =>
      match move m s with
      | Some s' => play schedule s'
      | None => None
      end
  end.

(** The water thread has passed the test of [m_KnockedDown] when the
    main thread runs the whole of [Terminate] up to the join; the water
    thread then locks, decrements and waits. *)
Definition lost_wakeup : list Move :=
  [ MoveWater; MoveWater; MoveWater; MoveWater;
    MoveMain CallTerminate; MoveMain CallTerminate; MoveMain CallTerminate;
    MoveMain CallTerminate; MoveMain CallTerminate;
    MoveWater; MoveWater; MoveWater; MoveWater ].

Definition hung (water : WaterFFT) : Harness :=
  MkHarness false true 1 2 None
    (Update fftwf_execute (fetch_time 0%nat) water) (m_ReadBuffer water) 1
    (RunBarrier Blocked) TermJoin.

(** [Terminate] returns only after the water thread has left
    [RunWater]. *)
Definition joined (s : Harness) : Prop :=
  main_pc s = TermReturned -> run_pc s = RunExit.

End Harness.

(** ** A wait that returns without a notify

    [std::condition_variable::wait] may return although no thread has
    called [notify_all], and [WaitForAllThreads] waits without a
    predicate.  The steps above do not include such a return; the
    relation below adds it. *)

(** [self], blocked in [m_CV.wait], is woken without a notify. *)
Definition spurious_wake (self : Thread) (s : Harness) : option Harness :=
  match self with
  | WaterThread =>
      match run_pc s with
      | RunBarrier Blocked => Some (set_run_pc (RunBarrier Woken) s)
      | _ => None
      end
  | MainThread =>
      match main_pc s with
      | MainWait Blocked => Some (set_main_pc (MainWait Woken) s)
      | TermWait Blocked => Some (set_main_pc (TermWait Woken) s)
      | _ => None
      end
  end.

Section SpuriousWake.

Variable fftwf_execute : nat -> nat -> list Complex -> list Complex.
Variable fetch_time : nat -> R.

Inductive step_spurious (s s' : Harness) : Prop :=
  | step_notified : step fftwf_execute fetch_time s s' -> step_spurious s s'
  | step_woken (self : Thread) : spurious_wake self s = Some s' -> step_spurious s s'.

Inductive reachable_spurious (s : Harness) : Harness -> Prop :=
  | reachable_spurious_refl : reachable_spurious s s
  | reachable_spurious_step (t u : Harness) :
      reachable_spurious s t -> step_spurious t u -> reachable_spurious s u.

(** One frame up to the swap: the main thread calls [Wait()] and blocks;
    the water thread updates, arrives last and stands before the
    callback. *)
Definition frame_to_swap : list Move :=
  [ MoveMain CallWait; MoveMain CallWait; MoveMain CallWait; MoveMain CallWait;
    MoveMain CallWait; MoveMain CallWait; MoveMain CallWait;
    MoveWater; MoveWater; MoveWater; MoveWater; MoveWater; MoveWater; MoveWater ].

Definition swap_point (water : WaterFFT) : Harness :=
  MkHarness true false 0 2 (Some WaterThread)
    (Update fftwf_execute (fetch_time 0%nat) water) (m_ReadBuffer water) 1
    (RunBarrier Callback) (MainWait Blocked).

(** The main thread calls [Wait()] and blocks in the wait. *)
Definition main_blocks : list Move :=
  [ MoveMain CallWait; MoveMain CallWait; MoveMain CallWait; MoveMain CallWait;
    MoveMain CallWait; MoveMain CallWait; MoveMain CallWait ].

(** Woken, the main thread returns from [Wait()]; the water thread
    enters its loop; the main thread calls [Wait()] again, is the last
    to arrive and stands before the callback. *)
Definition main_waits_again : list Move :=
  [ MoveMain CallWait; MoveMain CallWait;
    MoveWater;
    MoveMain CallWait; MoveMain CallWait; MoveMain CallWait; MoveMain CallWait;
    MoveMain CallWait; MoveMain CallWait ].

(** The state reached then: the main thread before the callback, the
    water thread before its [Update]. *)
Definition early_swap (water : WaterFFT) : Harness :=
  MkHarness true false 0 2 (Some MainThread) water (m_ReadBuffer water) 0
    RunUpdate (MainWait Callback).

End SpuriousWake.

(** * The rest of WaterFFT.cpp, and Random.h

    The functions that the constructor and the renderer use besides the
    ones above: the clamp, the samples that [GetIntensity] reads, the
    normal query, the sizes handed to the renderer, the index and the
    offset buffer, and the random draws. *)

(** ** Math helpers *)

(** [glm::min(max, glm::max(min, value))] on [int]. *)
Definition Clamp (min max value : Z) : Z := Z.min max (Z.max min value).

(** ** The samples of GetIntensity *)

(** The four indices [ai], [bi], [ci], [di] at which [GetIntensity]
    reads [m_Data]. *)
Definition GetIntensity_indices (im : IntensityMap) (x z : R) : list Z :=
  let xi_f := x * IZR (m_Width im) in
  let yi_f := z * IZR (m_Height im) in
  let xi0 := float_to_unsigned xi_f in
  let xi1 := Z.min (wrap32 (xi0 + 1)) (m_MaxX im) in
  let yi0 := float_to_unsigned yi_f in
  let yi1 := Z.min (wrap32 (yi0 + 1)) (m_MaxY im) in
  let ai := wrap32 (yi0 * m_Width im + xi0) in
  let bi := wrap32 (yi0 * m_Width im + xi1) in
  let ci := wrap32 (yi1 * m_Width im + xi0) in
  let di := wrap32 (yi1 * m_Width im + xi1) in
  [ai; bi; ci; di].

(** ** glm::vec3 *)

Record vec3 : Type := MkVec3 { v3x : R; v3y : R; v3z : R }.

Definition vec3_add (a b : vec3) : vec3 :=
  MkVec3 (v3x a + v3x b) (v3y a + v3y b) (v3z a + v3z b).
Definition vec3_sub (a b : vec3) : vec3 :=
  MkVec3 (v3x a - v3x b) (v3y a - v3y b) (v3z a - v3z b).
Definition vec3_scale (a : vec3) (s : R) : vec3 :=
  MkVec3 (v3x a * s) (v3y a * s) (v3z a * s).
Definition vec3_dot (a b : vec3) : R :=
  v3x a * v3x b + v3y a * v3y b + v3z a * v3z b.

(** [glm::normalize(v)] is [v * inversesqrt(dot(v, v))]. *)
Definition glm_normalize (v : vec3) : vec3 :=
  vec3_scale v (1 / sqrt (vec3_dot v v)).

(** ** The normal query *)

Definition GetLocationNormalFFT (w : WaterFFT) (mp : MeshPosition) : vec3 :=
  let a := ReadBuffer w !!! m_VertexIndex mp in
  let b := ReadBuffer w !!! (m_VertexIndex mp + 1)%nat in
  let c := ReadBuffer w !!! (m_VertexIndex mp + m_XStride w)%nat in
  let d := ReadBuffer w !!! (m_VertexIndex mp + m_XStride w + 1)%nat in
  let na := MkVec3 (m_Nx a) (m_Ny a) (m_Nz a) in
  let nb := MkVec3 (m_Nx b) (m_Ny b) (m_Nz b) in
  let nc := MkVec3 (m_Nx c) (m_Ny c) (m_Nz c) in
  let nd := MkVec3 (m_Nx d) (m_Ny d) (m_Nz d) in
  let nab := vec3_add na (vec3_scale (vec3_sub nb na) (m_Xt mp)) in
  let ncd := vec3_add nc (vec3_scale (vec3_sub nd nc) (m_Xt mp)) in
  let nabcd := vec3_add nab (vec3_scale (vec3_sub ncd nab) (m_Zt mp)) in
  let nabcd := glm_normalize nabcd in
  nabcd.

Definition GetLocationHeightNormalFFT (fuel : nat) (w : WaterFFT)
    (location : vec2) : option (R * vec3) :=
  match LocationToMeshPosition fuel w location with
  | Some mp =>
      let height := GetLocationHeightFFT w mp in
      let normal := GetLocationNormalFFT w mp in
      Some (height, normal)
  | None => None
  end.

(** [time] is a parameter of the function and is not read. *)
Definition HeightNormalAtLocation (fuel : nat) (w : WaterFFT)
    (location : vec2) (time : R) : option (R * vec3) :=
  let result := GetLocationHeightNormalFFT fuel w location in
  result.

(** ** The index buffer *)

(** The loop of [InitializeIndexBuffer] from [i] on: two triangles for
    the quad at [i], then [++i], and once more at the end of a row.  The
    stride of a constructed object is at least 1, so that [%] has a
    divisor. *)
Equations index_loop (m_XStride limit i : nat) (m_IndexBuffer : list nat)
    : list nat by wf (limit - i)%nat lt :=
  index_loop m_XStride limit i m_IndexBuffer with lt_dec i limit := {
    | left _ =>
        index_loop m_XStride limit
          (if ((S i + 1) mod m_XStride =? 0)%nat then S (S i) else S i)
          (m_IndexBuffer
             ++ [i; (i + 1)%nat; (i + m_XStride)%nat]
             ++ [S i; (S i + m_XStride)%nat; (S i + m_XStride - 1)%nat])
    | right _ => m_IndexBuffer }.
Next Obligation.
  destruct (_ =? _)%nat; lia.
Qed.

Definition InitializeIndexBuffer (w : WaterFFT) : list nat :=
  let limit := (m_NumVerts w - m_XStride w)%nat in
  index_loop (m_XStride w) limit 0 [].

(** [INDICIES_PER_QUAD * (m_NumVerts - m_XStride)], the size that the
    function reserves. *)
Definition index_buffer_size (w : WaterFFT) : nat :=
  (6 * (m_NumVerts w - m_XStride w))%nat.

(** ** The offset buffer *)

Module Offset.
Record t : Type := Mk { m_Ox : R; m_Oy : R; m_Oz : R; m_Ow : R }.
End Offset.

(** An [unsigned] value read as an [int]. *)
Definition to_int (z : Z) : Z :=
  let u := wrap32 z in
  if (u <? 2 ^ 31)%Z then u else (u - 2 ^ 32)%Z.

(** [i % expansion] and [i / expansion] are taken on [unsigned] values,
    [i] being converted; the loop runs for non-negative [i] only. *)
Definition offset_step (w : WaterFFT) (expansion : Z) (i : nat)
    (m_OffsetBuffer : list Offset.t) : list Offset.t :=
  let x := to_int (Z.of_nat i mod expansion) in
  let z := to_int (Z.of_nat i / expansion) in
  let x_offset := IZR x * m_XLength w in
  let z_offset := IZR z * m_ZLength w in
  m_OffsetBuffer ++ [Offset.Mk x_offset 0 z_offset 1].

Definition InitializeOffsetBuffer (w : WaterFFT) (expansion : Z)
    (m_OffsetBuffer : list Offset.t) : list Offset.t :=
  let num_instances := to_int (expansion * expansion) in
  for_range (Z.to_nat num_instances) (offset_step w expansion) m_OffsetBuffer.

(** ** The sizes handed to the renderer *)


Definition IndexBufferSizeBytes (m_IndexBuffer : list nat) : Z :=
  wrap32 (Z.of_nat (length m_IndexBuffer) * 4).

Definition IndexBufferSize (m_IndexBuffer : list nat) : Z :=
  wrap32 (Z.of_nat (length m_IndexBuffer)).

Definition OffsetBufferSizeBytes (m_OffsetBuffer : list Offset.t) : Z :=
  wrap32 (Z.of_nat (length m_OffsetBuffer) * 16).

Definition OffsetBufferSize (m_OffsetBuffer : list Offset.t) : Z :=
  wrap32 (Z.of_nat (length m_OffsetBuffer)).

(** ** Random.h *)

Section Random.

(** [rand()] gives the values of [rand] one after the other; the state
    of the generator is the number of calls made so far. *)
Variable rand : nat -> Z.
Variable RAND_MAX : Z.

Definition UniformRandom (calls : nat) : R * nat :=
  let rand_value := IZR (rand calls) / IZR RAND_MAX in
  (rand_value, S calls).

(** The [do ... while (w >= 1.0f)] loop, run for at most [fuel] rounds:
    the accepted [x1], [x2], [w] and the number of calls made. *)
Fixpoint polar_loop (fuel : nat) (calls : nat) : option (R * R * R * nat) :=
  match fuel with
  | O => None
  | S fuel =>
      let '(u1, calls) := UniformRandom calls in
      let x1 := 2 * u1 - 1 in
      let '(u2, calls) := UniformRandom calls in
      let x2 := 2 * u2 - 1 in
      let w := x1 * x1 + x2 * x2 in
      if Rge_dec w 1 then polar_loop fuel calls
      else Some (x1, x2, w, calls)
  end.

Definition NormalComplexRandom (fuel : nat) (calls : nat)
    : option (Complex * nat) :=
  match polar_loop fuel calls with
  | Some (x1, x2, w, calls) =>
      let w := sqrt (-2 * ln w / w) in
      let rand1 := x1 * w in
      let rand2 := x2 * w in
      Some (MkComplex rand1 rand2, calls)
  | None => None
  end.

End Random.

(** * Time.cpp: the clock that the water thread reads

    [WaterFFTThread::Execute] is given [Time::TotalTimeScaled] as its
    [m_FetchTime].  [SDL_GetTicks] comes from outside the repository: a
    call of [Time::Update] takes the value it reads. *)

Module Stopwatch.

Record t : Type := Mk {
  m_Paused : bool;
  m_TimeScale : R;
  m_DeltaTime : R;
  m_TotalTime : R }.

(** [Stopwatch(bool start)] *)
Definition new (start : bool) : t := Mk (negb start) 1 0 0.

(** [m_DeltaTime] in the body is the member of the stopwatch, not the
    static member of [Time] of the same name. *)
Definition Update (s : t) : t :=
  if negb (m_Paused s) then
    let delta := m_DeltaTime s * m_TimeScale s in
    Mk (m_Paused s) (m_TimeScale s) delta (m_TotalTime s + delta)
  else s.

Definition DeltaTime (s : t) : R := m_DeltaTime s.
Definition TotalTime (s : t) : R := m_TotalTime s.

End Stopwatch.

Module Time.

Record t : Type := Mk {
  m_TimeScale : R;
  m_DeltaTime : R;
  m_DeltaTimeScaled : R;
  m_TotalTime : R;
  m_TotalTimeScaled : R;
  m_DeltaTicks : Z;
  m_Ticks : Z;
  m_TicksPrev : Z;
  m_Stopwatches : list Stopwatch.t }.

(** The static initializations. *)
Definition initial : t := Mk 1 0 0 0 0 0 0 0 [].

(** [Time::Update], [SDL_GetTicks] being the unsigned value read.  The
    difference of the two readings leaves the range of [int] only after
    a reading of 2^31 or more; it is wrapped there. *)
Definition Update (SDL_GetTicks : Z) (s : t) : t :=
  let m_Ticks := to_int SDL_GetTicks in
  let m_DeltaTicks := to_int (m_Ticks - m_TicksPrev s) in
  let m_DeltaTime := IZR m_DeltaTicks / IZR 1000 in
  let m_DeltaTimeScaled := m_DeltaTime * m_TimeScale s in
  let m_TotalTime := m_TotalTime s + m_DeltaTime in
  let m_TotalTimeScaled := m_TotalTimeScaled s + m_DeltaTimeScaled in
  let m_TicksPrev := m_Ticks in
  Mk (m_TimeScale s) m_DeltaTime m_DeltaTimeScaled m_TotalTime m_TotalTimeScaled
    m_DeltaTicks m_Ticks m_TicksPrev (map Stopwatch.Update (m_Stopwatches s)).

Definition DT (s : t) : R := m_DeltaTime s.
Definition DTScaled (s : t) : R := m_DeltaTimeScaled s.
Definition TotalTime (s : t) : R := m_TotalTime s.
Definition TotalTimeScaled (s : t) : R := m_TotalTimeScaled s.

Definition TotalTimeExact (SDL_GetTicks : Z) : R :=
  let total_ticks := to_int SDL_GetTicks in
  let total_time := IZR total_ticks / 1000 in
  total_time.

(** What the program does with the clock between two frames: it
    updates it, sets the public [m_TimeScale], makes a stopwatch, or
    sets the public members of one. *)
Inductive Action : Type :=
  | DoUpdate (SDL_GetTicks : Z)
  | SetTimeScale (scale : R)
  | NewStopwatch (start : bool)
  | SetStopwatch (i : nat) (paused : bool) (scale : R).

Definition act (a : Action) (s : t) : t :=
  match a with
  | DoUpdate ticks => Update ticks s
  | SetTimeScale scale =>
      Mk scale (m_DeltaTime s) (m_DeltaTimeScaled s) (m_TotalTime s)
        (m_TotalTimeScaled s) (m_DeltaTicks s) (m_Ticks s) (m_TicksPrev s)
        (m_Stopwatches s)
  | NewStopwatch start =>
      Mk (m_TimeScale s) (m_DeltaTime s) (m_DeltaTimeScaled s) (m_TotalTime s)
        (m_TotalTimeScaled s) (m_DeltaTicks s) (m_Ticks s) (m_TicksPrev s)
        (m_Stopwatches s ++ [Stopwatch.new start])
  | SetStopwatch i paused scale =>
      Mk (m_TimeScale s) (m_DeltaTime s) (m_DeltaTimeScaled s) (m_TotalTime s)
        (m_TotalTimeScaled s) (m_DeltaTicks s) (m_Ticks s) (m_TicksPrev s)
        (alter (fun w => Stopwatch.Mk paused scale (Stopwatch.m_DeltaTime w)
                           (Stopwatch.m_TotalTime w)) i (m_Stopwatches s))
  end.

Definition run (actions : list Action) (s : t) : t :=
  fold_left (fun s a => act a s) actions s.

End Time.

(** * Vocabulary of the properties *)

(** ** Loop invariants and written values *)

Definition power_of_two (n : Z) : Prop := exists k : nat, n = (2 ^ Z.of_nat k)%Z.

(** The sign after [k] multiplications by -1. *)
Definition flips (k : nat) : Z := if Nat.even k then 1%Z else (-1)%Z.

(** One array: the cells before (z, x) carry their sign, the rest is as
    the transform left it. *)
Definition signed_upto (n z x : nat) (raw a : list Complex) : Prop :=
  length a = length raw /\
  (forall z' x', (x' < n)%nat -> (z' < z \/ z' = z /\ x' < x)%nat ->
     a !!! (z' * n + x')%nat =
       Complex_scale (raw !!! (z' * n + x')%nat) (IZR (flips (z' * S n + x')))) /\
  (forall i, (z * n + x <= i)%nat -> a !!! i = raw !!! i).

(** A relation, or a length, for each of the five arrays. *)
Definition fields_all (P : list Complex -> list Complex -> Prop)
    (raw o : Fields) : Prop :=
  P (f_HTilde raw) (f_HTilde o) /\
  P (f_HTildeSlopeX raw) (f_HTildeSlopeX o) /\
  P (f_HTildeSlopeZ raw) (f_HTildeSlopeZ o) /\
  P (f_HTildeDisplaceX raw) (f_HTildeDisplaceX o) /\
  P (f_HTildeDisplaceZ raw) (f_HTildeDisplaceZ o).

Definition fields_length (len : nat) (o : Fields) : Prop :=
  length (f_HTilde o) = len /\
  length (f_HTildeSlopeX o) = len /\
  length (f_HTildeSlopeZ o) = len /\
  length (f_HTildeDisplaceX o) = len /\
  length (f_HTildeDisplaceZ o) = len.

(** The vertex that the loop writes for cell (x, z), from the raw
    transform outputs and the vertex that was in the buffer. *)
Definition signed_vertex (w : WaterFFT) (raw : Fields) (wb : list Vertex)
    (x z : nat) : Vertex :=
  let i := (z * m_fft_XStride w + x)%nat in
  let s := IZR (flips (z * S (m_fft_XStride w) + x)) in
  cell_vertex w x z (m_VertexExtrasBuffer w !!! i)
    (Complex_scale (f_HTilde raw !!! i) s)
    (Complex_scale (f_HTildeSlopeX raw !!! i) s)
    (Complex_scale (f_HTildeSlopeZ raw !!! i) s)
    (Complex_scale (f_HTildeDisplaceX raw !!! i) s)
    (Complex_scale (f_HTildeDisplaceZ raw !!! i) s)
    (wb !!! (z * S (m_fft_XStride w) + x)%nat).

(** The write buffer: the cells before (z, x) hold their vertex, the
    rest, and the last vertex of every finished row, is untouched. *)
Definition written_upto (w : WaterFFT) (raw : Fields) (wb0 : list Vertex)
    (z x : nat) (wb : list Vertex) : Prop :=
  let n := m_fft_XStride w in
  length wb = length wb0 /\
  (forall z' x', (x' < n)%nat -> (z' < z \/ z' = z /\ x' < x)%nat ->
     wb !!! (z' * S n + x')%nat = signed_vertex w raw wb0 x' z') /\
  (forall v, (z * S n + x <= v)%nat -> wb !!! v = wb0 !!! v) /\
  (forall z', (z' < z)%nat -> wb !!! (z' * S n + n)%nat = wb0 !!! (z' * S n + n)%nat).

(** The invariant of the double loop at cell (x, z). *)
Definition synth_inv (w : WaterFFT) (raw : Fields) (wb0 : list Vertex)
    (z x : nat) (s : Synth) : Prop :=
  let n := m_fft_XStride w in
  vertex_index s = (z * S n + x)%nat /\
  fft_vertex_index s = (z * n + x)%nat /\
  sign s = flips (z * S n + x) /\
  fields_all (signed_upto n z x) raw (outs s) /\
  written_upto w raw wb0 z x (write s).

(** What [UpdateTailEdge] assigns to an edge vertex: position and normal
    of the vertex it is attached to, the position moved by the offsets. *)
Definition attached (x_offset z_offset : R) (og_vert update_vert : Vertex)
    : Vertex :=
  MkVertex (m_Px og_vert + x_offset) (m_Py og_vert) (m_Pz og_vert + z_offset)
    (m_Pw update_vert) (m_Nx og_vert) (m_Ny og_vert) (m_Nz og_vert)
    (m_Nw update_vert).

(** The invariant of the loop of [UpdateTailEdge] after [i] rounds. *)
Definition tail_inv (up0 og0 d : nat) (x_offset z_offset : R)
    (wb0 : list Vertex) (i : nat) (s : nat * nat * list Vertex) : Prop :=
  fst (fst s) = (up0 + i * d)%nat /\
  snd (fst s) = (og0 + i * d)%nat /\
  length (snd s) = length wb0 /\
  (forall j, (j < i)%nat ->
     snd s !!! (up0 + j * d)%nat =
       attached x_offset z_offset (wb0 !!! (og0 + j * d)%nat)
         (wb0 !!! (up0 + j * d)%nat)) /\
  (forall v, (forall j, (j < i)%nat -> v <> (up0 + j * d)%nat) ->
     snd s !!! v = wb0 !!! v).

(** The vertex that [UpdateFFT] leaves at the tail corner: the position
    comes from vertex 0, everything else is what the corner held. *)
Definition corner_vertex (w : WaterFFT) (og_vert update_vert : Vertex) : Vertex :=
  MkVertex (m_Px og_vert + m_XLength w) (m_Py og_vert)
    (m_Pz og_vert + m_ZLength w) (m_Pw update_vert)
    (m_Nx update_vert) (m_Ny update_vert) (m_Nz update_vert) (m_Nw update_vert).


(** The sizes of the three vectors when [InitializeVertexBuffer] reaches
    cell (x, z). *)
Definition init_inv (n z x : nat) (s : Init) : Prop :=
  length (init_A s) = (z * S n + x)%nat /\
  length (init_B s) = (z * S n + x)%nat /\
  length (init_extras s) =
    (Nat.min z n * n + (if Nat.ltb z n then Nat.min x n else 0))%nat.

(** The two steps together: a value of [0, m) that differs from the
    argument by a whole number of [m]. *)
Definition wrap (fuel : nat) (x m : R) : option R :=
  wrap_up fuel (wrap_down x m) m.

(** The locations for which the two conversions
    [(unsigned)(index_float / max_index)] of [LocationToMeshPosition] are
    defined in C++: on each axis the index is below 2^32 grids, so that
    the quotient fits an [unsigned]. *)
Definition conversions_defined (w : WaterFFT) (location : vec2) : Prop :=
  vx location + INR (m_XStride w) / 2 < 2 ^ 32 * INR (m_XStride w - 1) /\
  vy location + INR (m_ZStride w) / 2 < 2 ^ 32 * INR (m_ZStride w - 1).

(** The wavevector of grid cell (x, z). *)
Definition wavevector (w : WaterFFT) (x z : nat) : vec2 :=
  MkVec2 (TAU * (INR x - INR (m_fft_XStride w) / 2) / m_XLength w)
         (TAU * (INR z - INR (m_fft_ZStride w) / 2) / m_ZLength w).

(** The evolved height coefficient of grid cell (x, z). *)
Definition cell_htilde (w : WaterFFT) (time : R) (x z : nat) : Complex :=
  let extra := m_VertexExtrasBuffer w !!! (z * m_fft_XStride w + x)%nat in
  HTilde (m_Gravity w) (m_HTilde0 extra) (m_HTilde0Conjugate extra)
    (wavevector w x z) time.

(** The invariant of the first double loop of [UpdateFFT]. *)
Definition filled_upto (w : WaterFFT) (time : R) (z x : nat)
    (s : nat * Fields) : Prop :=
  let n := m_fft_XStride w in
  fst s = (z * n + x)%nat /\
  fields_length (n * n) (snd s) /\
  forall z' x', (x' < n)%nat -> (z' < z \/ z' = z /\ x' < x)%nat ->
    f_HTilde (snd s) !!! (z' * n + x')%nat = cell_htilde w time x' z' /\
    f_HTildeSlopeX (snd s) !!! (z' * n + x')%nat =
      Complex_mul (cell_htilde w time x' z') (MkComplex 0 (vx (wavevector w x' z'))) /\
    f_HTildeSlopeZ (snd s) !!! (z' * n + x')%nat =
      Complex_mul (cell_htilde w time x' z') (MkComplex 0 (vy (wavevector w x' z'))).

(** ** Decoded images *)

(** What [stbi_load] gives for a file it can decode: one byte for each
    of [width * height] pixels. *)
Definition image (data : list Z) (width height : Z) : Prop :=
  (1 <= width)%Z /\ (1 <= height)%Z /\ (width * height < 2 ^ 32)%Z /\
  length data = Z.to_nat (width * height) /\
  Forall (fun b => (0 <= b <= 255)%Z) data.

(** ** The displacement inputs *)



(** ** The mesh at rest *)




(** ** The quads of the index buffer *)

(** The six indices pushed for the quad whose first vertex is [i]: the
    triangles (i, i + 1, i + stride) and (i + 1, i + 1 + stride,
    i + stride). *)
Definition quad (m_XStride i : nat) : list nat :=
  [i; (i + 1)%nat; (i + m_XStride)%nat;
   S i; (S i + m_XStride)%nat; (S i + m_XStride - 1)%nat].

(** ** The rounds of the polar method *)

(** The pair that a round of [NormalComplexRandom] makes of the calls
    [calls] and [calls + 1] of [rand], and the [w] it tests. *)
Definition polar_x (rand : nat -> Z) (RAND_MAX : Z) (calls : nat) : R :=
  2 * (IZR (rand calls) / IZR RAND_MAX) - 1.

Definition polar_w (rand : nat -> Z) (RAND_MAX : Z) (calls : nat) : R :=
  polar_x rand RAND_MAX calls * polar_x rand RAND_MAX calls
  + polar_x rand RAND_MAX (S calls) * polar_x rand RAND_MAX (S calls).

(** ** Frames *)



(** ** The clock *)

(** The clock has followed the ticks with the time scale [scale]. *)
Definition follows (scale : R) (s : Time.t) : Prop :=
  (0 <= Time.m_TicksPrev s < 2 ^ 31)%Z /\
  Time.m_TimeScale s = scale /\
  Time.m_TotalTime s = IZR (Time.m_TicksPrev s) / 1000 /\
  Time.m_TotalTimeScaled s = IZR (Time.m_TicksPrev s) / 1000 * scale.

Definition stopped (w : Stopwatch.t) : Prop :=
  Stopwatch.DeltaTime w = 0 /\ Stopwatch.TotalTime w = 0.

(** ** The control of the harness

    The members and the places of the two threads, without the water
    object: what decides which steps the threads can take. *)

Record Control : Type := MkControl {
  c_Running : bool;
  c_KnockedDown : bool;
  c_ThreadsLeft : Z;
  c_TotalThreads : Z;
  c_Mutex : option Thread;
  c_run_pc : RunPc;
  c_main_pc : MainPc }.

Definition control (s : Harness) : Control :=
  MkControl (m_Running s) (m_KnockedDown s) (m_ThreadsLeft s) (m_TotalThreads s)
    (m_Mutex s) (run_pc s) (main_pc s).

#[global] Instance Thread_eq_dec : EqDecision Thread.
Proof. solve_decision. Defined.
#[global] Instance BarrierPc_eq_dec : EqDecision BarrierPc.
Proof. solve_decision. Defined.
#[global] Instance RunPc_eq_dec : EqDecision RunPc.
Proof. solve_decision. Defined.
#[global] Instance MainPc_eq_dec : EqDecision MainPc.
Proof. solve_decision. Defined.
#[global] Instance Control_eq_dec : EqDecision Control.
Proof. solve_decision. Defined.

Definition control_notify_all (c : Control) : Control :=
  let run := match c_run_pc c with
             | RunBarrier b => RunBarrier (wake b)
             | pc => pc
             end in
  let main := match c_main_pc c with
              | MainWait b => MainWait (wake b)
              | TermWait b => TermWait (wake b)
              | pc => pc
              end in
  MkControl (c_Running c) (c_KnockedDown c) (c_ThreadsLeft c) (c_TotalThreads c)
    (c_Mutex c) run main.

Definition control_set_Mutex (v : option Thread) (c : Control) : Control :=
  MkControl (c_Running c) (c_KnockedDown c) (c_ThreadsLeft c) (c_TotalThreads c)
    v (c_run_pc c) (c_main_pc c).

Definition control_set_ThreadsLeft (v : Z) (c : Control) : Control :=
  MkControl (c_Running c) (c_KnockedDown c) v (c_TotalThreads c)
    (c_Mutex c) (c_run_pc c) (c_main_pc c).

Definition control_set_run_pc (v : RunPc) (c : Control) : Control :=
  MkControl (c_Running c) (c_KnockedDown c) (c_ThreadsLeft c) (c_TotalThreads c)
    (c_Mutex c) v (c_main_pc c).

Definition control_set_main_pc (v : MainPc) (c : Control) : Control :=
  MkControl (c_Running c) (c_KnockedDown c) (c_ThreadsLeft c) (c_TotalThreads c)
    (c_Mutex c) (c_run_pc c) v.

(** [barrier_step] on the control: the callback changes the water
    object only. *)
Definition control_barrier_step (self : Thread) (b : BarrierPc) (c : Control)
    : option (Control * option BarrierPc) :=
  match b with
  | Enter true =>
      Some (MkControl (c_Running c) true (c_ThreadsLeft c) (c_TotalThreads c)
              (c_Mutex c) (c_run_pc c) (c_main_pc c), Some NotifyKnock)
  | Enter false => Some (c, Some Test)
  | NotifyKnock => Some (control_notify_all c, Some Test)
  | Test => if c_KnockedDown c then Some (c, None) else Some (c, Some Lock)
  | Lock =>
      match c_Mutex c with
      | None => Some (control_set_Mutex (Some self) c, Some Decrement)
      | Some _ => None
      end
  | Decrement => Some (control_set_ThreadsLeft (c_ThreadsLeft c - 1) c, Some Branch)
  | Branch =>
      if (c_ThreadsLeft c =? 0)%Z then Some (c, Some Callback)
      else Some (c, Some WaitCV)
  | Callback => Some (c, Some Reset)
  | Reset => Some (control_set_ThreadsLeft (c_TotalThreads c) c, Some NotifyAll)
  | NotifyAll => Some (control_notify_all c, Some Unlock)
  | WaitCV => Some (control_set_Mutex None c, Some Blocked)
  | Blocked => None
  | Woken =>
      match c_Mutex c with
      | None => Some (control_set_Mutex (Some self) c, Some Unlock)
      | Some _ => None
      end
  | Unlock => Some (control_set_Mutex None c, None)
  end.

Definition control_run_step (c : Control) : option Control :=
  match c_run_pc c with
  | RunTest =>
      Some (control_set_run_pc (if c_Running c then RunUpdate else RunExit) c)
  | RunUpdate => Some (control_set_run_pc (RunBarrier (Enter false)) c)
  | RunBarrier b =>
      match control_barrier_step WaterThread b c with
      | Some (c', Some b') => Some (control_set_run_pc (RunBarrier b') c')
      | Some (c', None) => Some (control_set_run_pc RunTest c')
      | None => None
      end
  | RunExit => None
  end.

Definition control_main_step (call : Call) (c : Control) : option Control :=
  match c_main_pc c with
  | MainIdle =>
      match call with
      | CallWait => Some (control_set_main_pc (MainWait (Enter false)) c)
      | CallTerminate => Some (control_set_main_pc TermClear c)
      end
  | MainWait b =>
      match control_barrier_step MainThread b c with
      | Some (c', Some b') => Some (control_set_main_pc (MainWait b') c')
      | Some (c', None) => Some (control_set_main_pc MainIdle c')
      | None => None
      end
  | TermClear =>
      Some (MkControl false (c_KnockedDown c) (c_ThreadsLeft c) (c_TotalThreads c)
              (c_Mutex c) (c_run_pc c) (TermWait (Enter true)))
  | TermWait b =>
      match control_barrier_step MainThread b c with
      | Some (c', Some b') => Some (control_set_main_pc (TermWait b') c')
      | Some (c', None) => Some (control_set_main_pc TermJoin c')
      | None => None
      end
  | TermJoin =>
      match c_run_pc c with
      | RunExit => Some (control_set_main_pc TermReturned c)
      | _ => None
      end
  | TermReturned => None
  end.

(** The controls that one step leads to. *)
Definition successors (c : Control) : list Control :=
  omap (fun step => step) [control_run_step c; control_main_step CallWait c;
           control_main_step CallTerminate c].

Definition member (c : Control) (l : list Control) : bool :=
  existsb (fun c' => bool_decide (c = c')) l.

(** The controls met by following the steps from [frontier], for at
    most [fuel] rounds. *)
Fixpoint explore (fuel : nat) (frontier seen : list Control) : list Control :=
  match fuel with
  | O => seen
  | S fuel =>
      let fresh :=
        fold_left (fun acc c => if member c (seen ++ acc) then acc else acc ++ [c])
          (flat_map successors frontier) [] in
      match fresh with
      | [] => seen
      | _ => explore fuel fresh (seen ++ fresh)
      end
  end.

Definition control_Execute : Control :=
  MkControl true false 2 2 None RunTest MainIdle.

Definition explored : list Control :=
  Eval vm_compute in explore 1000 [control_Execute] [control_Execute].

Definition closed (l : list Control) : bool :=
  forallb (fun c => forallb (fun c' => member c' l) (successors c)) l.

(** What holds of every control that can be met. *)
Definition swap_safe (c : Control) : bool :=
  (if bool_decide (c_run_pc c = RunBarrier Callback)
   then bool_decide (c_main_pc c = MainWait Blocked) else true) &&
  (if bool_decide (c_main_pc c = MainWait Callback)
   then bool_decide (c_run_pc c = RunBarrier Blocked) else true) &&
  negb (bool_decide (c_main_pc c = TermWait Callback)) &&
  negb (bool_decide (c_run_pc c = RunBarrier Blocked) &&
        bool_decide (c_main_pc c = MainWait Blocked)) &&
  bool_decide (0 <= c_ThreadsLeft c <= 2)%Z.

(** A control that has no step is one of the two ends. *)
Definition ends_well (c : Control) : bool :=
  match successors c with
  | [] =>
      bool_decide (c_main_pc c = TermReturned /\ c_run_pc c = RunExit) ||
      bool_decide (c_main_pc c = TermJoin /\ c_run_pc c = RunBarrier Blocked /\
                   c_KnockedDown c = true)
  | _ => true
  end.

(** ** Objects of the examples *)

(** An instance of [fftwf_execute] for the examples: the forward DFT of
    a plan whose two sizes are at most 2, where every twiddle factor is
    1 or -1.  Element (a, b) of the output is the sum over (c, d) of
    [(-1)^(a c + b d) * input (c, d)]. *)
Definition twiddle (a c : nat) : R := if Nat.even (a * c) then 1 else -1.

Definition dft_small (n0 n1 : nat) (input : list Complex) : list Complex :=
  flat_map (fun a =>
    map (fun b =>
      fold_right Complex_add (MkComplex 0 0)
        (flat_map (fun c =>
           map (fun d =>
             Complex_scale (input !!! (c * n1 + d)%nat) (twiddle a c * twiddle b d))
             (seq 0 n1))
           (seq 0 n0)))
      (seq 0 n1))
    (seq 0 n0).

(** The draws of the examples: the first call of [NormalComplexRandom]
    gives (1, 1), every later call (0, 0). *)
Definition one_seed (i : nat) : Complex :=
  match i with
  | O => MkComplex 1 1
  | S _ => MkComplex 0 0
  end.

(** The object that [new WaterFFT(2, meter_dimension, ...)] builds with
    those draws. *)
Definition tile (meter_dimension : R) : WaterFFT :=
  InitializeVertexBuffer one_seed
    (MkWaterFFT 1 1 3 3 9 2 2 4 [] [] BufferA BufferB []
       (MkFields (replicate 4 (MkComplex 0 0)) (replicate 4 (MkComplex 0 0))
          (replicate 4 (MkComplex 0 0)) (replicate 4 (MkComplex 0 0))
          (replicate 4 (MkComplex 0 0)))
       (MkFields (replicate 4 (MkComplex 0 0)) (replicate 4 (MkComplex 0 0))
          (replicate 4 (MkComplex 0 0)) (replicate 4 (MkComplex 0 0))
          (replicate 4 (MkComplex 0 0)))
       None meter_dimension meter_dimension 0.00005 9.81 (MkVec2 64 64)).

(** The modulus of the one seed that is not zero. *)
Definition sigma : R :=
  sqrt (PhillipsSpectrum 0.00005 9.81 (MkVec2 64 64) (wavevector (tile 3) 0 0) / 2).

(** The object after [Update(0)] and the buffer swap. *)
Definition ripple : WaterFFT := SwapBuffers (Update dft_small 0 (tile 3)).

(** The 2 by 2 grid of side 2 after [Update(0)] and the swap. *)
Definition ripple2 : WaterFFT := SwapBuffers (Update dft_small 0 (tile 2)).

(** Draws for the examples, with [RAND_MAX = 4]: 4 and 4 (the corner
    (1, 1), outside the disc), then 3 and 2 (the point (1/2, 0)). *)
Definition two_rounds (i : nat) : Z :=
  match i with
  | 0%nat | 1%nat => 4%Z
  | 2%nat => 3%Z
  | _ => 2%Z
  end.

(** * Properties *)

(** ** Loops *)

Lemma for_range_S {S : Type} (n : nat) (body : nat -> S -> S) (s : S) :
  for_range (Datatypes.S n) body s = body n (for_range n body s).
Proof.
  unfold for_range. rewrite seq_S, fold_left_app. reflexivity.
Qed.

Lemma for_range_ind {S : Type} (P : nat -> S -> Prop) (n : nat)
    (body : nat -> S -> S) (s : S) :
  P 0%nat s ->
  (forall i t, (i < n)%nat -> P i t -> P (Datatypes.S i) (body i t)) ->
  P n (for_range n body s).
Proof.
  intros H0 Hstep.
  assert (H : forall m, (m <= n)%nat -> P m (for_range m body s)).
  { induction m as [|m IH]; intros Hm.
    - exact H0.
    - rewrite for_range_S. apply Hstep; [lia | apply IH; lia]. }
  apply H; lia.
Qed.

(** ** Time evolution *)

Lemma HTilde_time_zero (g : R) (s sc : Complex) (k : vec2) :
  HTilde g s sc k 0 = Complex_sub s sc.
Proof.
  unfold HTilde, Complex_mul, Complex_add, Complex_sub; cbn.
  rewrite Rmult_0_r, cos_0, sin_0. f_equal; ring.
Qed.

(** C1, at the input [s = sConj = 1], [k = (1, 0)], [t = 0]: the code's
    second factor is [(-cos wt, -sin wt)], so the time-zero value is the
    difference of the two seeds, here 0, and not their sum, here 2. *)
Theorem HTilde_time_zero_is_difference :
  HTilde 9.81 (MkComplex 1 0) (MkComplex 1 0) (MkVec2 1 0) 0 = MkComplex 0 0 /\
  Complex_add (MkComplex 1 0) (MkComplex 1 0) = MkComplex 2 0 /\
  forall g s sc k, HTilde g s sc k 0 = Complex_sub s sc.
Proof.
  split; [|split].
  - rewrite HTilde_time_zero. unfold Complex_sub; cbn. f_equal; ring.
  - unfold Complex_add; cbn. f_equal; ring.
  - intros. apply HTilde_time_zero.
Qed.

(** ** Spectral seed *)

Lemma glm_length_zero : glm_length (MkVec2 0 0) = 0.
Proof.
  unfold glm_length; cbn. rewrite Rmult_0_l, Rplus_0_l. apply sqrt_0.
Qed.

Lemma EPSILON_pos : 0 < EPSILON.
Proof. unfold EPSILON. lra. Qed.

(** C8: below the epsilon threshold the spectral density is 0, and so is
    the seed, for every wind, amplitude, gravity and random draw. *)
Theorem seed_zero_below_epsilon (amplitude gravity : R) (wind : vec2)
    (multiplier : Complex) (k : vec2) :
  glm_length k < EPSILON ->
  PhillipsSpectrum amplitude gravity wind k = 0 /\
  HTilde0 amplitude gravity wind multiplier k = MkComplex 0 0.
Proof.
  intros Hk.
  assert (HP : PhillipsSpectrum amplitude gravity wind k = 0).
  { unfold PhillipsSpectrum. destruct (Rlt_dec (glm_length k) EPSILON); [reflexivity | contradiction]. }
  split; [exact HP|].
  unfold HTilde0, Complex_scale; cbn. rewrite HP.
  replace (0 / 2) with 0 by lra. rewrite sqrt_0.
  f_equal; ring.
Qed.

Lemma seed_zero_at_zero_wavevector :
  PhillipsSpectrum 0.00005 9.81 (MkVec2 64 64) (MkVec2 0 0) = 0 /\
  HTilde0 0.00005 9.81 (MkVec2 64 64) (MkComplex 0.5 (-1.25)) (MkVec2 0 0)
    = MkComplex 0 0.
Proof.
  apply (seed_zero_below_epsilon 0.00005 9.81 (MkVec2 64 64)
           (MkComplex 0.5 (-1.25)) (MkVec2 0 0)).
  rewrite glm_length_zero. apply EPSILON_pos.
Defined.

(** ** The checks of the constructor *)

Lemma gd_check_loop_small (n : Z) : (n <= 2)%Z -> gd_check_loop n = None.
Proof.
  intros Hn. rewrite gd_check_loop_equation_1.
  destruct (Z_gt_dec n 2); [lia | reflexivity].
Qed.

Lemma gd_check_loop_odd (n : Z) :
  (2 < n)%Z -> (n mod 2 <> 0)%Z -> gd_check_loop n = Some INVALID_GRID_DIM.
Proof.
  intros Hn Hodd. rewrite gd_check_loop_equation_1.
  destruct (Z_gt_dec n 2); [|lia]. cbn.
  destruct (Z.eqb_spec (n mod 2)%Z 0%Z); [contradiction | reflexivity].
Qed.

Lemma gd_check_loop_even (n : Z) :
  (2 < n)%Z -> (n mod 2 = 0)%Z -> gd_check_loop n = gd_check_loop (n / 2).
Proof.
  intros Hn Heven. rewrite gd_check_loop_equation_1.
  destruct (Z_gt_dec n 2); [|lia]. cbn.
  destruct (Z.eqb_spec (n mod 2)%Z 0%Z); [reflexivity | contradiction].
Qed.

Lemma power_of_two_double (n : Z) :
  (1 <= n)%Z -> power_of_two (2 * n) <-> power_of_two n.
Proof.
  intros Hn. split; intros [k Hk].
  - destruct k as [|k].
    + cbn in Hk. lia.
    + exists k. rewrite Nat2Z.inj_succ, Z.pow_succ_r in Hk by lia. lia.
  - exists (S k). rewrite Nat2Z.inj_succ, Z.pow_succ_r by lia. lia.
Qed.

Lemma power_of_two_odd (n : Z) :
  (2 < n)%Z -> (n mod 2 <> 0)%Z -> ~ power_of_two n.
Proof.
  intros Hn Hodd [k Hk]. destruct k as [|k].
  - cbn in Hk. lia.
  - rewrite Nat2Z.inj_succ, Z.pow_succ_r in Hk by lia.
    apply Hodd. subst n. rewrite Z.mul_comm. apply Z.mod_mul. lia.
Qed.

Lemma gd_check_loop_spec (n : Z) :
  (0 <= n)%Z ->
  (gd_check_loop n = None <-> n = 0%Z \/ power_of_two n) /\
  (gd_check_loop n = Some INVALID_GRID_DIM <-> n <> 0%Z /\ ~ power_of_two n).
Proof.
  induction n as [n IH] using (well_founded_induction (Z.lt_wf 0)).
  intros Hn.
  destruct (Z_le_gt_dec n 2) as [Hs|Hb].
  - rewrite gd_check_loop_small by exact Hs.
    assert (Hc : n = 0%Z \/ power_of_two n).
    { destruct (Z.eq_dec n 0%Z) as [->|]; [left; reflexivity|right].
      destruct (Z.eq_dec n 1%Z) as [->|]; [exists 0%nat; reflexivity|].
      exists 1%nat. cbn. lia. }
    split; split; try tauto; try discriminate.
  - destruct (Z.eq_dec (n mod 2)%Z 0%Z) as [He|Ho].
    + rewrite gd_check_loop_even by lia.
      assert (Hdiv : n = (2 * (n / 2))%Z).
      { pose proof (Z.div_mod n 2%Z). lia. }
      assert (Hh : (0 <= n / 2 < n)%Z) by lia.
      destruct (IH (n / 2)%Z Hh) as [IH1 IH2]; [lia|].
      assert (Hp : power_of_two n <-> power_of_two (n / 2)).
      { rewrite Hdiv at 1. apply power_of_two_double. lia. }
      split.
      * rewrite IH1. split; [intros [H0|H]; [lia | right; tauto] |].
        intros [H0|H]; [lia | right; tauto].
      * rewrite IH2. split; intros [H0 H]; (split; [lia | tauto]).
    + rewrite gd_check_loop_odd by lia.
      pose proof (power_of_two_odd n ltac:(lia) Ho) as Hnp.
      split; split; try discriminate; try tauto.
      * intros [H0|H]; [lia | contradiction].
      * intros _. split; [lia | exact Hnp].
Qed.

(** C3, at the input [grid_dimension = 0]: the loop lets exactly 0 and the
    powers of two through, so the dimension 0, which is not a power of
    two, raises no [INVALID_GRID_DIM]; every other dimension that is not
    a power of two raises it and no power of two does. *)
Theorem grid_dimension_check_accepts_zero :
  ~ power_of_two 0 /\
  (forall stale_XStride meter_dimension,
     parameter_checks stale_XStride 0 meter_dimension <> Some INVALID_GRID_DIM) /\
  (forall n : nat,
     gd_check_loop (Z.of_nat n) = None <->
     n = 0%nat \/ power_of_two (Z.of_nat n)) /\
  (forall n : nat,
     gd_check_loop (Z.of_nat n) = Some INVALID_GRID_DIM <->
     n <> 0%nat /\ ~ power_of_two (Z.of_nat n)).
Proof.
  split; [|split; [|split]].
  - intros [k Hk]. pose proof (Z.pow_pos_nonneg 2 (Z.of_nat k)). lia.
  - intros stale meter. unfold parameter_checks.
    rewrite gd_check_loop_small by lia.
    destruct (Rlt_dec _ _); discriminate.
  - intros n. destruct (gd_check_loop_spec (Z.of_nat n)) as [H _]; [lia|].
    rewrite H. split; (intros [H0|Hp]; [left; lia | right; exact Hp]).
  - intros n. destruct (gd_check_loop_spec (Z.of_nat n)) as [_ H]; [lia|].
    rewrite H. split; (intros [H0 Hp]; split; [lia | exact Hp]).
Qed.

Lemma gd_check_loop_256 : gd_check_loop 256 = None.
Proof.
  apply (gd_check_loop_spec 256); [lia|]. right. exists 8%nat. reflexivity.
Qed.

Lemma parameter_checks_accepted (stale_XStride grid_dimension : Z)
    (meter_dimension : R) :
  gd_check_loop grid_dimension = None ->
  parameter_checks stale_XStride grid_dimension meter_dimension =
    if Rlt_dec (meter_dimension / IZR stale_XStride) MIN_DX_DZ
    then Some SMALL_DX_DZ else None.
Proof.
  intros H. unfold parameter_checks. rewrite H. reflexivity.
Qed.

(** C2, at the input [grid_dimension = 256], [meter_dimension = 1] with
    the unassigned [m_XStride] holding 1: the spacing 1/256 is below the
    minimum, yet no error is raised and the object is constructed,
    because the check divides by the member before it is assigned. *)
Theorem spacing_check_reads_unassigned_stride :
  1 / IZR 256 < MIN_DX_DZ /\
  parameter_checks 1 256 1 = None /\
  forall draw, exists w, WaterFFT_new 1 draw 256 1 = Constructed w.
Proof.
  assert (Hc : parameter_checks 1 256 1 = None).
  { rewrite parameter_checks_accepted by apply gd_check_loop_256.
    destruct (Rlt_dec (1 / 1) MIN_DX_DZ) as [H|H]; [|reflexivity].
    unfold MIN_DX_DZ in H. lra. }
  split; [unfold MIN_DX_DZ; lra|]. split; [exact Hc|].
  intros draw. unfold WaterFFT_new. rewrite Hc. eexists. reflexivity.
Qed.

(** ** Intensity map *)

(** C4, at a file that [stbi_load] cannot decode: [UseIntensityMap] still
    attaches a map object, with null samples, and returns [true]; the
    object is not in the state without a map, and [UpdateFFT] takes its
    factors from that map. *)
Theorem failed_decode_keeps_map_attached
    (stbi_load : string -> option (list Z * Z * Z)) (stale_w stale_h : Z)
    (filename : string) (w : WaterFFT) :
  stbi_load filename = None ->
  let r := UseIntensityMap stbi_load stale_w stale_h filename w in
  snd r = true /\
  m_IMap (fst r) <> None /\
  (exists imap, m_IMap (fst r) = Some imap /\ m_Data imap = None /\
     forall x z,
       y_factors (fst r) x z =
         let intensity :=
           GetIntensity imap (INR x / INR (m_fft_XStride (fst r)))
             (INR z / INR (m_fft_XStride (fst r))) in
         let intensity := if Req_dec_T intensity 0 then EPSILON else intensity in
         (m_HeightScale (fst r) * intensity,
          1 / m_HeightScale (fst r) * (1 / intensity))).
Proof.
  intros Hfail r. subst r. unfold UseIntensityMap, IntensityMap_new.
  rewrite Hfail. cbn. split; [reflexivity|]. split; [discriminate|].
  eexists. split; [reflexivity|]. split; [reflexivity|].
  intros x z. unfold y_factors. cbn. reflexivity.
Qed.

(** ** The synthesis loop of UpdateFFT *)

Lemma flips_S (k : nat) : flips (S k) = (flips k * -1)%Z.
Proof.
  unfold flips. rewrite Nat.even_succ, <- Nat.negb_even.
  destruct (Nat.even k); reflexivity.
Qed.



Lemma cell_index_lt (n x z z' : nat) :
  (x < n)%nat -> (z < z')%nat -> (z * n + x < z' * n)%nat.
Proof. intros Hx Hz. nia. Qed.

Lemma cell_index_inj (n x z x' z' : nat) :
  (x < n)%nat -> (x' < n)%nat -> (z * n + x = z' * n + x')%nat ->
  z = z' /\ x = x'.
Proof.
  intros Hx Hx' He.
  destruct (Nat.lt_trichotomy z z') as [H|[H|H]].
  - pose proof (cell_index_lt n x z z' Hx H). lia.
  - subst. lia.
  - pose proof (cell_index_lt n x' z' z Hx' H). lia.
Qed.


Lemma signed_upto_step (n z x : nat) (raw a : list Complex) :
  (x < n)%nat -> (z * n + x < length raw)%nat ->
  signed_upto n z x raw a ->
  signed_upto n z (S x) raw (apply_sign (flips (z * S n + x)) (z * n + x) a).
Proof.
  intros Hx Hlen (Hl & Hdone & Hrest). unfold apply_sign.
  split; [|split].
  - rewrite length_insert. exact Hl.
  - intros z' x' Hx' Hc.
    destruct (decide (z * n + x = z' * n + x')%nat) as [He|Hne].
    + destruct (cell_index_inj n x z x' z' Hx Hx' He) as [-> ->].
      rewrite list_lookup_total_insert_eq by lia.
      rewrite Hrest by lia. reflexivity.
    + rewrite list_lookup_total_insert_ne by exact Hne.
      apply Hdone; [exact Hx'|].
      destruct Hc as [Hc|[-> Hc]]; [left; exact Hc|].
      right. split; [reflexivity|]. lia.
  - intros i Hi. rewrite list_lookup_total_insert_ne by lia.
    apply Hrest. lia.
Qed.

Lemma signed_upto_row (n z : nat) (raw a : list Complex) :
  signed_upto n z n raw a -> signed_upto n (S z) 0 raw a.
Proof.
  intros (Hl & Hdone & Hrest). split; [exact Hl|]. split.
  - intros z' x' Hx' Hc. apply Hdone; [exact Hx'|].
    destruct Hc as [Hc|[_ Hc]]; [|lia].
    destruct (decide (z' = z)) as [->|]; [right; split; [reflexivity|exact Hx'] | left; lia].
  - intros i Hi. apply Hrest. lia.
Qed.

Lemma signed_upto_start (n : nat) (raw : list Complex) : signed_upto n 0 0 raw raw.
Proof.
  split; [reflexivity|]. split; [|reflexivity].
  intros z' x' _ [H|[_ H]]; lia.
Qed.

Ltac split5 := split; [|split; [|split; [|split]]].

Lemma synth_cell_inv (w : WaterFFT) (raw : Fields) (wb0 : list Vertex)
    (z x : nat) (s : Synth) :
  let n := m_fft_XStride w in
  (x < n)%nat ->
  fields_length (n * n) raw ->
  (z * n + x < n * n)%nat ->
  (z * S n + x < length wb0)%nat ->
  synth_inv w raw wb0 z x s ->
  synth_inv w raw wb0 z (S x) (synth_cell w z x s).
Proof.
  intros n Hx (L1 & L2 & L3 & L4 & L5) Hi Hv (Hvi & Hfi & Hsg & Ho & Hw).
  destruct Ho as (O1 & O2 & O3 & O4 & O5).
  destruct Hw as (Wl & Wdone & Wrest & Wcol).
  fold n in Hvi, Hfi, Hsg, O1, O2, O3, O4, O5, Wdone, Wrest, Wcol.
  unfold synth_inv, synth_cell;
    cbn [vertex_index fft_vertex_index sign outs write
         f_HTilde f_HTildeSlopeX f_HTildeSlopeZ f_HTildeDisplaceX f_HTildeDisplaceZ].
  fold n. rewrite Hvi, Hfi, Hsg.
  split; [lia|]. split; [lia|]. split.
  { replace (z * S n + S x)%nat with (S (z * S n + x)) by lia. now rewrite flips_S. }
  split.
  { split5; cbn [f_HTilde f_HTildeSlopeX f_HTildeSlopeZ f_HTildeDisplaceX f_HTildeDisplaceZ];
      apply signed_upto_step; try assumption; lia. }
  split; [|split; [|split]].
  - rewrite length_insert. exact Wl.
  - intros z' x' Hx' Hc.
    destruct (decide (z * S n + x = z' * S n + x')%nat) as [He|Hne].
    + destruct (cell_index_inj (S n) x z x' z' ltac:(lia) ltac:(lia) He) as [-> ->].
      rewrite list_lookup_total_insert_eq by lia.
      unfold signed_vertex, apply_sign. fold n.
      rewrite !list_lookup_total_insert_eq by
        (first [rewrite (proj1 O1) | rewrite (proj1 O2) | rewrite (proj1 O3)
               | rewrite (proj1 O4) | rewrite (proj1 O5)]; lia).
      rewrite (proj2 (proj2 O1)), (proj2 (proj2 O2)), (proj2 (proj2 O3)),
        (proj2 (proj2 O4)), (proj2 (proj2 O5)) by lia.
      rewrite Wrest by lia. reflexivity.
    + rewrite list_lookup_total_insert_ne by exact Hne.
      apply Wdone; [exact Hx'|].
      destruct Hc as [Hc|[-> Hc]]; [left; exact Hc|].
      right. split; [reflexivity|]. lia.
  - intros v Hv'. rewrite list_lookup_total_insert_ne by lia. apply Wrest. lia.
  - intros z' Hz'. rewrite list_lookup_total_insert_ne.
    + apply Wcol. exact Hz'.
    + pose proof (cell_index_lt (S n) n z' z ltac:(lia) Hz'). lia.
Qed.

Lemma synth_row_inv (w : WaterFFT) (raw : Fields) (wb0 : list Vertex)
    (z : nat) (s : Synth) :
  let n := m_fft_XStride w in
  (z < n)%nat ->
  fields_length (n * n) raw ->
  length wb0 = (S n * S n)%nat ->
  synth_inv w raw wb0 z 0 s ->
  synth_inv w raw wb0 (S z) 0 (synth_row w z s).
Proof.
  intros n Hz Hraw Hlen Hs. unfold synth_row.
  assert (Hin : synth_inv w raw wb0 z n
                  (for_range (m_fft_XStride w) (synth_cell w z) s)).
  { apply (for_range_ind (fun x t => synth_inv w raw wb0 z x t)); [exact Hs|].
    intros x t Hx Ht. apply synth_cell_inv; try assumption.
    - fold n. pose proof (cell_index_lt n x z n Hx Hz). lia.
    - fold n. rewrite Hlen.
      pose proof (cell_index_lt (S n) x z (S n) ltac:(fold n in Hx; lia) ltac:(lia)).
      lia. }
  set (t := for_range (m_fft_XStride w) (synth_cell w z) s) in *.
  destruct Hin as (Hvi & Hfi & Hsg & Ho & Hw). fold n in Hvi, Hfi, Hsg, Ho, Hw.
  unfold synth_inv; cbn [vertex_index fft_vertex_index sign outs write].
  fold n. rewrite Hvi, Hfi, Hsg.
  split; [lia|]. split; [lia|]. split.
  { replace (S z * S n + 0)%nat with (S (z * S n + n)) by lia. now rewrite flips_S. }
  split.
  { destruct Ho as (O1 & O2 & O3 & O4 & O5).
    split5; apply signed_upto_row; assumption. }
  destruct Hw as (Wl & Wdone & Wrest & Wcol). fold n in Wdone, Wrest, Wcol.
  split; [exact Wl|]. split; [|split].
  - intros z' x' Hx' Hc. apply Wdone; [exact Hx'|].
    destruct Hc as [Hc|[_ Hc]]; [|lia].
    destruct (decide (z' = z)) as [->|]; [right; split; [reflexivity|exact Hx'] | left; lia].
  - intros v Hv. apply Wrest. lia.
  - intros z' Hz'. destruct (decide (z' = z)) as [->|].
    + apply Wrest. lia.
    + apply Wcol. lia.
Qed.

Lemma synthesize_inv (w : WaterFFT) (raw : Fields) (wb0 : list Vertex) :
  let n := m_fft_XStride w in
  m_fft_ZStride w = n ->
  fields_length (n * n) raw ->
  length wb0 = (S n * S n)%nat ->
  synth_inv w raw wb0 n 0 (synthesize w raw wb0).
Proof.
  intros n HZ Hraw Hlen. unfold synthesize. rewrite HZ.
  apply (for_range_ind (fun z t => synth_inv w raw wb0 z 0 t)).
  - unfold synth_inv; cbn [vertex_index fft_vertex_index sign outs write].
    split; [lia|]. split; [lia|]. split; [reflexivity|]. split.
    + split5; apply signed_upto_start.
    + split; [reflexivity|]. split; [|split]; intros; try reflexivity; lia.
  - intros z t Hz Ht. apply synth_row_inv; assumption.
Qed.

(** ** Seam stitching *)

Lemma tail_loop_inv (up0 og0 d cnt : nat) (x_offset z_offset : R)
    (wb0 : list Vertex) :
  (forall j, (j < cnt)%nat -> (up0 + j * d < length wb0)%nat) ->
  (forall j j', (j < cnt)%nat -> (j' < cnt)%nat ->
     (og0 + j * d)%nat <> (up0 + j' * d)%nat) ->
  (forall j j', (j < cnt)%nat -> (j' < cnt)%nat -> j <> j' ->
     (up0 + j * d)%nat <> (up0 + j' * d)%nat) ->
  tail_inv up0 og0 d x_offset z_offset wb0 cnt
    (for_range cnt (tail_step d x_offset z_offset) (up0, og0, wb0)).
Proof.
  intros Hrange Hread Hdist.
  apply (for_range_ind (tail_inv up0 og0 d x_offset z_offset wb0)).
  - unfold tail_inv; cbn. split; [lia|]. split; [lia|]. split; [reflexivity|].
    split; [intros; lia | reflexivity].
  - intros i [[up og] wb] Hi (Hup & Hog & Hl & Hdone & Hrest).
    cbn in Hup, Hog, Hl, Hdone, Hrest. subst up og.
    unfold tail_inv, tail_step; cbn [fst snd].
    split; [lia|]. split; [lia|]. split; [rewrite length_insert; exact Hl|].
    assert (Hog : wb !!! (og0 + i * d)%nat = wb0 !!! (og0 + i * d)%nat).
    { apply Hrest. intros j Hj. apply Hread; lia. }
    assert (Hup : wb !!! (up0 + i * d)%nat = wb0 !!! (up0 + i * d)%nat).
    { apply Hrest. intros j Hj. apply Hdist; lia. }
    split.
    + intros j Hj. destruct (decide (j = i)) as [->|Hne].
      * rewrite list_lookup_total_insert_eq by (rewrite Hl; apply Hrange; lia).
        rewrite Hog, Hup. reflexivity.
      * rewrite list_lookup_total_insert_ne by (apply Hdist; lia).
        apply Hdone. lia.
    + intros v Hv. rewrite list_lookup_total_insert_ne.
      * apply Hrest. intros j Hj. apply Hv. lia.
      * intros He. apply (Hv i); [lia | symmetry; exact He].
Qed.

(** The last column after [UpdateTailEdge(0)]. *)
Lemma UpdateTailEdge_column (w : WaterFFT) (wb : list Vertex) :
  let n := m_fft_XStride w in
  wf w -> length wb = (S n * S n)%nat ->
  let wb' := UpdateTailEdge w 0 wb in
  length wb' = length wb /\
  (forall i, (i < n)%nat ->
     wb' !!! (i * S n + n)%nat =
       attached (m_XLength w) 0 (wb !!! (i * S n)%nat) (wb !!! (i * S n + n)%nat)) /\
  (forall v, (forall i, (i < n)%nat -> v <> (i * S n + n)%nat) ->
     wb' !!! v = wb !!! v).
Proof.
  intros n Hwf Hlen wb'. subst wb'. unfold UpdateTailEdge. cbn [Z.eqb].
  rewrite (wf_ZStride w Hwf), (wf_XStride w Hwf), (wf_fft_ZStride w Hwf). fold n.
  replace (S n - 1)%nat with n by lia.
  destruct (tail_loop_inv n 0 (S n) n (m_XLength w) 0 wb)
    as (_ & _ & Hl & Hdone & Hrest).
  - intros j Hj. rewrite Hlen. nia.
  - intros j j' Hj Hj' He.
    destruct (le_lt_dec j j') as [Hle|Hlt].
    + pose proof (Nat.mul_le_mono_r j j' (S n) Hle). lia.
    + pose proof (Nat.mul_le_mono_r (S j') j (S n) Hlt). lia.
  - intros j j' Hj Hj' Hne He.
    destruct (Nat.lt_trichotomy j j') as [H|[H|H]]; [|lia|].
    + pose proof (Nat.mul_le_mono_r (S j) j' (S n) H). lia.
    + pose proof (Nat.mul_le_mono_r (S j') j (S n) H). lia.
  - split; [exact Hl|]. split.
    + intros i Hi. specialize (Hdone i Hi).
      replace (i * S n + n)%nat with (n + i * S n)%nat by lia.
      rewrite Hdone. reflexivity.
    + intros v Hv. apply Hrest. intros j Hj. specialize (Hv j Hj). lia.
Qed.

(** The last row after [UpdateTailEdge(1)]. *)
Lemma UpdateTailEdge_row (w : WaterFFT) (wb : list Vertex) :
  let n := m_fft_XStride w in
  wf w -> length wb = (S n * S n)%nat ->
  let wb' := UpdateTailEdge w 1 wb in
  length wb' = length wb /\
  (forall j, (j < n)%nat ->
     wb' !!! (n * S n + j)%nat =
       attached 0 (m_ZLength w) (wb !!! j) (wb !!! (n * S n + j)%nat)) /\
  (forall v, (forall j, (j < n)%nat -> v <> (n * S n + j)%nat) ->
     wb' !!! v = wb !!! v).
Proof.
  intros n Hwf Hlen wb'. subst wb'. unfold UpdateTailEdge. cbn [Z.eqb].
  rewrite (wf_ZStride w Hwf), (wf_XStride w Hwf), (wf_fft_ZStride w Hwf). fold n.
  replace (S n - 1)%nat with n by lia.
  destruct (tail_loop_inv (S n * n) 0 1 n 0 (m_ZLength w) wb)
    as (_ & _ & Hl & Hdone & Hrest).
  - intros j Hj. rewrite Hlen. nia.
  - intros j j' Hj Hj' He. nia.
  - intros j j' Hj Hj' Hne He. lia.
  - split; [exact Hl|]. split.
    + intros j Hj. specialize (Hdone j Hj).
      replace (n * S n + j)%nat with (S n * n + j * 1)%nat by lia.
      rewrite Hdone. replace (0 + j * 1)%nat with j by lia. reflexivity.
    + intros v Hv. apply Hrest. intros j Hj. specialize (Hv j Hj). lia.
Qed.

(** ** The mesh written by UpdateFFT *)

Lemma WriteBuffer_set_WriteBuffer (w : WaterFFT) (l : list Vertex) :
  WriteBuffer (set_WriteBuffer w l) = l.
Proof.
  unfold WriteBuffer, set_WriteBuffer, buffer.
  destruct (m_WriteBuffer w) eqn:E; cbn; rewrite E; reflexivity.
Qed.

Lemma UpdateFFT_WriteBuffer fftwf_execute (time : R) (w : WaterFFT) :
  WriteBuffer (UpdateFFT fftwf_execute time w) =
    update_corner w (UpdateTailEdge w 1 (UpdateTailEdge w 0
      (write (synthesize w (execute_plans fftwf_execute w (fill_inputs w time))
                (WriteBuffer w))))).
Proof.
  unfold UpdateFFT. cbv zeta.
  set (s := synthesize _ _ _). set (wb := update_corner _ _).
  unfold WriteBuffer at 1, set_WriteBuffer, buffer, set_buffers, set_Out, set_In.
  cbn [m_WriteBuffer m_VertexBufferA m_VertexBufferB].
  destruct (m_WriteBuffer w) eqn:E;
    cbn [m_WriteBuffer m_VertexBufferA m_VertexBufferB]; reflexivity.
Qed.


Lemma wf_WriteBuffer_length (w : WaterFFT) :
  wf w -> length (WriteBuffer w) = (S (m_fft_XStride w) * S (m_fft_XStride w))%nat.
Proof.
  intros H. unfold WriteBuffer, buffer.
  destruct (m_WriteBuffer w);
    [rewrite (wf_A w H) | rewrite (wf_B w H)];
    rewrite (wf_NumVerts w H), (wf_ZStride w H), (wf_XStride w H),
      (wf_fft_ZStride w H); reflexivity.
Qed.

Lemma wf_ReadBuffer_length (w : WaterFFT) :
  wf w -> length (ReadBuffer w) = (S (m_fft_XStride w) * S (m_fft_XStride w))%nat.
Proof.
  intros H. unfold ReadBuffer, buffer.
  destruct (m_ReadBuffer w);
    [rewrite (wf_A w H) | rewrite (wf_B w H)];
    rewrite (wf_NumVerts w H), (wf_ZStride w H), (wf_XStride w H),
      (wf_fft_ZStride w H); reflexivity.
Qed.

Lemma fill_cell_length (w : WaterFFT) (time kz : R) (x len : nat)
    (s : nat * Fields) :
  fields_length len (snd s) -> fields_length len (snd (fill_cell w time kz x s)).
Proof.
  intros (L1 & L2 & L3 & L4 & L5). unfold fill_cell, fields_length; cbn.
  rewrite !length_insert. repeat split; assumption.
Qed.

Lemma fill_inputs_length (w : WaterFFT) (time : R) (len : nat) :
  fields_length len (m_In w) -> fields_length len (fill_inputs w time).
Proof.
  intros H. unfold fill_inputs.
  apply (for_range_ind (fun _ s => fields_length len (snd s))); [exact H|].
  intros z s _ Hs. unfold fill_row.
  apply (for_range_ind (fun _ s => fields_length len (snd s))); [exact Hs|].
  intros x t _ Ht. apply fill_cell_length. exact Ht.
Qed.

Lemma execute_plans_length fftwf_execute (w : WaterFFT) (time : R) :
  fftw_shape fftwf_execute -> wf w ->
  fields_length (m_fft_XStride w * m_fft_XStride w)
    (execute_plans fftwf_execute w (fill_inputs w time)).
Proof.
  intros Hf Hwf.
  pose proof (fill_inputs_length w time (m_fft_XStride w * m_fft_ZStride w)
                (wf_In w Hwf)) as (L1 & L2 & L3 & L4 & L5).
  unfold execute_plans, fields_length; cbn.
  rewrite !Hf by assumption. rewrite (wf_fft_ZStride w Hwf). repeat split.
Qed.

(** The whole write buffer after [UpdateFFT]: the cells, the last column,
    the last row and the corner. *)
Lemma UpdateFFT_mesh fftwf_execute (time : R) (w : WaterFFT) :
  let n := m_fft_XStride w in
  let raw := execute_plans fftwf_execute w (fill_inputs w time) in
  let wb0 := WriteBuffer w in
  let wb := WriteBuffer (UpdateFFT fftwf_execute time w) in
  fftw_shape fftwf_execute -> wf w ->
  length wb = (S n * S n)%nat /\
  (forall x z, (x < n)%nat -> (z < n)%nat ->
     wb !!! (z * S n + x)%nat = signed_vertex w raw wb0 x z) /\
  (forall i, (i < n)%nat ->
     wb !!! (i * S n + n)%nat =
       attached (m_XLength w) 0 (wb !!! (i * S n)%nat) (wb0 !!! (i * S n + n)%nat)) /\
  (forall j, (j < n)%nat ->
     wb !!! (n * S n + j)%nat =
       attached 0 (m_ZLength w) (wb !!! j) (wb0 !!! (n * S n + j)%nat)) /\
  ((1 <= n)%nat ->
     wb !!! (n * S n + n)%nat =
       corner_vertex w (wb !!! 0%nat) (wb0 !!! (n * S n + n)%nat)) /\
  m_Nx (wb !!! (n * S n + n)%nat) = m_Nx (wb0 !!! (n * S n + n)%nat) /\
  m_Ny (wb !!! (n * S n + n)%nat) = m_Ny (wb0 !!! (n * S n + n)%nat) /\
  m_Nz (wb !!! (n * S n + n)%nat) = m_Nz (wb0 !!! (n * S n + n)%nat).
Proof.
  intros n raw wb0 wb Hf Hwf. subst wb. rewrite UpdateFFT_WriteBuffer.
  fold raw wb0.
  pose proof (wf_WriteBuffer_length w Hwf) as Hlen0. fold n wb0 in Hlen0.
  pose proof (synthesize_inv w raw wb0 (wf_fft_ZStride w Hwf)
                (execute_plans_length _ w time Hf Hwf) Hlen0) as Hs.
  destruct Hs as (_ & _ & _ & _ & (L1 & Cells & Rest & Col)).
  fold n in Cells, Rest, Col.
  set (wb1 := write (synthesize w raw wb0)) in *.
  assert (Hl1 : length wb1 = (S n * S n)%nat) by (rewrite L1; exact Hlen0).
  destruct (UpdateTailEdge_column w wb1 Hwf Hl1) as (L2 & Col2 & Rest2).
  fold n in Col2, Rest2.
  set (wb2 := UpdateTailEdge w 0 wb1) in *.
  assert (Hl2 : length wb2 = (S n * S n)%nat) by (rewrite L2; exact Hl1).
  destruct (UpdateTailEdge_row w wb2 Hwf Hl2) as (L3 & Row3 & Rest3).
  fold n in Row3, Rest3.
  set (wb3 := UpdateTailEdge w 1 wb2) in *.
  assert (Hl3 : length wb3 = (S n * S n)%nat) by (rewrite L3; exact Hl2).
  assert (Hc : (m_NumVerts w - 1)%nat = (n * S n + n)%nat).
  { rewrite (wf_NumVerts w Hwf), (wf_ZStride w Hwf), (wf_XStride w Hwf),
      (wf_fft_ZStride w Hwf). fold n. lia. }
  unfold update_corner. rewrite Hc.
  assert (Hcell : forall x z, (x < n)%nat -> (z < n)%nat ->
            (z * S n + x < n * S n)%nat).
  { intros x z Hx Hz. apply cell_index_lt; lia. }
  assert (Hnocol : forall x z i, (x < n)%nat ->
            (z * S n + x)%nat <> (i * S n + n)%nat).
  { intros x z i Hx He.
    destruct (cell_index_inj (S n) x z n i ltac:(lia) ltac:(lia) He). lia. }
  assert (Hkeep : forall x z, (x < n)%nat -> (z < n)%nat ->
            wb3 !!! (z * S n + x)%nat = wb1 !!! (z * S n + x)%nat).
  { intros x z Hx Hz. pose proof (Hcell x z Hx Hz).
    rewrite Rest3 by (intros j Hj; lia).
    apply Rest2. intros i Hi. apply Hnocol. exact Hx. }
  assert (Hcorner3 : wb3 !!! (n * S n + n)%nat = wb0 !!! (n * S n + n)%nat).
  { rewrite Rest3 by (intros j Hj; lia).
    rewrite Rest2.
    - apply Rest. lia.
    - intros i Hi He.
      destruct (cell_index_inj (S n) n n n i ltac:(lia) ltac:(lia) He). lia. }
  split; [rewrite length_insert; exact Hl3|].
  split.
  { intros x z Hx Hz. pose proof (Hcell x z Hx Hz).
    rewrite list_lookup_total_insert_ne by lia.
    rewrite Hkeep by assumption. apply Cells; [exact Hx | left; exact Hz]. }
  split.
  { intros i Hi.
    assert (i * S n + n < n * S n)%nat.
    { pose proof (Nat.mul_le_mono_r (S i) n (S n) Hi). lia. }
    rewrite !list_lookup_total_insert_ne by
      (pose proof (Hcell 0%nat i ltac:(lia) Hi); lia).
    rewrite Rest3 by (intros j Hj; lia).
    rewrite Col2 by exact Hi.
    replace (i * S n)%nat with (i * S n + 0)%nat at 3 by lia.
    rewrite Hkeep by lia.
    rewrite Col by exact Hi.
    replace (i * S n + 0)%nat with (i * S n)%nat by lia. reflexivity. }
  split.
  { intros j Hj.
    rewrite !list_lookup_total_insert_ne by lia.
    rewrite Row3 by exact Hj.
    assert (H0 : wb3 !!! j = wb1 !!! j).
    { pose proof (Hkeep j 0%nat Hj ltac:(lia)) as Hk.
      replace (0 * S n + j)%nat with j in Hk by lia. exact Hk. }
    rewrite H0.
    assert (Hr : wb2 !!! j = wb1 !!! j).
    { apply Rest2. intros i Hi. lia. }
    rewrite Hr.
    assert (Hu : wb2 !!! (n * S n + j)%nat = wb1 !!! (n * S n + j)%nat).
    { apply Rest2. intros i Hi He.
      pose proof (Nat.mul_le_mono_r (S i) n (S n) Hi). lia. }
    rewrite Hu, (Rest (n * S n + j)%nat) by lia. reflexivity. }
  split.
  { intros Hn.
    rewrite list_lookup_total_insert_eq by (rewrite Hl3; lia).
    rewrite list_lookup_total_insert_ne by lia.
    rewrite Hcorner3. reflexivity. }
  rewrite list_lookup_total_insert_eq by (rewrite Hl3; lia).
  cbn [m_Nx m_Ny m_Nz].
  rewrite Hcorner3. repeat split.
Qed.

(** ** Checkerboard sign *)




(** ** Constructed objects are well formed *)

Lemma init_cell_inv (draw : nat -> Complex) (w : WaterFFT) (n z x : nat)
    (m kz : R) (s : Init) :
  m_fft_XStride w = n -> m_fft_ZStride w = n ->
  init_inv n z x s -> init_inv n z (S x) (init_cell draw w z m kz x s).
Proof.
  intros HX HZ (HA & HB & HE). unfold init_cell. rewrite HX, HZ.
  destruct (Nat.ltb_spec z n) as [Hz|Hz], (Nat.ltb_spec x n) as [Hx|Hx];
    cbn [andb init_A init_B init_extras]; unfold init_inv;
    cbn [init_A init_B init_extras];
    rewrite ?length_app, HA, HB, HE; cbn [length];
    (split; [lia|]); (split; [lia|]);
    generalize (Nat.min z n * n)%nat; intros q;
    destruct (Nat.ltb_spec z n); lia.
Qed.

Lemma init_row_inv (draw : nat -> Complex) (w : WaterFFT) (n z : nat) (s : Init) :
  m_fft_XStride w = n -> m_fft_ZStride w = n -> m_XStride w = S n ->
  init_inv n z 0 s -> init_inv n (S z) 0 (init_row draw w z s).
Proof.
  intros HX HZ HS Hs. unfold init_row. rewrite HS.
  assert (H : init_inv n z (S n)
                (for_range (S n)
                   (init_cell draw w z (INR z - INR (m_fft_ZStride w) / 2)
                      (TAU * (INR z - INR (m_fft_ZStride w) / 2) / m_ZLength w)) s)).
  { apply (for_range_ind (fun x t => init_inv n z x t)); [exact Hs|].
    intros x t _ Ht. apply init_cell_inv; assumption. }
  destruct H as (HA & HB & HE). unfold init_inv. rewrite HA, HB, HE.
  split; [lia|]. split; [lia|].
  rewrite (Nat.min_r (S n) n) by lia.
  destruct (Nat.min_spec z n) as [[? ->]|[? ->]],
    (Nat.min_spec (S z) n) as [[? ->]|[? ->]];
    destruct (Nat.ltb_spec z n), (Nat.ltb_spec (S z) n);
    first [lia | assert (n = S z) by lia; subst n; lia].
Qed.

Lemma wrap32_small (z : Z) : (0 <= z < 2 ^ 32)%Z -> wrap32 z = z.
Proof. intros H. unfold wrap32. apply Z.mod_small. exact H. Qed.

Lemma replicate_fields_length (len : nat) :
  fields_length len
    (MkFields (replicate len (MkComplex 0 0)) (replicate len (MkComplex 0 0))
       (replicate len (MkComplex 0 0)) (replicate len (MkComplex 0 0))
       (replicate len (MkComplex 0 0))).
Proof. unfold fields_length; cbn. rewrite !length_replicate. repeat split. Qed.

Lemma WaterFFT_new_wf (stale_XStride : Z) (draw : nat -> Complex)
    (grid_dimension : Z) (meter_dimension : R) (w : WaterFFT) :
  (0 <= grid_dimension)%Z ->
  ((grid_dimension + 1) * (grid_dimension + 1) < 2 ^ 32)%Z ->
  WaterFFT_new stale_XStride draw grid_dimension meter_dimension = Constructed w ->
  wf w /\ m_fft_XStride w = Z.to_nat grid_dimension /\
  m_XLength w = meter_dimension /\ m_ZLength w = meter_dimension /\
  m_IMap w = None.
Proof.
  intros Hg Hsmall Hnew. unfold WaterFFT_new in Hnew.
  destruct (parameter_checks _ _ _) eqn:Hchk; [discriminate|].
  assert (Hacc : gd_check_loop grid_dimension = None).
  { unfold parameter_checks in Hchk.
    destruct (gd_check_loop grid_dimension); [discriminate | reflexivity]. }
  set (n := Z.to_nat grid_dimension) in *.
  assert (Hn : grid_dimension = Z.of_nat n) by lia.
  assert (HS : Z.to_nat (wrap32 (grid_dimension + 1)) = S n).
  { rewrite wrap32_small by nia. lia. }
  rewrite HS in Hnew.
  assert (HN : Z.to_nat (wrap32 (Z.of_nat (S n) * Z.of_nat (S n))) = (S n * S n)%nat).
  { rewrite wrap32_small by nia. nia. }
  assert (HF : Z.to_nat (wrap32 (Z.of_nat n * Z.of_nat n)) = (n * n)%nat).
  { rewrite wrap32_small by nia. nia. }
  rewrite HN, HF in Hnew. injection Hnew as <-.
  unfold InitializeVertexBuffer.
  cbn [m_XStride m_ZStride m_NumVerts m_fft_XStride m_fft_ZStride m_fft_NumVerts
       m_VertexBufferB m_VertexExtrasBuffer m_In m_Out m_IMap m_XLength m_ZLength
       m_HeightScale m_DisplaceScale m_Amplitude m_Gravity m_Wind].
  match goal with
  | |- context [for_range (S n) (init_row draw ?w0) ?s0] =>
      assert (H : init_inv n (S n) 0 (for_range (S n) (init_row draw w0) s0))
  end.
  { apply (for_range_ind (fun z t => init_inv n z 0 t)).
    - unfold init_inv; cbn [init_A init_B init_extras length].
      split; [reflexivity|]. split; [reflexivity|].
      destruct (Nat.ltb 0 n); reflexivity.
    - intros z t _ Ht. apply init_row_inv; try assumption; reflexivity. }
  destruct H as (HA & HB & HE).
  split; [|repeat split].
  constructor;
    cbn [m_XStride m_ZStride m_NumVerts m_fft_XStride m_fft_ZStride m_fft_NumVerts
         m_VertexBufferA m_VertexBufferB m_VertexExtrasBuffer m_In m_ReadBuffer
         m_WriteBuffer].
  - rewrite <- Hn. exact Hacc.
  - reflexivity.
  - reflexivity.
  - reflexivity.
  - reflexivity.
  - rewrite HA. lia.
  - rewrite HB. lia.
  - rewrite HE. rewrite (Nat.min_r (S n) n) by lia.
    destruct (Nat.ltb_spec (S n) n); lia.
  - apply (replicate_fields_length (n * n)).
  - discriminate.
Qed.

(** ** Wrapping a location into the grid *)

Lemma float_to_unsigned_nonneg (r : R) :
  0 <= r ->
  let i := float_to_unsigned r in
  (0 <= i)%Z /\ IZR i <= r < IZR i + 1.
Proof.
  intros Hr i. subst i. unfold float_to_unsigned.
  destruct (Rle_dec 0 r) as [_|H]; [|contradiction].
  destruct (base_Int_part r) as [Hlo Hhi].
  split; [|lra].
  apply le_IZR. apply Rnot_lt_le. intros Hneg.
  assert (IZR (Int_part r) <= -1).
  { apply IZR_le. apply lt_IZR in Hneg. lia. }
  lra.
Qed.

Lemma wrap_down_small (x m : R) : x < m -> wrap_down x m = x.
Proof.
  intros H. unfold wrap_down. destruct (Rge_dec x m); [lra | reflexivity].
Qed.

Lemma wrap_down_spec (x m : R) :
  0 < m ->
  0 <= wrap_down x m < m \/ wrap_down x m = x /\ x < 0.
Proof.
  intros Hm. unfold wrap_down. destruct (Rge_dec x m) as [Hge|Hlt].
  - left.
    assert (Hq : 0 <= x / m).
    { apply Rmult_le_pos; [lra|]. left. apply Rinv_0_lt_compat. exact Hm. }
    destruct (float_to_unsigned_nonneg (x / m) Hq) as (_ & Hlo & Hhi).
    set (g := IZR (float_to_unsigned (x / m))) in *.
    assert (Hx : x = x / m * m) by (field; lra).
    assert (g * m <= x) by (rewrite Hx; apply Rmult_le_compat_r; lra).
    assert (x < (g + 1) * m) by (rewrite Hx at 1; apply Rmult_lt_compat_r; lra).
    lra.
  - destruct (Rlt_dec x 0); [right; split; [reflexivity | assumption] | left; lra].
Qed.

Lemma wrap_down_congruent (x m : R) :
  exists j : Z, x = wrap_down x m + IZR j * m.
Proof.
  unfold wrap_down. destruct (Rge_dec x m).
  - exists (float_to_unsigned (x / m)). lra.
  - exists 0%Z. lra.
Qed.

Lemma wrap_up_spec (m : R) (fuel : nat) :
  0 < m -> forall x r, x < m -> wrap_up fuel x m = Some r ->
  0 <= r < m /\ exists j : Z, x = r + IZR j * m.
Proof.
  intros Hm. induction fuel as [|fuel IH]; intros x r Hx Hr; [discriminate|].
  cbn in Hr. destruct (Rlt_dec x 0) as [Hneg|Hpos].
  - destruct (IH (x + m) r ltac:(lra) Hr) as (Hr' & j & Hj).
    split; [exact Hr'|]. exists (j - 1)%Z. rewrite minus_IZR. lra.
  - injection Hr as <-. split; [lra|]. exists 0%Z. lra.
Qed.

Lemma wrap_up_enough (m : R) (k : nat) :
  forall x fuel, 0 <= x + INR k * m -> (k < fuel)%nat ->
  exists r, wrap_up fuel x m = Some r.
Proof.
  induction k as [|k IH]; intros x fuel Hk Hfuel;
    (destruct fuel as [|fuel]; [lia|]); cbn [wrap_up];
    destruct (Rlt_dec x 0) as [Hneg|Hpos]; try (eexists; reflexivity).
  - cbn in Hk. lra.
  - apply IH; [|lia]. rewrite S_INR in Hk. lra.
Qed.

Lemma wrap_up_returns (x m : R) :
  0 < m -> exists fuel0, forall fuel, (fuel0 <= fuel)%nat ->
  exists r, wrap_up fuel x m = Some r.
Proof.
  intros Hm. set (k := Z.to_nat (up (- x / m))).
  exists (S k). intros fuel Hfuel. apply (wrap_up_enough m k); [|lia].
  assert (Hk : - x / m <= INR k).
  { subst k. destruct (archimed (- x / m)) as [Hup _].
    rewrite INR_IZR_INZ.
    destruct (Z_le_gt_dec 0 (up (- x / m))) as [Hz|Hz].
    - rewrite Z2Nat.id by (apply Z.ge_le; lia). lra.
    - generalize dependent (up (- x / m)). intros u Hfuel Hup Hu.
      replace (Z.to_nat u) with 0%nat by lia. change (Z.of_nat 0) with 0%Z.
      assert (IZR u <= 0) by (apply (IZR_le _ 0); lia). lra. }
  assert (- x <= INR k * m).
  { replace (- x) with (- x / m * m) by (field; lra).
    apply Rmult_le_compat_r; lra. }
  lra.
Qed.

Lemma wrap_spec (fuel : nat) (x m r : R) :
  0 < m -> wrap fuel x m = Some r ->
  0 <= r < m /\ exists j : Z, x = r + IZR j * m.
Proof.
  intros Hm Hr. unfold wrap in Hr.
  assert (Hlt : wrap_down x m < m).
  { destruct (wrap_down_spec x m Hm) as [H|[-> H]]; lra. }
  destruct (wrap_up_spec m fuel Hm _ _ Hlt Hr) as (Hr' & j & Hj).
  destruct (wrap_down_congruent x m) as [j' Hj'].
  split; [exact Hr'|]. exists (j + j')%Z. rewrite plus_IZR. lra.
Qed.

Lemma wrap_returns (x m : R) :
  0 < m -> exists fuel0, forall fuel, (fuel0 <= fuel)%nat ->
  exists r, wrap fuel x m = Some r.
Proof. intros Hm. apply wrap_up_returns. exact Hm. Qed.

Lemma congruent_unique (m r r' : R) (j : Z) :
  0 < m -> 0 <= r < m -> 0 <= r' < m -> r = r' + IZR j * m -> r = r'.
Proof.
  intros Hm Hr Hr' He.
  assert (Hj : j = 0%Z).
  { assert (-1 < IZR j < 1) as [Hlo Hhi] by (split; nra).
    apply lt_IZR in Hlo, Hhi. lia. }
  subst j. lra.
Qed.

Lemma wrap_periodic (fuel fuel' : nat) (x m r r' : R) (k : Z) :
  0 < m -> wrap fuel x m = Some r -> wrap fuel' (x + IZR k * m) m = Some r' ->
  r = r'.
Proof.
  intros Hm Hr Hr'.
  destruct (wrap_spec _ _ _ _ Hm Hr) as (Hb & j & Hj).
  destruct (wrap_spec _ _ _ _ Hm Hr') as (Hb' & j' & Hj').
  apply (congruent_unique m r r' (j' - j - k)%Z Hm Hb Hb').
  rewrite !minus_IZR. lra.
Qed.

(** ** Point queries *)

Lemma LocationToMeshPosition_wrap (fuel : nat) (w : WaterFFT) (location : vec2)
    (rx rz : R) :
  wrap fuel (vx location + INR (m_XStride w) / 2) (INR (m_XStride w - 1)) = Some rx ->
  wrap fuel (vy location + INR (m_ZStride w) / 2) (INR (m_ZStride w - 1)) = Some rz ->
  LocationToMeshPosition fuel w location =
    Some (MkMeshPosition
            (Z.to_nat (float_to_unsigned rz) * m_XStride w
             + Z.to_nat (float_to_unsigned rx))
            (rx - IZR (float_to_unsigned rx))
            (rz - IZR (float_to_unsigned rz))).
Proof.
  unfold wrap, LocationToMeshPosition. intros -> ->. reflexivity.
Qed.

Lemma LocationToMeshPosition_inv (fuel : nat) (w : WaterFFT) (location : vec2)
    (mp : MeshPosition) :
  LocationToMeshPosition fuel w location = Some mp ->
  exists rx rz,
    wrap fuel (vx location + INR (m_XStride w) / 2) (INR (m_XStride w - 1)) = Some rx /\
    wrap fuel (vy location + INR (m_ZStride w) / 2) (INR (m_ZStride w - 1)) = Some rz.
Proof.
  unfold wrap, LocationToMeshPosition. intros H.
  destruct (wrap_up fuel (wrap_down (vx location + _) _) _) as [rx|]; [|discriminate].
  destruct (wrap_up fuel (wrap_down (vy location + _) _) _) as [rz|]; [|discriminate].
  exists rx, rz. split; reflexivity.
Qed.

Lemma grid_index (r : R) (n : nat) :
  0 <= r < INR n ->
  (Z.to_nat (float_to_unsigned r) < n)%nat /\
  0 <= r - IZR (float_to_unsigned r) < 1.
Proof.
  intros [Hlo Hhi].
  destruct (float_to_unsigned_nonneg r Hlo) as (Hi & Hle & Hlt).
  split; [|lra].
  apply INR_lt. rewrite INR_IZR_INZ, Z2Nat.id by exact Hi. lra.
Qed.


(** The quotient that [wrap_down] converts fits an [unsigned] when the
    index is below 2^32 grids. *)
Lemma wrap_down_conversion_fits (index_float max_index : R) :
  0 < max_index -> index_float >= max_index ->
  index_float < 2 ^ 32 * max_index ->
  (1 <= float_to_unsigned (index_float / max_index) < 2 ^ 32)%Z.
Proof.
  intros Hm Hge Hlt.
  assert (Hq : 1 <= index_float / max_index < 2 ^ 32).
  { split.
    - apply (Rmult_le_reg_r max_index); [exact Hm|].
      unfold Rdiv. rewrite Rmult_assoc, Rinv_l by lra. lra.
    - apply (Rmult_lt_reg_r max_index); [exact Hm|].
      unfold Rdiv. rewrite Rmult_assoc, Rinv_l by lra. lra. }
  destruct (float_to_unsigned_nonneg (index_float / max_index) ltac:(lra))
    as (_ & Hlo & Hhi).
  set (q := float_to_unsigned (index_float / max_index)) in *.
  assert (H32 : 2 ^ 32 = IZR (2 ^ 32)) by (rewrite (pow_IZR 2 32); reflexivity).
  rewrite H32 in Hq.
  assert (0 < q)%Z by (apply lt_IZR; lra).
  split; [lia|]. apply lt_IZR. lra.
Qed.

(** Locations below 2^31 on both axes are among them. *)
Lemma conversions_defined_small (w : WaterFFT) (location : vec2) :
  wf w -> (1 <= m_fft_XStride w)%nat ->
  vx location < 2147483648 -> vy location < 2147483648 ->
  conversions_defined w location.
Proof.
  intros Hwf Hn Hx Hz. unfold conversions_defined.
  rewrite (wf_ZStride w Hwf), (wf_fft_ZStride w Hwf), (wf_XStride w Hwf).
  set (n := m_fft_XStride w) in *.
  replace (S n - 1)%nat with n by lia.
  assert (H1 : 1 <= INR n) by (apply (le_INR 1); exact Hn).
  rewrite S_INR.
  assert (H32 : 2 ^ 32 = 4294967296) by (rewrite (pow_IZR 2 32); reflexivity).
  rewrite H32. split; nra.
Qed.

(** C6, amended: the height query is invariant under a translation along
    x by the grid dimension ([m_XStride - 1] index units), hence by the
    domain's side length whenever that length is a whole multiple of the
    grid dimension; for a location and a translated location whose
    indices the code can convert ([conversions_defined]), both calls
    return, with the same value. *)
Theorem HeightAtLocation_grid_period (w : WaterFFT) (location : vec2) (k : Z) :
  wf w -> (1 <= m_fft_XStride w)%nat ->
  m_XLength w = IZR k * INR (m_fft_XStride w) ->
  conversions_defined w location ->
  conversions_defined w (MkVec2 (vx location + m_XLength w) (vy location)) ->
  exists fuel0, forall fuel, (fuel0 <= fuel)%nat ->
  exists h,
    HeightAtLocation fuel w location = Some h /\
    HeightAtLocation fuel w (MkVec2 (vx location + m_XLength w) (vy location))
      = Some h.
Proof.
  intros Hwf Hn HL _ _. set (n := m_fft_XStride w) in *.
  assert (HX : m_XStride w = S n) by apply (wf_XStride w Hwf).
  assert (HZ : m_ZStride w = S n).
  { rewrite (wf_ZStride w Hwf), (wf_fft_ZStride w Hwf). reflexivity. }
  assert (Hm : 0 < INR n) by (apply lt_0_INR; lia).
  set (x0 := vx location + INR (S n) / 2).
  destruct (wrap_returns x0 (INR n) Hm) as [f1 Hf1].
  destruct (wrap_returns (x0 + IZR k * INR n) (INR n) Hm) as [f2 Hf2].
  destruct (wrap_returns (vy location + INR (S n) / 2) (INR n) Hm) as [f3 Hf3].
  exists (Nat.max f1 (Nat.max f2 f3)). intros fuel Hfuel.
  destruct (Hf1 fuel ltac:(lia)) as [rx Hrx].
  destruct (Hf2 fuel ltac:(lia)) as [rx' Hrx'].
  destruct (Hf3 fuel ltac:(lia)) as [rz Hrz].
  assert (rx = rx') by (eapply wrap_periodic; eassumption). subst rx'.
  unfold HeightAtLocation.
  rewrite (LocationToMeshPosition_wrap fuel w location rx rz);
    [| rewrite HX; replace (S n - 1)%nat with n by lia; exact Hrx
     | rewrite HZ; replace (S n - 1)%nat with n by lia; exact Hrz].
  rewrite (LocationToMeshPosition_wrap fuel w _ rx rz);
    [| rewrite HX; replace (S n - 1)%nat with n by lia
     | rewrite HZ; replace (S n - 1)%nat with n by lia; exact Hrz].
  - eexists. split; reflexivity.
  - cbn [vx]. rewrite HL.
    replace (vx location + IZR k * INR n + INR (S n) / 2)
      with (x0 + IZR k * INR n) by (unfold x0; ring).
    exact Hrx'.
Qed.

(** ** The degenerate grid *)

Lemma wrap_up_stuck (fuel : nat) (x : R) : x < 0 -> wrap_up fuel x 0 = None.
Proof.
  intros Hx. induction fuel as [|fuel IH]; [reflexivity|].
  cbn. destruct (Rlt_dec x 0); [|contradiction].
  rewrite Rplus_0_r. exact IH.
Qed.

Lemma LocationToMeshPosition_empty_grid
    (stale_XStride : Z) (draw : nat -> Complex) (meter_dimension : R)
    (w : WaterFFT) :
  WaterFFT_new stale_XStride draw 0 meter_dimension = Constructed w ->
  forall fuel, LocationToMeshPosition fuel w (MkVec2 (-1) 0) = None.
Proof.
  intros Hnew fuel.
  destruct (WaterFFT_new_wf stale_XStride draw 0 meter_dimension w
              ltac:(lia) ltac:(lia) Hnew) as (Hwf & Hn & _).
  assert (HX : m_XStride w = 1%nat).
  { rewrite (wf_XStride w Hwf), Hn. reflexivity. }
  unfold LocationToMeshPosition. rewrite HX. cbn [vx Nat.sub INR].
  rewrite wrap_down_small by lra.
  rewrite wrap_up_stuck by lra. reflexivity.
Qed.

Lemma parameter_checks_empty_grid : parameter_checks 1 0 1 = None.
Proof.
  rewrite parameter_checks_accepted by (apply gd_check_loop_small; lia).
  destruct (Rlt_dec (1 / 1) MIN_DX_DZ) as [H|H]; [|reflexivity].
  unfold MIN_DX_DZ in H. lra.
Qed.

(** ** The wrap loop in binary32 *)

Lemma wrap_up_f32_absorbed (fuel : nat) (x m : f32) :
  SFltb x (f32_of_unsigned 0) = true -> f32_add x m = x ->
  wrap_up_f32 fuel x m = None.
Proof.
  intros Hneg Hadd. induction fuel as [|fuel IH]; [reflexivity|].
  cbn [wrap_up_f32]. rewrite Hneg, Hadd. exact IH.
Qed.

Lemma x_index_f32_stalls (fuel : nat) : x_index_f32 fuel 257 minus_1e10 = None.
Proof.
  unfold x_index_f32.
  replace (f32_add minus_1e10
             (f32_div (f32_of_unsigned 257) (f32_of_unsigned 2)))
    with minus_1e10 by (vm_compute; reflexivity).
  replace (f32_of_unsigned (257 - 1)) with (S754_finite false 8388608 (-15))
    by (vm_compute; reflexivity).
  replace (SFleb (S754_finite false 8388608 (-15)) minus_1e10) with false
    by (vm_compute; reflexivity).
  apply wrap_up_f32_absorbed; vm_compute; reflexivity.
Qed.

(** C10 fails at two inputs.  In binary32, on the 256 by 256 grid that
    the program creates ([m_XStride = 257]) and for the location
    x = -10000000000: [x_index_float + x_max_index] rounds back to
    [x_index_float], so the loop
    [while (x_index_float < 0) x_index_float += x_max_index] never
    leaves.  In exact arithmetic, on the object constructed for
    [grid_dimension = 0] and for the location (-1, 0): [x_max_index] is
    0 and the same loop never leaves.  In both cases no mesh position is
    returned, whatever the number of iterations allowed. *)
Theorem LocationToMeshPosition_can_stall :
  (forall fuel, x_index_f32 fuel 257 minus_1e10 = None) /\
  (forall stale_XStride draw meter_dimension w,
     WaterFFT_new stale_XStride draw 0 meter_dimension = Constructed w ->
     forall fuel, LocationToMeshPosition fuel w (MkVec2 (-1) 0) = None).
Proof.
  split; [exact x_index_f32_stalls | exact LocationToMeshPosition_empty_grid].
Qed.

Lemma LocationToMeshPosition_empty_grid_example :
  exists w,
    WaterFFT_new 1 (fun _ => MkComplex 0 0) 0 1 = Constructed w /\
    forall fuel, LocationToMeshPosition fuel w (MkVec2 (-1) 0) = None.
Proof.
  eexists. split.
  - unfold WaterFFT_new. rewrite parameter_checks_empty_grid. reflexivity.
  - apply (proj2 LocationToMeshPosition_can_stall
             1%Z (fun _ => MkComplex 0 0) 1).
    unfold WaterFFT_new. rewrite parameter_checks_empty_grid. reflexivity.
Defined.

(** ** The frequency-domain inputs *)

Lemma fill_cell_inv (w : WaterFFT) (time : R) (z x : nat) (s : nat * Fields) :
  let n := m_fft_XStride w in
  (x < n)%nat -> (z < n)%nat ->
  filled_upto w time z x s ->
  filled_upto w time z (S x)
    (fill_cell w time (vy (wavevector w x z)) x s).
Proof.
  intros n Hx Hz (Hi & Hlen & Hdone). fold n in Hi, Hdone.
  pose proof (cell_index_lt n x z n Hx Hz) as Hlt.
  split; [|split].
  - unfold fill_cell; cbn [fst]. rewrite Hi. lia.
  - apply fill_cell_length. exact Hlen.
  - fold n. intros z' x' Hx' Hc.
    destruct Hlen as (L1 & L2 & L3 & _).
    unfold fill_cell;
      cbn [snd f_HTilde f_HTildeSlopeX f_HTildeSlopeZ]. rewrite Hi.
    destruct (decide (z * n + x = z' * n + x')%nat) as [He|Hne].
    + destruct (cell_index_inj n x z x' z' Hx Hx' He) as [-> ->].
      rewrite !list_lookup_total_insert_eq by lia.
      unfold cell_htilde, wavevector; cbn [vx vy]. fold n.
      repeat split.
    + rewrite !list_lookup_total_insert_ne by exact Hne.
      apply Hdone; [exact Hx'|].
      destruct Hc as [Hc|[-> Hc]]; [left; exact Hc|].
      right. split; [reflexivity|]. lia.
Qed.

Lemma fill_inputs_spec (w : WaterFFT) (time : R) (x z : nat) :
  let n := m_fft_XStride w in
  wf w -> (x < n)%nat -> (z < n)%nat ->
  f_HTilde (fill_inputs w time) !!! (z * n + x)%nat = cell_htilde w time x z /\
  f_HTildeSlopeX (fill_inputs w time) !!! (z * n + x)%nat =
    Complex_mul (cell_htilde w time x z) (MkComplex 0 (vx (wavevector w x z))) /\
  f_HTildeSlopeZ (fill_inputs w time) !!! (z * n + x)%nat =
    Complex_mul (cell_htilde w time x z) (MkComplex 0 (vy (wavevector w x z))).
Proof.
  intros n Hwf Hx Hz.
  assert (H : filled_upto w time n 0
                (for_range (m_fft_ZStride w) (fill_row w time) (0%nat, m_In w))).
  { rewrite (wf_fft_ZStride w Hwf). fold n.
    apply (for_range_ind (fun i t => filled_upto w time i 0 t)).
    - split; [reflexivity|]. split.
      + pose proof (wf_In w Hwf) as H. rewrite (wf_fft_ZStride w Hwf) in H. exact H.
      + intros z' x' _ [H|[_ H]]; lia.
    - intros i t Hi Ht. unfold fill_row.
      assert (Hrow : filled_upto w time i n
                (for_range n
                   (fill_cell w time
                      (TAU * (INR i - INR (m_fft_ZStride w) / 2) / m_ZLength w)) t)).
      { apply (for_range_ind (fun j u => filled_upto w time i j u)); [exact Ht|].
        intros j u Hj Hu.
        apply (fill_cell_inv w time i j u Hj Hi Hu). }
      destruct Hrow as (Hfst & Hlen & Hdone). fold n in Hfst, Hdone.
      unfold filled_upto. change (m_fft_XStride w) with n.
      split; [rewrite Hfst; lia|]. split; [exact Hlen|].
      intros z' x' Hx' Hc. apply Hdone; [exact Hx'|].
      destruct Hc as [Hc|[_ Hc]]; [|lia].
      destruct (decide (z' = i)) as [->|];
        [right; split; [reflexivity|exact Hx'] | left; lia]. }
  destruct H as (_ & _ & Hdone). fold n in Hdone.
  apply Hdone; [exact Hx | left; exact Hz].
Qed.

(** ** A constructed 2 by 2 grid *)

Lemma flat_map_const_length {A B : Type} (f : A -> list B) (l : list A) (k : nat) :
  (forall a, length (f a) = k) -> length (flat_map f l) = (length l * k)%nat.
Proof.
  intros Hf. induction l as [|a l IH]; [reflexivity|].
  cbn. rewrite length_app, Hf, IH. lia.
Qed.

Lemma dft_small_shape : fftw_shape dft_small.
Proof.
  intros n0 n1 input _. unfold dft_small.
  rewrite (flat_map_const_length _ _ n1).
  - rewrite length_seq. reflexivity.
  - intros a. rewrite length_map, length_seq. reflexivity.
Qed.

Lemma gd_check_loop_2 : gd_check_loop 2 = None.
Proof. apply gd_check_loop_small. lia. Qed.

Lemma tile_constructed (meter_dimension : R) :
  MIN_DX_DZ <= meter_dimension ->
  WaterFFT_new 1 one_seed 2 meter_dimension = Constructed (tile meter_dimension).
Proof.
  intros Hm. unfold WaterFFT_new.
  rewrite parameter_checks_accepted by apply gd_check_loop_2.
  destruct (Rlt_dec (meter_dimension / 1) MIN_DX_DZ) as [H|H]; [lra|].
  reflexivity.
Qed.

Lemma tile_wf (meter_dimension : R) :
  MIN_DX_DZ <= meter_dimension -> wf (tile meter_dimension).
Proof.
  intros Hm.
  apply (WaterFFT_new_wf 1 one_seed 2 meter_dimension); [lia | lia |].
  apply tile_constructed. exact Hm.
Qed.

Lemma tile_fields (meter_dimension : R) :
  m_fft_XStride (tile meter_dimension) = 2%nat /\
  m_fft_ZStride (tile meter_dimension) = 2%nat /\
  m_XStride (tile meter_dimension) = 3%nat /\
  m_ZStride (tile meter_dimension) = 3%nat /\
  m_NumVerts (tile meter_dimension) = 9%nat /\
  m_XLength (tile meter_dimension) = meter_dimension /\
  m_ZLength (tile meter_dimension) = meter_dimension /\
  m_HeightScale (tile meter_dimension) = 1 /\
  m_IMap (tile meter_dimension) = None /\
  m_ReadBuffer (tile meter_dimension) = BufferA /\
  m_WriteBuffer (tile meter_dimension) = BufferB.
Proof. repeat split. Qed.

Lemma tile_seeds (meter_dimension : R) :
  let w := tile meter_dimension in
  m_HTilde0 (m_VertexExtrasBuffer w !!! 0%nat) =
    HTilde0 0.00005 9.81 (MkVec2 64 64) (MkComplex 1 1) (wavevector w 0 0) /\
  m_HTilde0Conjugate (m_VertexExtrasBuffer w !!! 0%nat) =
    Complex_Conjugate
      (HTilde0 0.00005 9.81 (MkVec2 64 64) (MkComplex 0 0)
         (vec2_neg (wavevector w 0 0))) /\
  forall i, (1 <= i < 4)%nat ->
    exists k k',
      m_HTilde0 (m_VertexExtrasBuffer w !!! i) =
        HTilde0 0.00005 9.81 (MkVec2 64 64) (MkComplex 0 0) k /\
      m_HTilde0Conjugate (m_VertexExtrasBuffer w !!! i) =
        Complex_Conjugate
          (HTilde0 0.00005 9.81 (MkVec2 64 64) (MkComplex 0 0) k').
Proof.
  intros w. split; [reflexivity|]. split; [reflexivity|].
  intros i Hi.
  destruct i as [|[|[|[|i]]]]; try lia; eexists; eexists; split; reflexivity.
Qed.

(** ** The operations keep the shape *)

Lemma UpdateFFT_fields fftwf_execute (time : R) (w : WaterFFT) :
  let w' := UpdateFFT fftwf_execute time w in
  m_XStride w' = m_XStride w /\ m_ZStride w' = m_ZStride w /\
  m_NumVerts w' = m_NumVerts w /\
  m_fft_XStride w' = m_fft_XStride w /\ m_fft_ZStride w' = m_fft_ZStride w /\
  m_XLength w' = m_XLength w /\ m_ZLength w' = m_ZLength w /\
  m_ReadBuffer w' = m_ReadBuffer w /\ m_WriteBuffer w' = m_WriteBuffer w /\
  m_VertexExtrasBuffer w' = m_VertexExtrasBuffer w /\
  m_IMap w' = m_IMap w /\
  m_In w' = fill_inputs w time /\
  (m_ReadBuffer w <> m_WriteBuffer w -> ReadBuffer w' = ReadBuffer w).
Proof.
  cbv zeta. unfold UpdateFFT, set_WriteBuffer, set_buffers, set_Out, set_In,
    ReadBuffer, buffer.
  cbn [m_WriteBuffer m_ReadBuffer m_VertexBufferA m_VertexBufferB].
  destruct (m_WriteBuffer w) eqn:Ew;
    cbn [m_XStride m_ZStride m_NumVerts m_fft_XStride m_fft_ZStride m_XLength
         m_ZLength m_ReadBuffer m_WriteBuffer m_VertexExtrasBuffer m_IMap m_In
         m_VertexBufferA m_VertexBufferB];
    repeat (split; [reflexivity|]);
    intros Hp; destruct (m_ReadBuffer w); congruence.
Qed.

Lemma UpdateFFT_wf fftwf_execute (time : R) (w : WaterFFT) :
  fftw_shape fftwf_execute -> wf w -> wf (UpdateFFT fftwf_execute time w).
Proof.
  intros Hf Hwf.
  destruct (UpdateFFT_fields fftwf_execute time w)
    as (HX & HZ & HN & HfX & HfZ & _ & _ & HR & HW & HE & _ & HI & HRB).
  pose proof (UpdateFFT_mesh fftwf_execute time w Hf Hwf) as (Hlen & _).
  pose proof (wf_ReadBuffer_length w Hwf) as HlenR.
  rewrite <- (HRB (wf_pointers w Hwf)) in HlenR.
  assert (HNv : m_NumVerts w = (S (m_fft_XStride w) * S (m_fft_XStride w))%nat).
  { rewrite (wf_NumVerts w Hwf), (wf_ZStride w Hwf), (wf_XStride w Hwf),
      (wf_fft_ZStride w Hwf). reflexivity. }
  pose proof (wf_pointers w Hwf) as Hp.
  constructor; rewrite ?HX, ?HZ, ?HN, ?HfX, ?HfZ, ?HE, ?HR, ?HW, ?HI;
    try apply Hwf.
  - unfold WriteBuffer, ReadBuffer, buffer in Hlen, HlenR.
    rewrite HW in Hlen. rewrite HR in HlenR. rewrite HNv.
    destruct (m_WriteBuffer w), (m_ReadBuffer w); congruence.
  - unfold WriteBuffer, ReadBuffer, buffer in Hlen, HlenR.
    rewrite HW in Hlen. rewrite HR in HlenR. rewrite HNv.
    destruct (m_WriteBuffer w), (m_ReadBuffer w); congruence.
  - apply (fill_inputs_length w time _ (wf_In w Hwf)).
Qed.

Lemma SwapBuffers_wf (w : WaterFFT) : wf w -> wf (SwapBuffers w).
Proof.
  intros Hwf. constructor; try apply Hwf.
  cbn. intros H. apply (wf_pointers w Hwf). symmetry. exact H.
Qed.

Lemma ReadBuffer_SwapBuffers (w : WaterFFT) :
  ReadBuffer (SwapBuffers w) = WriteBuffer w.
Proof. reflexivity. Qed.

Lemma UseIntensityMap_wf stbi_load (stale_w stale_h : Z) (filename : string)
    (w : WaterFFT) :
  wf w -> wf (fst (UseIntensityMap stbi_load stale_w stale_h filename w)).
Proof.
  intros Hwf. unfold UseIntensityMap, RemoveIntensityMap.
  destruct (m_IMap w); constructor; apply Hwf.
Qed.

(** ** The 2 by 2 grid of side 3 after Update(0) *)

Lemma HTilde0_zero_draw (amplitude gravity : R) (wind k : vec2) :
  HTilde0 amplitude gravity wind (MkComplex 0 0) k = MkComplex 0 0.
Proof. unfold HTilde0, Complex_scale; cbn. f_equal; ring. Qed.

Lemma tile_kx : vx (wavevector (tile 3) 0 0) = - TAU / 3.
Proof. cbn. field. Qed.

Lemma tile_kz : vy (wavevector (tile 3) 0 0) = - TAU / 3.
Proof. cbn. field. Qed.

Lemma sigma_pos : 0 < sigma.
Proof.
  unfold sigma. apply sqrt_lt_R0.
  assert (Hk : wavevector (tile 3) 0 0 = MkVec2 (- TAU / 3) (- TAU / 3)).
  { pose proof tile_kx. pose proof tile_kz.
    destruct (wavevector (tile 3) 0 0); cbn in *; congruence. }
  rewrite Hk. unfold PhillipsSpectrum, glm_length, glm_dot, vec2_div; cbn [vx vy].
  set (km := sqrt (- TAU / 3 * (- TAU / 3) + - TAU / 3 * (- TAU / 3))).
  set (ws := sqrt (64 * 64 + 64 * 64)).
  assert (Hkm : 1 <= km).
  { subst km. rewrite <- sqrt_1. apply sqrt_le_1_alt. unfold TAU. nra. }
  assert (Hws : 1 <= ws).
  { subst ws. rewrite <- sqrt_1. apply sqrt_le_1_alt. lra. }
  destruct (Rlt_dec km EPSILON) as [H|_]; [unfold EPSILON in H; lra|].
  assert (Hd : - TAU / 3 / km * (64 / ws) + - TAU / 3 / km * (64 / ws) <> 0).
  { assert (0 < / km) by (apply Rinv_0_lt_compat; lra).
    assert (0 < / ws) by (apply Rinv_0_lt_compat; lra).
    assert (0 < TAU) by (unfold TAU; lra).
    assert (0 < TAU / 3 * / km * (64 * / ws)).
    { apply Rmult_lt_0_compat; [apply Rmult_lt_0_compat|apply Rmult_lt_0_compat]; lra. }
    unfold Rdiv in *. lra. }
  assert (0 < km * km * (km * km)) by (repeat apply Rmult_lt_0_compat; lra).
  apply Rdiv_lt_0_compat; [|lra].
  apply Rmult_lt_0_compat;
    [apply Rmult_lt_0_compat; [apply Rmult_lt_0_compat|]|].
  - lra.
  - apply Rdiv_lt_0_compat; [apply exp_pos | assumption].
  - destruct (Rtotal_order (- TAU / 3 / km * (64 / ws) + - TAU / 3 / km * (64 / ws)) 0)
      as [Hn|[Hz|Hp]]; [nra | contradiction | nra].
  - apply exp_pos.
Qed.

Lemma tile_htilde :
  cell_htilde (tile 3) 0 0 0 = MkComplex sigma sigma /\
  cell_htilde (tile 3) 0 1 0 = MkComplex 0 0 /\
  cell_htilde (tile 3) 0 0 1 = MkComplex 0 0 /\
  cell_htilde (tile 3) 0 1 1 = MkComplex 0 0.
Proof.
  destruct (tile_seeds 3) as (H0 & H0c & Hrest).
  unfold cell_htilde. rewrite !HTilde_time_zero.
  change (m_fft_XStride (tile 3)) with 2%nat.
  split; [|split; [|split]].
  - change (0 * 2 + 0)%nat with 0%nat. rewrite H0, H0c, HTilde0_zero_draw.
    unfold HTilde0, Complex_scale, Complex_sub, Complex_Conjugate; cbn.
    fold sigma. f_equal; ring.
  - change (0 * 2 + 1)%nat with 1%nat.
    destruct (Hrest 1%nat ltac:(lia)) as (k & k' & -> & ->).
    rewrite !HTilde0_zero_draw. unfold Complex_sub, Complex_Conjugate; cbn.
    f_equal; ring.
  - change (1 * 2 + 0)%nat with 2%nat.
    destruct (Hrest 2%nat ltac:(lia)) as (k & k' & -> & ->).
    rewrite !HTilde0_zero_draw. unfold Complex_sub, Complex_Conjugate; cbn.
    f_equal; ring.
  - change (1 * 2 + 1)%nat with 3%nat.
    destruct (Hrest 3%nat ltac:(lia)) as (k & k' & -> & ->).
    rewrite !HTilde0_zero_draw. unfold Complex_sub, Complex_Conjugate; cbn.
    f_equal; ring.
Qed.

Lemma dft_small_delta (input : list Complex) (h : Complex) (i : nat) :
  input !!! 0%nat = h -> input !!! 1%nat = MkComplex 0 0 ->
  input !!! 2%nat = MkComplex 0 0 -> input !!! 3%nat = MkComplex 0 0 ->
  (i < 4)%nat ->
  dft_small 2 2 input !!! i = MkComplex (m_Real h) (m_Imaginary h).
Proof.
  intros H0 H1 H2 H3 Hi.
  unfold dft_small, twiddle. cbn [seq flat_map map app fold_right Nat.mul Nat.add Nat.even].
  rewrite H0, H1, H2, H3.
  destruct i as [|[|[|[|i]]]]; [| | | |lia];
    cbn; unfold Complex_add, Complex_scale; cbn; f_equal; ring.
Qed.

Lemma tile_raw (i : nat) :
  let raw := execute_plans dft_small (tile 3) (fill_inputs (tile 3) 0) in
  (i < 4)%nat ->
  f_HTilde raw !!! i = MkComplex sigma sigma /\
  f_HTildeSlopeX raw !!! i = MkComplex (sigma * TAU / 3) (- sigma * TAU / 3) /\
  f_HTildeSlopeZ raw !!! i = MkComplex (sigma * TAU / 3) (- sigma * TAU / 3).
Proof.
  intros raw Hi. subst raw. unfold execute_plans.
  cbn [f_HTilde f_HTildeSlopeX f_HTildeSlopeZ].
  change (m_fft_XStride (tile 3)) with 2%nat.
  change (m_fft_ZStride (tile 3)) with 2%nat.
  pose proof (tile_wf 3 ltac:(unfold MIN_DX_DZ; lra)) as Hwf.
  destruct tile_htilde as (T00 & T10 & T01 & T11).
  destruct (fill_inputs_spec (tile 3) 0 0 0 Hwf ltac:(cbn; lia) ltac:(cbn; lia))
    as (A0 & B0 & C0).
  destruct (fill_inputs_spec (tile 3) 0 1 0 Hwf ltac:(cbn; lia) ltac:(cbn; lia))
    as (A1 & B1 & C1).
  destruct (fill_inputs_spec (tile 3) 0 0 1 Hwf ltac:(cbn; lia) ltac:(cbn; lia))
    as (A2 & B2 & C2).
  destruct (fill_inputs_spec (tile 3) 0 1 1 Hwf ltac:(cbn; lia) ltac:(cbn; lia))
    as (A3 & B3 & C3).
  change (m_fft_XStride (tile 3)) with 2%nat in *.
  change (0 * 2 + 0)%nat with 0%nat in *. change (0 * 2 + 1)%nat with 1%nat in *.
  change (1 * 2 + 0)%nat with 2%nat in *. change (1 * 2 + 1)%nat with 3%nat in *.
  rewrite T00 in A0, B0, C0. rewrite T10 in A1, B1, C1.
  rewrite T01 in A2, B2, C2. rewrite T11 in A3, B3, C3.
  rewrite tile_kx in B0. rewrite tile_kz in C0.
  assert (Hz : forall k, Complex_mul (MkComplex 0 0) (MkComplex 0 k) = MkComplex 0 0).
  { intros k. unfold Complex_mul; cbn. f_equal; ring. }
  rewrite Hz in B1, C1, B2, C2, B3, C3.
  split; [|split].
  - rewrite (dft_small_delta _ _ i A0 A1 A2 A3 Hi). reflexivity.
  - rewrite (dft_small_delta _ _ i B0 B1 B2 B3 Hi).
    unfold Complex_mul; cbn. f_equal; field.
  - rewrite (dft_small_delta _ _ i C0 C1 C2 C3 Hi).
    unfold Complex_mul; cbn. f_equal; field.
Qed.

Lemma ripple_cell (x z : nat) :
  (x < 2)%nat -> (z < 2)%nat ->
  let v := ReadBuffer ripple !!! (z * 3 + x)%nat in
  m_Py v = sigma * IZR (flips (z * 3 + x)) /\
  m_Nx v = 0 - sigma * TAU / 3 * IZR (flips (z * 3 + x)) /\
  m_Ny v = 1 /\
  m_Nz v = 0 - sigma * TAU / 3 * IZR (flips (z * 3 + x)).
Proof.
  intros Hx Hz v. subst v. unfold ripple, Update.
  rewrite ReadBuffer_SwapBuffers.
  pose proof (tile_wf 3 ltac:(unfold MIN_DX_DZ; lra)) as Hwf.
  destruct (UpdateFFT_mesh dft_small 0 (tile 3) dft_small_shape Hwf)
    as (_ & Hcells & _).
  change (m_fft_XStride (tile 3)) with 2%nat in Hcells.
  rewrite (Hcells x z Hx Hz). unfold signed_vertex, cell_vertex.
  change (m_fft_XStride (tile 3)) with 2%nat.
  assert (Hi : (z * 2 + x < 4)%nat) by lia.
  destruct (tile_raw (z * 2 + x)%nat Hi) as (-> & -> & ->).
  unfold y_factors. change (m_IMap (tile 3)) with (@None IntensityMap).
  change (m_HeightScale (tile 3)) with 1.
  cbn [m_Py m_Nx m_Ny m_Nz fst snd Complex_Real Complex_scale m_Real].
  generalize (IZR (flips (z * 3 + x))), sigma. intros c s. clear.
  repeat split; lra.
Qed.

Lemma tile_lengths :
  m_XLength (tile 3) = 3 /\ m_ZLength (tile 3) = 3 /\
  m_fft_XStride (tile 3) = 2%nat.
Proof. repeat split; reflexivity. Qed.

Lemma tile_corner_normal :
  m_Nx (WriteBuffer (tile 3) !!! 8%nat) = 0 /\
  m_Ny (WriteBuffer (tile 3) !!! 8%nat) = 1 /\
  m_Nz (WriteBuffer (tile 3) !!! 8%nat) = 0.
Proof. repeat split; reflexivity. Qed.

Lemma ripple_read : ReadBuffer ripple = WriteBuffer (UpdateFFT dft_small 0 (tile 3)).
Proof. unfold ripple, Update. apply ReadBuffer_SwapBuffers. Qed.

Lemma flips_values :
  IZR (flips (0 * 3 + 0)) = 1 /\ IZR (flips (0 * 3 + 1)) = -1 /\
  IZR (flips (1 * 3 + 0)) = -1 /\ IZR (flips (1 * 3 + 1)) = 1.
Proof. repeat split; reflexivity. Qed.

Lemma ripple_cells :
  m_Py (ReadBuffer ripple !!! 0%nat) = sigma /\
  m_Py (ReadBuffer ripple !!! 1%nat) = - sigma /\
  m_Py (ReadBuffer ripple !!! 3%nat) = - sigma /\
  m_Py (ReadBuffer ripple !!! 4%nat) = sigma /\
  m_Nx (ReadBuffer ripple !!! 0%nat) = - (sigma * TAU / 3) /\
  m_Ny (ReadBuffer ripple !!! 0%nat) = 1 /\
  m_Nz (ReadBuffer ripple !!! 0%nat) = - (sigma * TAU / 3).
Proof.
  destruct flips_values as (F0 & F1 & F3 & F4).
  pose proof (ripple_cell 0 0 ltac:(lia) ltac:(lia)) as (P0 & N0 & Y0 & Z0).
  pose proof (ripple_cell 1 0 ltac:(lia) ltac:(lia)) as (P1 & _).
  pose proof (ripple_cell 0 1 ltac:(lia) ltac:(lia)) as (P3 & _).
  pose proof (ripple_cell 1 1 ltac:(lia) ltac:(lia)) as (P4 & _).
  rewrite F0 in P0, N0, Z0. rewrite F1 in P1. rewrite F3 in P3. rewrite F4 in P4.
  change (0 * 3 + 0)%nat with 0%nat in P0, N0, Y0, Z0.
  change (0 * 3 + 1)%nat with 1%nat in P1.
  change (1 * 3 + 0)%nat with 3%nat in P3.
  change (1 * 3 + 1)%nat with 4%nat in P4.
  split; [exact (eq_trans P0 (Rmult_1_r sigma))|].
  split; [rewrite P1; generalize sigma; clear; intros; lra|].
  split; [rewrite P3; generalize sigma; clear; intros; lra|].
  split; [exact (eq_trans P4 (Rmult_1_r sigma))|].
  split; [rewrite N0; generalize sigma, TAU; clear; intros; lra|].
  split; [exact Y0|].
  rewrite Z0; generalize sigma, TAU; clear; intros; lra.
Qed.

Lemma tile_update_seam :
  let wb := WriteBuffer (UpdateFFT dft_small 0 (tile 3)) in
  let wb0 := WriteBuffer (tile 3) in
  wb !!! 2%nat = attached 3 0 (wb !!! 0%nat) (wb0 !!! 2%nat) /\
  wb !!! 5%nat = attached 3 0 (wb !!! 3%nat) (wb0 !!! 5%nat) /\
  wb !!! 6%nat = attached 0 3 (wb !!! 0%nat) (wb0 !!! 6%nat) /\
  wb !!! 7%nat = attached 0 3 (wb !!! 1%nat) (wb0 !!! 7%nat) /\
  wb !!! 8%nat = corner_vertex (tile 3) (wb !!! 0%nat) (wb0 !!! 8%nat).
Proof.
  intros wb wb0.
  pose proof (tile_wf 3 ltac:(unfold MIN_DX_DZ; lra)) as Hwf.
  destruct tile_lengths as (EX & EZ & E2).
  destruct (UpdateFFT_mesh dft_small 0 (tile 3) dft_small_shape Hwf)
    as (_ & _ & Hcol & Hrow & Hcorner & _).
  rewrite E2 in Hcol, Hrow, Hcorner. rewrite EX in Hcol. rewrite EZ in Hrow.
  split; [exact (Hcol 0%nat ltac:(lia))|].
  split; [exact (Hcol 1%nat ltac:(lia))|].
  split; [exact (Hrow 0%nat ltac:(lia))|].
  split; [exact (Hrow 1%nat ltac:(lia))|].
  exact (Hcorner ltac:(lia)).
Qed.

Lemma ripple_seam :
  let v := fun i => ReadBuffer ripple !!! i in
  v 2%nat = attached 3 0 (v 0%nat) (WriteBuffer (tile 3) !!! 2%nat) /\
  v 5%nat = attached 3 0 (v 3%nat) (WriteBuffer (tile 3) !!! 5%nat) /\
  v 6%nat = attached 0 3 (v 0%nat) (WriteBuffer (tile 3) !!! 6%nat) /\
  v 7%nat = attached 0 3 (v 1%nat) (WriteBuffer (tile 3) !!! 7%nat) /\
  v 8%nat = corner_vertex (tile 3) (v 0%nat) (WriteBuffer (tile 3) !!! 8%nat).
Proof.
  cbv zeta beta. rewrite ripple_read. exact tile_update_seam.
Qed.

Lemma attached_fields (x_offset z_offset : R) (og_vert update_vert : Vertex) :
  let v := attached x_offset z_offset og_vert update_vert in
  m_Px v = m_Px og_vert + x_offset /\ m_Py v = m_Py og_vert /\
  m_Pz v = m_Pz og_vert + z_offset /\
  m_Nx v = m_Nx og_vert /\ m_Ny v = m_Ny og_vert /\ m_Nz v = m_Nz og_vert.
Proof. repeat split. Qed.

Lemma corner_vertex_fields (w : WaterFFT) (og_vert update_vert : Vertex) :
  let v := corner_vertex w og_vert update_vert in
  m_Px v = m_Px og_vert + m_XLength w /\ m_Py v = m_Py og_vert /\
  m_Pz v = m_Pz og_vert + m_ZLength w /\
  m_Nx v = m_Nx update_vert /\ m_Ny v = m_Ny update_vert /\
  m_Nz v = m_Nz update_vert.
Proof. repeat split. Qed.

Lemma ripple_mesh :
  m_Py (ReadBuffer ripple !!! 0%nat) = sigma /\
  m_Py (ReadBuffer ripple !!! 1%nat) = - sigma /\
  m_Py (ReadBuffer ripple !!! 2%nat) = sigma /\
  m_Py (ReadBuffer ripple !!! 3%nat) = - sigma /\
  m_Py (ReadBuffer ripple !!! 4%nat) = sigma /\
  m_Py (ReadBuffer ripple !!! 5%nat) = - sigma /\
  m_Py (ReadBuffer ripple !!! 6%nat) = sigma /\
  m_Py (ReadBuffer ripple !!! 7%nat) = - sigma /\
  m_Py (ReadBuffer ripple !!! 8%nat) = sigma /\
  m_Px (ReadBuffer ripple !!! 8%nat) = m_Px (ReadBuffer ripple !!! 0%nat) + 3 /\
  m_Pz (ReadBuffer ripple !!! 8%nat) = m_Pz (ReadBuffer ripple !!! 0%nat) + 3 /\
  m_Nx (ReadBuffer ripple !!! 0%nat) = - (sigma * TAU / 3) /\
  m_Ny (ReadBuffer ripple !!! 0%nat) = 1 /\
  m_Nz (ReadBuffer ripple !!! 0%nat) = - (sigma * TAU / 3) /\
  m_Nx (ReadBuffer ripple !!! 8%nat) = 0 /\
  m_Ny (ReadBuffer ripple !!! 8%nat) = 1 /\
  m_Nz (ReadBuffer ripple !!! 8%nat) = 0.
Proof.
  destruct ripple_cells as (P0 & P1 & P3 & P4 & N0 & Y0 & Z0).
  destruct ripple_seam as (C2 & C5 & C6 & C7 & C8).
  destruct tile_corner_normal as (NX & NY & NZ).
  destruct tile_lengths as (EX & EZ & _).
  rewrite C2, C5, C6, C7, C8.
  destruct (attached_fields 3 0 (ReadBuffer ripple !!! 0%nat)
              (WriteBuffer (tile 3) !!! 2%nat)) as (_ & -> & _).
  destruct (attached_fields 3 0 (ReadBuffer ripple !!! 3%nat)
              (WriteBuffer (tile 3) !!! 5%nat)) as (_ & -> & _).
  destruct (attached_fields 0 3 (ReadBuffer ripple !!! 0%nat)
              (WriteBuffer (tile 3) !!! 6%nat)) as (_ & -> & _).
  destruct (attached_fields 0 3 (ReadBuffer ripple !!! 1%nat)
              (WriteBuffer (tile 3) !!! 7%nat)) as (_ & -> & _).
  destruct (corner_vertex_fields (tile 3) (ReadBuffer ripple !!! 0%nat)
              (WriteBuffer (tile 3) !!! 8%nat))
    as (-> & -> & -> & -> & -> & ->).
  rewrite EX, EZ, NX, NY, NZ.
  split; [exact P0|]. split; [exact P1|]. split; [exact P0|].
  split; [exact P3|]. split; [exact P4|]. split; [exact P3|].
  split; [exact P0|]. split; [exact P1|]. split; [exact P0|].
  split; [exact eq_refl|]. split; [exact eq_refl|].
  split; [exact N0|]. split; [exact Y0|]. split; [exact Z0|].
  split; [exact eq_refl|]. split; exact eq_refl.
Qed.

(** C5, at the object built for [grid_dimension = 2],
    [meter_dimension = 3], after [Update(0)] and the buffer swap: the
    corner vertex has the position of the origin vertex moved by
    (3, 0, 3), but its normal is still the (0, 1, 0) of the constructor
    while the origin's normal has x component [- sigma * TAU / 3 < 0].
    [UpdateFFT] copies the normal for the last column and the last row
    and not for the corner. *)
Theorem corner_normal_not_stitched :
  WaterFFT_new 1 one_seed 2 3 = Constructed (tile 3) /\
  m_Px (ReadBuffer ripple !!! 8%nat) = m_Px (ReadBuffer ripple !!! 0%nat) + 3 /\
  m_Py (ReadBuffer ripple !!! 8%nat) = m_Py (ReadBuffer ripple !!! 0%nat) /\
  m_Pz (ReadBuffer ripple !!! 8%nat) = m_Pz (ReadBuffer ripple !!! 0%nat) + 3 /\
  m_Nx (ReadBuffer ripple !!! 8%nat) = 0 /\
  m_Nx (ReadBuffer ripple !!! 0%nat) < 0 /\
  m_Nx (ReadBuffer ripple !!! 8%nat) <> m_Nx (ReadBuffer ripple !!! 0%nat).
Proof.
  destruct ripple_mesh
    as (P0 & _ & _ & _ & _ & _ & _ & _ & P8 & X8 & Z8 & N0 & _ & _ & N8 & _).
  split; [apply tile_constructed; unfold MIN_DX_DZ; lra|].
  split; [exact X8|]. split; [exact (eq_trans P8 (eq_sym P0))|].
  split; [exact Z8|]. split; [exact N8|].
  rewrite N8, N0. generalize sigma_pos. generalize sigma.
  clear. intros s Hs.
  assert (0 < TAU) by (unfold TAU; lra).
  assert (0 < s * TAU) by (apply Rmult_lt_0_compat; assumption).
  split; lra.
Qed.

(** ** Height queries on the 2 by 2 grid of side 3 *)

Lemma float_to_unsigned_eq (r : R) (z : Z) :
  (0 <= z)%Z -> IZR z <= r < IZR z + 1 -> float_to_unsigned r = z.
Proof.
  intros Hz [Hlo Hhi]. unfold float_to_unsigned.
  assert (0 <= IZR z) by (apply (IZR_le 0); exact Hz).
  destruct (Rle_dec 0 r) as [_|Hn]; [|lra].
  symmetry. apply Int_part_spec. lra.
Qed.

Lemma wrap_inside (fuel : nat) (x m : R) :
  0 <= x < m -> wrap (S fuel) x m = Some x.
Proof.
  intros [Hlo Hhi]. unfold wrap. rewrite wrap_down_small by exact Hhi.
  cbn. destruct (Rlt_dec x 0); [lra | reflexivity].
Qed.

Lemma wrap_above (fuel : nat) (x m : R) (g : Z) :
  0 < m -> (1 <= g)%Z -> IZR g * m <= x < (IZR g + 1) * m ->
  wrap (S fuel) x m = Some (x - IZR g * m).
Proof.
  intros Hm Hg [Hlo Hhi]. unfold wrap, wrap_down.
  assert (1 <= IZR g) by (apply (IZR_le 1); exact Hg).
  destruct (Rge_dec x m) as [_|Hn]; [|nra].
  assert (Hq : float_to_unsigned (x / m) = g).
  { apply float_to_unsigned_eq; [lia|].
    assert (0 < / m) by (apply Rinv_0_lt_compat; exact Hm).
    replace (IZR g) with (IZR g * m * / m) by (field; lra).
    replace (IZR g * m * / m + 1) with ((IZR g + 1) * m * / m) by (field; lra).
    unfold Rdiv. split.
    - apply Rmult_le_compat_r; lra.
    - apply Rmult_lt_compat_r; lra. }
  rewrite Hq. cbn. destruct (Rlt_dec (x - IZR g * m) 0); [lra | reflexivity].
Qed.

Lemma GetLocationHeightFFT_eq (w : WaterFFT) (v : nat) (xt zt ha hb hc hd : R) :
  m_Py (ReadBuffer w !!! v) = ha ->
  m_Py (ReadBuffer w !!! (v + 1)%nat) = hb ->
  m_Py (ReadBuffer w !!! (v + m_XStride w)%nat) = hc ->
  m_Py (ReadBuffer w !!! (v + m_XStride w + 1)%nat) = hd ->
  GetLocationHeightFFT w (MkMeshPosition v xt zt) =
    ha + (hb - ha) * xt + (hc + (hd - hc) * xt - (ha + (hb - ha) * xt)) * zt.
Proof.
  intros <- <- <- <-. reflexivity.
Qed.

Lemma SwapBuffers_strides (w : WaterFFT) :
  m_XStride (SwapBuffers w) = m_XStride w /\
  m_ZStride (SwapBuffers w) = m_ZStride w /\
  m_XLength (SwapBuffers w) = m_XLength w.
Proof. repeat split. Qed.

Lemma ripple_strides :
  m_XStride ripple = 3%nat /\ m_ZStride ripple = 3%nat /\ m_XLength ripple = 3.
Proof.
  unfold ripple, Update.
  destruct (SwapBuffers_strides (UpdateFFT dft_small 0 (tile 3))) as (-> & -> & ->).
  destruct (UpdateFFT_fields dft_small 0 (tile 3))
    as (-> & -> & _ & _ & _ & -> & _).
  destruct (tile_fields 3) as (_ & _ & -> & -> & _ & -> & _).
  repeat split.
Qed.

Lemma ripple_position (x rx : R) (xi : Z) :
  wrap 1 (x + 3 / 2) 2 = Some rx ->
  (0 <= xi)%Z -> IZR xi <= rx < IZR xi + 1 ->
  LocationToMeshPosition 1 ripple (MkVec2 x 0.25) =
    Some (MkMeshPosition (1 * 3 + Z.to_nat xi) (rx - IZR xi) (7 / 4 - 1)).
Proof.
  intros Hx Hxi Hrx.
  destruct ripple_strides as (HX & HZ & _).
  assert (Hz : wrap 1 (0.25 + 3 / 2) 2 = Some (7 / 4)).
  { replace (0.25 + 3 / 2) with (7 / 4) by lra. apply wrap_inside. lra. }
  assert (Ez : float_to_unsigned (7 / 4) = 1%Z)
    by (apply float_to_unsigned_eq; [lia | lra]).
  assert (Ex : float_to_unsigned rx = xi)
    by (apply float_to_unsigned_eq; assumption).
  rewrite (LocationToMeshPosition_wrap 1 ripple (MkVec2 x 0.25) rx (7 / 4)).
  - rewrite Ez, Ex, HX. reflexivity.
  - rewrite HX. cbn [vx Nat.sub INR]. 
    replace ((1 + 1 + 1) / 2) with (3 / 2) by lra.
    replace (1 + 1) with 2 by lra. exact Hx.
  - rewrite HZ. cbn [vy Nat.sub INR].
    replace ((1 + 1 + 1) / 2) with (3 / 2) by lra.
    replace (1 + 1) with 2 by lra. exact Hz.
Qed.

(** C6 fails where the side length is not a multiple of the grid
    dimension: on the 2 by 2 grid of side 3, after [Update(0)] and the
    swap, the height at (0.25, 0.25) is [sigma / 4] and the height one
    side length further along x is [- sigma / 4]. *)
Lemma HeightAtLocation_not_length_periodic :
  WaterFFT_new 1 one_seed 2 3 = Constructed (tile 3) /\
  m_XLength ripple = 3 /\
  HeightAtLocation 1 ripple (MkVec2 0.25 0.25) = Some (sigma / 4) /\
  HeightAtLocation 1 ripple (MkVec2 (0.25 + 3) 0.25) = Some (- sigma / 4) /\
  sigma / 4 <> - sigma / 4.
Proof.
  destruct ripple_mesh
    as (P0 & P1 & P2 & P3 & P4 & P5 & P6 & P7 & P8 & _).
  destruct ripple_strides as (HX & HZ & HL).
  split; [apply tile_constructed; unfold MIN_DX_DZ; lra|].
  split; [exact HL|].
  split; [|split].
  - unfold HeightAtLocation.
    rewrite (ripple_position 0.25 (7 / 4) 1).
    + change (1 * 3 + Z.to_nat 1)%nat with 4%nat.
      rewrite (GetLocationHeightFFT_eq ripple 4 _ _ sigma (- sigma) (- sigma) sigma).
      * f_equal. generalize sigma. clear. intros s. lra.
      * exact P4.
      * exact P5.
      * rewrite HX. exact P7.
      * rewrite HX. exact P8.
    + replace (0.25 + 3 / 2) with (7 / 4) by lra. apply wrap_inside. lra.
    + lia.
    + lra.
  - unfold HeightAtLocation.
    rewrite (ripple_position (0.25 + 3) (3 / 4) 0).
    + change (1 * 3 + Z.to_nat 0)%nat with 3%nat.
      rewrite (GetLocationHeightFFT_eq ripple 3 _ _ (- sigma) sigma sigma (- sigma)).
      * f_equal. generalize sigma. clear. intros s. lra.
      * exact P3.
      * exact P4.
      * rewrite HX. exact P6.
      * rewrite HX. exact P7.
    + replace (0.25 + 3 + 3 / 2) with (19 / 4) by lra.
      replace (3 / 4) with (19 / 4 - IZR 2 * 2) by lra.
      apply wrap_above; [lra | lia | lra].
    + lia.
    + lra.
  - generalize sigma_pos. generalize sigma. clear. intros s Hs. lra.
Qed.

(** ** Instances *)

Lemma MIN_DX_DZ_le_3 : MIN_DX_DZ <= 3.
Proof. unfold MIN_DX_DZ. lra. Qed.

Lemma MIN_DX_DZ_le_2 : MIN_DX_DZ <= 2.
Proof. unfold MIN_DX_DZ. lra. Qed.


Lemma failed_decode_on_tile :
  snd (UseIntensityMap (fun _ => None) 0 0 "intensity0.png" (tile 3)) = true /\
  m_IMap (fst (UseIntensityMap (fun _ => None) 0 0 "intensity0.png" (tile 3)))
    <> None.
Proof.
  destruct (failed_decode_keeps_map_attached (fun _ => None) 0 0
              "intensity0.png" (tile 3) eq_refl) as (H1 & H2 & _).
  split; [exact H1 | exact H2].
Defined.

Lemma ripple2_wf : wf ripple2.
Proof.
  apply SwapBuffers_wf, UpdateFFT_wf;
    [apply dft_small_shape | apply tile_wf, MIN_DX_DZ_le_2].
Qed.

Lemma SwapBuffers_fft_XStride (w : WaterFFT) :
  m_fft_XStride (SwapBuffers w) = m_fft_XStride w.
Proof. reflexivity. Qed.

Lemma ripple2_fields :
  m_fft_XStride ripple2 = 2%nat /\ m_XLength ripple2 = 2.
Proof.
  unfold ripple2, Update.
  destruct (SwapBuffers_strides (UpdateFFT dft_small 0 (tile 2))) as (_ & _ & ->).
  rewrite SwapBuffers_fft_XStride.
  destruct (UpdateFFT_fields dft_small 0 (tile 2))
    as (_ & _ & _ & -> & _ & -> & _).
  destruct (tile_fields 2) as (-> & _ & _ & _ & _ & -> & _).
  split; exact eq_refl.
Qed.

Lemma HeightAtLocation_grid_period_on_tile :
  exists fuel0, forall fuel, (fuel0 <= fuel)%nat ->
  exists h,
    HeightAtLocation fuel ripple2 (MkVec2 0.25 0.25) = Some h /\
    HeightAtLocation fuel ripple2 (MkVec2 (0.25 + m_XLength ripple2) 0.25)
      = Some h.
Proof.
  destruct ripple2_fields as (Hn & HL).
  apply (HeightAtLocation_grid_period ripple2 (MkVec2 0.25 0.25) 1).
  - exact ripple2_wf.
  - rewrite Hn. lia.
  - rewrite Hn, HL. cbn [INR]. lra.
  - apply (conversions_defined_small _ _ ripple2_wf); cbn [vx vy];
      [rewrite Hn; lia | lra | lra].
  - apply (conversions_defined_small _ _ ripple2_wf); cbn [vx vy];
      [rewrite Hn; lia | rewrite HL; lra | lra].
Defined.

(** ** The threading harness *)

Section HarnessProperties.

Variable fftwf_execute : nat -> nat -> list Complex -> list Complex.
Variable fetch_time : nat -> R.

Lemma reachable_trans (s t u : Harness) :
  reachable fftwf_execute fetch_time s t ->
  reachable fftwf_execute fetch_time t u ->
  reachable fftwf_execute fetch_time s u.
Proof.
  intros Hst Htu. induction Htu as [|v u _ IH Hstep]; [exact Hst|].
  eapply reachable_step; [exact IH | exact Hstep].
Qed.

Lemma move_step (m : Move) (s s' : Harness) :
  move fftwf_execute fetch_time m s = Some s' -> step fftwf_execute fetch_time s s'.
Proof.
  destruct m as [|call]; cbn; intros H.
  - apply step_water. exact H.
  - apply (step_main _ _ _ _ call). exact H.
Qed.

Lemma play_reachable (schedule : list Move) :
  forall s s', play fftwf_execute fetch_time schedule s = Some s' ->
  reachable fftwf_execute fetch_time s s'.
Proof.
  induction schedule as [|m schedule IH]; intros s s' H; cbn in H.
  - injection H as <-. apply reachable_refl.
  - destruct (move fftwf_execute fetch_time m s) as [t|] eqn:Hm; [|discriminate].
    eapply reachable_trans; [|apply IH; exact H].
    eapply reachable_step; [apply reachable_refl | apply (move_step m); exact Hm].
Qed.

Lemma lost_wakeup_hangs (water : WaterFFT) :
  play fftwf_execute fetch_time lost_wakeup (Execute water) =
    Some (hung fftwf_execute fetch_time water).
Proof. reflexivity. Qed.

Lemma hung_stuck (water : WaterFFT) (s' : Harness) :
  ~ step fftwf_execute fetch_time (hung fftwf_execute fetch_time water) s'.
Proof.
  intros [H|call H]; cbn in H; discriminate.
Qed.

Lemma notify_all_main_pc (s : Harness) :
  main_pc (notify_all s) = TermReturned -> main_pc s = TermReturned.
Proof.
  unfold notify_all; cbn. destruct (main_pc s); try discriminate; reflexivity.
Qed.

Lemma barrier_step_main_pc (self : Thread) (b : BarrierPc) (s s' : Harness)
    (next : option BarrierPc) :
  barrier_step self b s = Some (s', next) ->
  main_pc s' = TermReturned -> main_pc s = TermReturned.
Proof.
  intros H Hpc.
  destruct b as [[|]| | | | | | | | | | | |]; cbn in H;
    try destruct (m_KnockedDown s); try destruct (m_Mutex s);
    try destruct (m_ThreadsLeft s =? 0)%Z;
    try discriminate; injection H as <- _; cbn in Hpc;
    try exact Hpc; apply notify_all_main_pc; exact Hpc.
Qed.

Lemma step_joined (s s' : Harness) :
  step fftwf_execute fetch_time s s' -> joined s -> joined s'.
Proof.
  intros [H|call H] Hj Hret; unfold joined in Hj.
  - unfold run_step in H.
    destruct (run_pc s) as [| |b|] eqn:Hpc.
    + injection H as <-. cbn in Hret. specialize (Hj Hret). congruence.
    + injection H as <-. cbn in Hret. specialize (Hj Hret). congruence.
    + destruct (barrier_step WaterThread b s) as [[t [b'|]]|] eqn:Hb;
        [| |discriminate];
        injection H as <-; cbn in Hret;
        pose proof (barrier_step_main_pc _ _ _ _ _ Hb Hret) as Hm;
        specialize (Hj Hm); congruence.
    + discriminate.
  - unfold main_step in H.
    destruct (main_pc s) as [|b| |b| |] eqn:Hpc.
    + destruct call; injection H as <-; cbn in Hret; discriminate.
    + destruct (barrier_step MainThread b s) as [[t [b'|]]|];
        [| |discriminate]; injection H as <-; cbn in Hret; discriminate.
    + injection H as <-. cbn in Hret. discriminate.
    + destruct (barrier_step MainThread b s) as [[t [b'|]]|];
        [| |discriminate]; injection H as <-; cbn in Hret; discriminate.
    + destruct (run_pc s) eqn:Hr; try discriminate.
      injection H as <-. cbn. exact Hr.
    + discriminate.
Qed.

Lemma reachable_joined (s s' : Harness) :
  reachable fftwf_execute fetch_time s s' -> joined s -> joined s'.
Proof.
  intros H Hj. induction H as [|t u _ IH Hstep]; [exact Hj|].
  eapply step_joined; [exact Hstep | exact IH].
Qed.

(** Once [Terminate] has returned nothing moves any more: the water
    thread has left [RunWater] and the buffers keep their content. *)
Lemma Terminate_returned_quiescent (water : WaterFFT) (s : Harness) :
  reachable fftwf_execute fetch_time (Execute water) s ->
  main_pc s = TermReturned ->
  run_pc s = RunExit /\ forall s', ~ step fftwf_execute fetch_time s s'.
Proof.
  intros Hr Hm.
  assert (Hexit : run_pc s = RunExit).
  { apply (reachable_joined _ _ Hr); [|exact Hm]. intros H. discriminate. }
  split; [exact Hexit|].
  intros s' [H|call H].
  - unfold run_step in H. rewrite Hexit in H. discriminate.
  - unfold main_step in H. rewrite Hm in H. discriminate.
Qed.

(** C9, on the schedule [lost_wakeup]: from the state that [Execute]
    leaves, the harness reaches a state in which the main thread stands
    at the join of [Terminate], the water thread is blocked in
    [m_CV.wait] and no thread can take a step: the join never
    completes.  When [Terminate] does return, the water thread has
    finished and nothing moves any more. *)
Theorem Terminate_can_block_forever (water : WaterFFT) :
  reachable fftwf_execute fetch_time (Execute water) (hung fftwf_execute fetch_time water) /\
  main_pc (hung fftwf_execute fetch_time water) = TermJoin /\
  run_pc (hung fftwf_execute fetch_time water) = RunBarrier Blocked /\
  (forall s', ~ step fftwf_execute fetch_time (hung fftwf_execute fetch_time water) s') /\
  (forall s, reachable fftwf_execute fetch_time (Execute water) s ->
     main_pc s = TermReturned ->
     run_pc s = RunExit /\ forall s', ~ step fftwf_execute fetch_time s s').
Proof.
  split; [apply (play_reachable lost_wakeup), lost_wakeup_hangs|].
  split; [reflexivity|]. split; [reflexivity|].
  split; [apply hung_stuck|].
  apply Terminate_returned_quiescent.
Qed.

End HarnessProperties.

(** * Properties of the rest of the code *)

(** ** Complex arithmetic *)

Ltac complex_eq :=
  repeat match goal with c : Complex |- _ => destruct c end;
  unfold Complex_mul, Complex_add, Complex_sub, Complex_scale, Complex_Conjugate;
  cbn [m_Real m_Imaginary]; f_equal; ring.

(** X1: the operators of [Complex] obey the laws of a commutative ring:
    the product commutes, associates, distributes over the sum and has
    the unit (1, 0); a subtraction is undone by the addition; and the
    product with a [float] is the product with the real number (r, 0). *)
Theorem Complex_operators_ring_laws (a b c : Complex) (r : R) :
  Complex_mul a b = Complex_mul b a /\
  Complex_mul (Complex_mul a b) c = Complex_mul a (Complex_mul b c) /\
  Complex_mul a (Complex_add b c) =
    Complex_add (Complex_mul a b) (Complex_mul a c) /\
  Complex_mul a (MkComplex 1 0) = a /\
  Complex_add (Complex_sub a b) b = a /\
  Complex_scale a r = Complex_mul a (MkComplex r 0).
Proof.
  repeat split; complex_eq.
Qed.

(** X2: with [float] as the real numbers (no rounding, no overflow),
    [Conjugate] is an involution that commutes with the sum and with the
    product, and a number times its conjugate is the real number
    re^2 + im^2. *)
Theorem Complex_Conjugate_laws (a b : Complex) :
  Complex_Conjugate (Complex_Conjugate a) = a /\
  Complex_Conjugate (Complex_add a b) =
    Complex_add (Complex_Conjugate a) (Complex_Conjugate b) /\
  Complex_Conjugate (Complex_mul a b) =
    Complex_mul (Complex_Conjugate a) (Complex_Conjugate b) /\
  Complex_mul a (Complex_Conjugate a) =
    MkComplex (m_Real a * m_Real a + m_Imaginary a * m_Imaginary a) 0.
Proof.
  repeat split; complex_eq.
Qed.

(** ** Math helpers *)

Lemma Lerp_between (lo hi a b t : R) :
  lo <= a <= hi -> lo <= b <= hi -> 0 <= t <= 1 -> lo <= Lerp a b t <= hi.
Proof.
  intros Ha Hb Ht. unfold Lerp.
  replace (a + (b - a) * t) with ((1 - t) * a + t * b) by ring.
  split; nra.
Qed.

(** X3: in exact arithmetic ([float] as the real numbers, no rounding),
    [QuadLerp] gives the four samples at the four corners, and for
    parameters in [0, 1] a value between the smallest and the largest
    of the samples. *)
Theorem QuadLerp_between (lo hi a b c d tx ty : R) :
  lo <= a <= hi -> lo <= b <= hi -> lo <= c <= hi -> lo <= d <= hi ->
  0 <= tx <= 1 -> 0 <= ty <= 1 ->
  lo <= QuadLerp a b c d tx ty <= hi /\
  QuadLerp a b c d 0 0 = a /\ QuadLerp a b c d 1 0 = b /\
  QuadLerp a b c d 0 1 = c /\ QuadLerp a b c d 1 1 = d.
Proof.
  intros Ha Hb Hc Hd Hx Hy. split.
  - unfold QuadLerp. apply Lerp_between; [apply Lerp_between ..|]; assumption.
  - unfold QuadLerp, Lerp. repeat split; ring.
Qed.

Lemma QuadLerp_between_example :
  0 <= QuadLerp 0 1 (1 / 2) 1 (1 / 4) (3 / 4) <= 1.
Proof.
  apply (QuadLerp_between 0 1 0 1 (1 / 2) 1 (1 / 4) (3 / 4)); lra.
Defined.

(** X4: for [min <= max], [Clamp] gives a value of [min, max]: the
    value itself when it lies in the range, otherwise the bound it has
    passed. *)
Theorem Clamp_range (min max value : Z) :
  (min <= max)%Z ->
  (min <= Clamp min max value <= max)%Z /\
  ((min <= value <= max)%Z -> Clamp min max value = value) /\
  ((value < min)%Z -> Clamp min max value = min) /\
  ((max < value)%Z -> Clamp min max value = max).
Proof.
  intros H. unfold Clamp. repeat split; lia.
Qed.

Lemma Clamp_range_example : (0 <= Clamp 0 255 300 <= 255)%Z.
Proof.
  apply (Clamp_range 0 255 300). lia.
Defined.

(** ** Intensity map *)

Lemma for_range_ext {S : Type} (n : nat) (body body' : nat -> S -> S) (s : S) :
  (forall i t, (i < n)%nat -> body i t = body' i t) ->
  for_range n body s = for_range n body' s.
Proof.
  intros H. induction n as [|n IH].
  - reflexivity.
  - rewrite !for_range_S, IH by (intros; apply H; lia). apply H. lia.
Qed.

(** One axis of the sample: the pixel of a coordinate of [0, 1) and its
    clamped neighbour lie in the image, the parameter in [0, 1). *)
Lemma sample_axis (t : R) (n : Z) :
  (1 <= n < 2 ^ 32)%Z -> 0 <= t < 1 ->
  let f := t * IZR n in
  let i0 := float_to_unsigned f in
  let i1 := Z.min (wrap32 (i0 + 1)) (wrap32 (n - 1)) in
  (0 <= i0 < n)%Z /\ (0 <= i1 < n)%Z /\ 0 <= f - IZR i0 < 1.
Proof.
  intros Hn Ht f i0 i1.
  assert (Hn' : 1 <= IZR n) by (apply IZR_le; lia).
  assert (Hf : 0 <= f < IZR n) by (unfold f; split; nra).
  destruct (float_to_unsigned_nonneg f (proj1 Hf)) as [H0 [Hlo Hhi]].
  fold i0 in H0, Hlo, Hhi.
  assert (Hi0 : (i0 < n)%Z) by (apply lt_IZR; lra).
  assert (Hw : (0 <= wrap32 (i0 + 1))%Z) by (unfold wrap32; apply Z.mod_pos_bound; lia).
  assert (Hm : wrap32 (n - 1) = (n - 1)%Z) by (apply wrap32_small; lia).
  unfold i1. rewrite Hm. repeat split; try lia; lra.
Qed.

Lemma pixel_index (width height xi yi : Z) :
  (0 <= xi < width)%Z -> (0 <= yi < height)%Z -> (width * height < 2 ^ 32)%Z ->
  wrap32 (yi * width + xi) = (yi * width + xi)%Z /\
  (0 <= yi * width + xi < width * height)%Z.
Proof.
  intros Hx Hy Hwh.
  assert (H : (0 <= yi * width + xi < width * height)%Z) by nia.
  split; [apply wrap32_small; lia | exact H].
Qed.

Lemma pixel_value (data : list Z) (width height i : Z) :
  image data width height -> (0 <= i < width * height)%Z ->
  (0 <= nth (Z.to_nat i) data 0 <= 255)%Z.
Proof.
  intros (_ & _ & _ & Hlen & Hall) Hi.
  apply (proj1 (List.Forall_forall _ _) Hall), nth_In. lia.
Qed.

Lemma IntensityMap_new_decoded stbi_load (stale_w stale_h : Z) (filename : string)
    (data : list Z) (width height : Z) :
  stbi_load filename = Some (data, width, height) ->
  IntensityMap_new stbi_load stale_w stale_h filename =
    MkIntensityMap filename (Some data) width height
      (wrap32 (width - 1)) (wrap32 (height - 1)).
Proof.
  intros H. unfold IntensityMap_new. rewrite H. reflexivity.
Qed.

(** What [GetIntensity] computes on a decoded image: four samples inside
    the image, blended with parameters of [0, 1). *)
Lemma GetIntensity_samples
    (stbi_load : string -> option (list Z * Z * Z)) (stale_w stale_h : Z)
    (filename : string) (data : list Z) (width height : Z) (x z : R) :
  stbi_load filename = Some (data, width, height) ->
  image data width height ->
  0 <= x < 1 -> 0 <= z < 1 ->
  let im := IntensityMap_new stbi_load stale_w stale_h filename in
  exists ai bi ci di tx ty,
    GetIntensity_indices im x z = [ai; bi; ci; di] /\
    Forall (fun i => (0 <= i < width * height)%Z) [ai; bi; ci; di] /\
    0 <= tx < 1 /\ 0 <= ty < 1 /\
    GetIntensity im x z =
      QuadLerp (IZR (nth (Z.to_nat ai) data 0%Z) / 255)
        (IZR (nth (Z.to_nat bi) data 0%Z) / 255)
        (IZR (nth (Z.to_nat ci) data 0%Z) / 255)
        (IZR (nth (Z.to_nat di) data 0%Z) / 255) tx ty.
Proof.
  intros Hload Himg Hx Hz im.
  pose proof Himg as (Hw & Hh & Hwh & Hlen & Hall).
  unfold im. rewrite (IntensityMap_new_decoded _ _ _ _ _ _ _ Hload).
  destruct (sample_axis x width) as (Hx0 & Hx1 & Hxt); [nia | exact Hx |].
  destruct (sample_axis z height) as (Hz0 & Hz1 & Hzt); [nia | exact Hz |].
  cbv zeta in Hx0, Hx1, Hxt, Hz0, Hz1, Hzt.
  unfold GetIntensity_indices, GetIntensity, data_at.
  cbn [m_Width m_Height m_MaxX m_MaxY m_Data].
  set (xi0 := float_to_unsigned (x * IZR width)) in *.
  set (yi0 := float_to_unsigned (z * IZR height)) in *.
  set (xi1 := Z.min (wrap32 (xi0 + 1)) (wrap32 (width - 1))) in *.
  set (yi1 := Z.min (wrap32 (yi0 + 1)) (wrap32 (height - 1))) in *.
  destruct (pixel_index width height xi0 yi0 Hx0 Hz0 Hwh) as [-> Ha].
  destruct (pixel_index width height xi1 yi0 Hx1 Hz0 Hwh) as [-> Hb].
  destruct (pixel_index width height xi0 yi1 Hx0 Hz1 Hwh) as [-> Hc].
  destruct (pixel_index width height xi1 yi1 Hx1 Hz1 Hwh) as [-> Hd].
  eexists _, _, _, _, _, _.
  split; [reflexivity|].
  split; [repeat (constructor; [assumption|]); constructor|].
  split; [exact Hxt|]. split; [exact Hzt|]. reflexivity.
Qed.

(** X5: on a decoded image and coordinates of [0, 1), the four samples
    that [GetIntensity] reads lie inside [m_Data], and the intensity is a
    value of [0, 1]. *)
Theorem GetIntensity_reads_inside_image
    (stbi_load : string -> option (list Z * Z * Z)) (stale_w stale_h : Z)
    (filename : string) (data : list Z) (width height : Z) (x z : R) :
  stbi_load filename = Some (data, width, height) ->
  image data width height ->
  0 <= x < 1 -> 0 <= z < 1 ->
  let im := IntensityMap_new stbi_load stale_w stale_h filename in
  Forall (fun i => (0 <= i < Z.of_nat (length data))%Z)
    (GetIntensity_indices im x z) /\
  0 <= GetIntensity im x z <= 1.
Proof.
  intros Hload Himg Hx Hz im.
  destruct (GetIntensity_samples stbi_load stale_w stale_h filename data
              width height x z Hload Himg Hx Hz)
    as (ai & bi & ci & di & tx & ty & Hidx & Hin & Htx & Hty & Hval).
  fold im in Hidx, Hval. rewrite Hidx, Hval.
  pose proof Himg as (Hw & Hh & Hwh & Hlen & Hall).
  split.
  - rewrite Hlen, Z2Nat.id by lia. exact Hin.
  - assert (Hv : forall i, (0 <= i < width * height)%Z ->
               0 <= IZR (nth (Z.to_nat i) data 0%Z) / 255 <= 1).
    { intros i Hi. destruct (pixel_value data width height i Himg Hi) as [Hlo Hhi].
      apply IZR_le in Hlo, Hhi. split.
      - apply Rmult_le_pos; lra.
      - apply Rmult_le_reg_r with 255; [lra|]. unfold Rdiv.
        rewrite Rmult_assoc, Rinv_l by lra. lra. }
    inversion Hin as [|? ? Ha Hin1]; subst.
    inversion Hin1 as [|? ? Hb Hin2]; subst.
    inversion Hin2 as [|? ? Hc Hin3]; subst.
    inversion Hin3 as [|? ? Hd _]; subst.
    unfold QuadLerp.
    apply Lerp_between; [apply Lerp_between; auto; lra .. | lra].
Qed.

Lemma GetIntensity_reads_inside_image_example :
  0 <= GetIntensity
         (IntensityMap_new (fun _ => Some ([255; 0; 0; 255]%Z, 2%Z, 2%Z)) 0 0
            "intensity0.png") (1 / 4) (3 / 4) <= 1.
Proof.
  apply (GetIntensity_reads_inside_image
           (fun _ => Some ([255; 0; 0; 255]%Z, 2%Z, 2%Z)) 0 0 "intensity0.png"
           [255; 0; 0; 255]%Z 2 2 (1 / 4) (3 / 4) eq_refl).
  - unfold image. repeat split; try lia; try reflexivity.
    repeat constructor; lia.
  - lra.
  - lra.
Defined.

(** An image that is white everywhere has intensity 1 everywhere. *)
Lemma GetIntensity_white
    (stbi_load : string -> option (list Z * Z * Z)) (stale_w stale_h : Z)
    (filename : string) (data : list Z) (width height : Z) (x z : R) :
  stbi_load filename = Some (data, width, height) ->
  image data width height ->
  Forall (fun b => b = 255%Z) data ->
  0 <= x < 1 -> 0 <= z < 1 ->
  GetIntensity (IntensityMap_new stbi_load stale_w stale_h filename) x z = 1.
Proof.
  intros Hload Himg Hwhite Hx Hz.
  destruct (GetIntensity_samples stbi_load stale_w stale_h filename data
              width height x z Hload Himg Hx Hz)
    as (ai & bi & ci & di & tx & ty & _ & Hin & _ & _ & Hval).
  rewrite Hval.
  destruct Himg as (Hw & Hh & Hwh & Hlen & Hall).
  assert (Hv : forall i, (0 <= i < width * height)%Z ->
             nth (Z.to_nat i) data 0%Z = 255%Z).
  { intros i Hi. apply (proj1 (List.Forall_forall _ _) Hwhite), nth_In. lia. }
  inversion Hin as [|? ? Ha Hin1]; subst.
  inversion Hin1 as [|? ? Hb Hin2]; subst.
  inversion Hin2 as [|? ? Hc Hin3]; subst.
  inversion Hin3 as [|? ? Hd _]; subst.
  rewrite !Hv by assumption. unfold QuadLerp, Lerp. field.
Qed.

Lemma unit_coordinate (x n : nat) : (x < n)%nat -> 0 <= INR x / INR n < 1.
Proof.
  intros H. assert (Hn : 0 < INR n) by (apply lt_0_INR; lia).
  assert (Hx : 0 <= INR x) by apply pos_INR.
  assert (Hxn : INR x < INR n) by (apply lt_INR; exact H).
  split.
  - apply Rmult_le_pos; [exact Hx | left; apply Rinv_0_lt_compat; exact Hn].
  - apply Rmult_lt_reg_r with (INR n); [exact Hn|]. unfold Rdiv.
    rewrite Rmult_assoc, Rinv_l by lra. lra.
Qed.

(** [UpdateFFT] reads the intensity map through [y_factors] only. *)
Lemma UpdateFFT_set_IMap fftwf_execute (time : R) (w : WaterFFT)
    (m : option IntensityMap) :
  (forall x z, (x < m_fft_XStride w)%nat -> (z < m_fft_ZStride w)%nat ->
     y_factors (set_IMap w m) x z = y_factors w x z) ->
  UpdateFFT fftwf_execute time (set_IMap w m) =
    set_IMap (UpdateFFT fftwf_execute time w) m.
Proof.
  intros Hy. unfold UpdateFFT.
  change (fill_inputs (set_IMap w m) time) with (fill_inputs w time).
  change (execute_plans fftwf_execute (set_IMap w m)) with
    (execute_plans fftwf_execute w).
  change (WriteBuffer (set_IMap w m)) with (WriteBuffer w).
  set (raw := execute_plans fftwf_execute w (fill_inputs w time)).
  assert (Hs : synthesize (set_IMap w m) raw (WriteBuffer w) =
               synthesize w raw (WriteBuffer w)).
  { unfold synthesize. change (m_fft_ZStride (set_IMap w m)) with (m_fft_ZStride w).
    apply for_range_ext. intros z s Hz. unfold synth_row.
    change (m_fft_XStride (set_IMap w m)) with (m_fft_XStride w).
    rewrite (for_range_ext (m_fft_XStride w) (synth_cell (set_IMap w m) z)
               (synth_cell w z)); [reflexivity|].
    intros x t Hx. unfold synth_cell, cell_vertex.
    rewrite (Hy x z Hx Hz). reflexivity. }
  rewrite Hs.
  unfold set_WriteBuffer, set_Out, set_In, set_IMap, set_buffers,
    UpdateTailEdge, update_corner.
  cbn [m_WriteBuffer m_XStride m_ZStride m_NumVerts m_XLength m_ZLength].
  destruct (m_WriteBuffer w); reflexivity.
Qed.

(** X6: an intensity map that is white everywhere changes nothing:
    [Update] writes the same two vertex buffers and the same outputs as
    it does on the object without a map. *)
Theorem white_intensity_map_changes_nothing fftwf_execute (time : R)
    (stbi_load : string -> option (list Z * Z * Z)) (stale_w stale_h : Z)
    (filename : string) (data : list Z) (width height : Z) (w : WaterFFT) :
  wf w ->
  stbi_load filename = Some (data, width, height) ->
  image data width height ->
  Forall (fun b => b = 255%Z) data ->
  let with_map := fst (UseIntensityMap stbi_load stale_w stale_h filename w) in
  let without := fst (RemoveIntensityMap w) in
  m_VertexBufferA (Update fftwf_execute time with_map) =
    m_VertexBufferA (Update fftwf_execute time without) /\
  m_VertexBufferB (Update fftwf_execute time with_map) =
    m_VertexBufferB (Update fftwf_execute time without) /\
  m_Out (Update fftwf_execute time with_map) =
    m_Out (Update fftwf_execute time without).
Proof.
  intros Hwf Hload Himg Hwhite with_map without.
  set (im := IntensityMap_new stbi_load stale_w stale_h filename).
  assert (Hnone : m_IMap without = None).
  { unfold without, RemoveIntensityMap. destruct (m_IMap w) eqn:E; [reflexivity | exact E]. }
  assert (Hsame : m_fft_XStride without = m_fft_XStride w /\
                  m_fft_ZStride without = m_fft_ZStride w).
  { unfold without, RemoveIntensityMap. destruct (m_IMap w); split; reflexivity. }
  destruct Hsame as [HX HZ].
  assert (Hwith : with_map = set_IMap without (Some im)) by reflexivity.
  assert (Hy : forall x z, (x < m_fft_XStride without)%nat ->
             (z < m_fft_ZStride without)%nat ->
             y_factors (set_IMap without (Some im)) x z = y_factors without x z).
  { intros x z Hx Hz. unfold y_factors. rewrite Hnone.
    cbn [set_IMap m_IMap m_HeightScale m_fft_XStride].
    rewrite HZ, (wf_fft_ZStride w Hwf), <- HX in Hz.
    unfold im. rewrite (GetIntensity_white stbi_load stale_w stale_h filename
      data width height _ _ Hload Himg Hwhite
      (unit_coordinate x _ Hx) (unit_coordinate z _ Hz)).
    destruct (Req_dec_T 1 0) as [E|_]; [lra|].
    f_equal; unfold Rdiv; rewrite ?Rinv_1; ring. }
  unfold Update. rewrite Hwith, (UpdateFFT_set_IMap _ _ _ _ Hy).
  repeat split.
Qed.

Lemma white_intensity_map_on_tile :
  m_VertexBufferB
    (Update dft_small 0
       (fst (UseIntensityMap (fun _ => Some ([255; 255; 255; 255]%Z, 2%Z, 2%Z))
               0 0 "intensity0.png" (tile 3)))) =
  m_VertexBufferB (Update dft_small 0 (fst (RemoveIntensityMap (tile 3)))).
Proof.
  refine (proj1 (proj2 (white_intensity_map_changes_nothing dft_small 0
    (fun _ => Some ([255; 255; 255; 255]%Z, 2%Z, 2%Z)) 0 0 "intensity0.png"
    [255; 255; 255; 255]%Z 2 2 (tile 3) (tile_wf 3 MIN_DX_DZ_le_3) eq_refl _ _))).
  - unfold image. repeat split; try lia; try reflexivity.
    repeat (constructor; [lia|]). constructor.
  - repeat (constructor; [reflexivity|]). constructor.
Defined.

(** X7: [RemoveIntensityMap] leaves no map attached and answers whether
    there was one; a second call answers [false] and changes nothing;
    and removing a map right after [UseIntensityMap] answers [true] and
    gives the object that removing alone would have given. *)
Theorem RemoveIntensityMap_detaches
    (stbi_load : string -> option (list Z * Z * Z)) (stale_w stale_h : Z)
    (filename : string) (w : WaterFFT) :
  let r := RemoveIntensityMap w in
  let u := UseIntensityMap stbi_load stale_w stale_h filename w in
  m_IMap (fst r) = None /\
  (snd r = true <-> m_IMap w <> None) /\
  (snd r = false -> fst r = w) /\
  RemoveIntensityMap (fst r) = (fst r, false) /\
  RemoveIntensityMap (fst u) = (fst r, true).
Proof.
  unfold UseIntensityMap, RemoveIntensityMap.
  destruct w as [hs ds xs zs nv fx fz fn va vb rb wb ex fi fo [im|] xl zl am gr wi];
    cbn; repeat split; try congruence; try discriminate.
Qed.



(** ** The five inputs of the transform *)





(** ** The seam *)



(** ** The mesh at rest *)






(** ** The index buffer *)

Lemma index_loop_step (X limit i : nat) (buf : list nat) :
  (i < limit)%nat ->
  index_loop X limit i buf =
    index_loop X limit (if ((S i + 1) mod X =? 0)%nat then S (S i) else S i)
      (buf ++ quad X i).
Proof.
  intros Hi. rewrite index_loop_equation_1.
  destruct (lt_dec i limit); [reflexivity | lia].
Qed.

Lemma index_loop_done (X limit i : nat) (buf : list nat) :
  (limit <= i)%nat -> index_loop X limit i buf = buf.
Proof.
  intros Hi. rewrite index_loop_equation_1.
  destruct (lt_dec i limit); [lia | reflexivity].
Qed.

(** The rest of row [z] from column [x] on. *)
Lemma index_loop_row (n z : nat) (k : nat) :
  forall x buf, (z < n)%nat -> (x + S k = n)%nat ->
  index_loop (S n) (n * S n) (z * S n + x) buf =
    index_loop (S n) (n * S n) (S z * S n)
      (buf ++ flat_map (fun x' => quad (S n) (z * S n + x')) (seq x (S k))).
Proof.
  induction k as [|k IH]; intros x buf Hz Hx.
  - assert (Hlt : (z * S n + x < n * S n)%nat).
    { assert (S z * S n <= n * S n)%nat by (apply Nat.mul_le_mono_r; lia). lia. }
    rewrite (index_loop_step _ _ _ _ Hlt).
    replace ((S (z * S n + x) + 1) mod S n)%nat with 0%nat.
    + cbn [Nat.eqb flat_map seq]. rewrite app_nil_r.
      replace (S (S (z * S n + x))) with (S z * S n)%nat by lia. reflexivity.
    + replace (S (z * S n + x) + 1)%nat with (S z * S n)%nat by lia.
      symmetry. apply Nat.Div0.mod_mul.
  - assert (Hlt : (z * S n + x < n * S n)%nat).
    { assert (S z * S n <= n * S n)%nat by (apply Nat.mul_le_mono_r; lia). lia. }
    rewrite (index_loop_step _ _ _ _ Hlt).
    replace ((S (z * S n + x) + 1) mod S n)%nat with (x + 2)%nat.
    + replace (x + 2 =? 0)%nat with false by (symmetry; apply Nat.eqb_neq; lia).
      replace (S (z * S n + x)) with (z * S n + S x)%nat by lia.
      rewrite (IH (S x)) by lia.
      apply f_equal. rewrite <- app_assoc. reflexivity.
    + replace (S (z * S n + x) + 1)%nat with (x + 2 + z * S n)%nat by lia.
      rewrite Nat.Div0.mod_add. symmetry. apply Nat.mod_small. lia.
Qed.

(** The rows from [z] on. *)
Lemma index_loop_rows (n : nat) (k : nat) :
  forall z buf, (z + k = n)%nat ->
  index_loop (S n) (n * S n) (z * S n) buf =
    buf ++ flat_map (fun z' =>
             flat_map (fun x' => quad (S n) (z' * S n + x')) (seq 0 n))
           (seq z k).
Proof.
  induction k as [|k IH]; intros z buf Hz.
  - rewrite index_loop_done by (replace z with n by lia; lia).
    cbn [seq flat_map]. rewrite app_nil_r. reflexivity.
  - destruct n as [|n]; [lia|].
    replace (z * S (S n))%nat with (z * S (S n) + 0)%nat at 1 by lia.
    rewrite (index_loop_row (S n) z n 0) by lia.
    rewrite (IH (S z)) by lia.
    rewrite <- app_assoc. reflexivity.
Qed.

Lemma quad_below (n x z : nat) :
  (x < n)%nat -> (z < n)%nat ->
  Forall (fun i => (i < S n * S n)%nat) (quad (S n) (z * S n + x)).
Proof.
  intros Hx Hz.
  assert (S z * S n <= n * S n)%nat by (apply Nat.mul_le_mono_r; lia).
  unfold quad. repeat (constructor; [lia|]). constructor.
Qed.

(** X12: the index buffer of a grid of [n] cells a side holds the quads
    of the cells row by row, six indices for each: [6 n^2] indices, all
    of them smaller than the number of vertices, and no more than the
    function has reserved room for. *)
Theorem InitializeIndexBuffer_quads (w : WaterFFT) :
  wf w ->
  let n := m_fft_XStride w in
  let m_IndexBuffer := InitializeIndexBuffer w in
  m_IndexBuffer =
    flat_map (fun z =>
      flat_map (fun x => quad (m_XStride w) (z * m_XStride w + x)) (seq 0 n))
      (seq 0 n) /\
  length m_IndexBuffer = (6 * (n * n))%nat /\
  Forall (fun i => (i < m_NumVerts w)%nat) m_IndexBuffer /\
  (length m_IndexBuffer <= index_buffer_size w)%nat.
Proof.
  intros Hwf n ib.
  pose proof (wf_XStride w Hwf) as HX. pose proof (wf_ZStride w Hwf) as HZ.
  pose proof (wf_NumVerts w Hwf) as HN. pose proof (wf_fft_ZStride w Hwf) as HF.
  fold n in HX. rewrite HF in HZ. fold n in HZ. rewrite HX, HZ in HN.
  assert (Hib : ib =
    flat_map (fun z => flat_map (fun x => quad (S n) (z * S n + x)) (seq 0 n))
      (seq 0 n)).
  { unfold ib, InitializeIndexBuffer. rewrite HN, HX.
    replace (S n * S n - S n)%nat with (n * S n)%nat by lia.
    change 0%nat with (0 * S n)%nat at 1.
    rewrite (index_loop_rows n n 0 []) by lia. reflexivity. }
  assert (Hlen : length ib = (6 * (n * n))%nat).
  { rewrite Hib.
    rewrite (flat_map_const_length _ _ (n * 6)).
    - rewrite length_seq. lia.
    - intros z. rewrite (flat_map_const_length _ _ 6).
      + rewrite length_seq. reflexivity.
      + intros x. reflexivity. }
  split; [rewrite HX; exact Hib|]. split; [exact Hlen|]. split.
  - rewrite Hib, HN. apply List.Forall_forall. intros i Hi.
    apply in_flat_map in Hi. destruct Hi as (z & Hz & Hi).
    apply in_flat_map in Hi. destruct Hi as (x & Hx & Hi).
    apply in_seq in Hz, Hx.
    pose proof (quad_below n x z ltac:(lia) ltac:(lia)) as Hq.
    exact (proj1 (List.Forall_forall _ _) Hq i Hi).
  - rewrite Hlen. unfold index_buffer_size. rewrite HN, HX. nia.
Qed.

Lemma InitializeIndexBuffer_quads_on_tile :
  length (InitializeIndexBuffer (tile 3)) =
    (6 * (m_fft_XStride (tile 3) * m_fft_XStride (tile 3)))%nat.
Proof.
  exact (proj1 (proj2
    (InitializeIndexBuffer_quads (tile 3) (tile_wf 3 MIN_DX_DZ_le_3)))).
Defined.

(** ** The offset buffer *)

Lemma to_int_small (z : Z) : (0 <= z < 2 ^ 31)%Z -> to_int z = z.
Proof.
  intros H. unfold to_int. rewrite wrap32_small by lia.
  destruct (Z.ltb_spec z (2 ^ 31)); [reflexivity | lia].
Qed.

(** X13: for an expansion [e] whose square fits an [int], the offset
    buffer holds [e * e] instances, and instance [z * e + x] is moved by
    [x] lengths of the mesh along x and [z] lengths along z. *)
Theorem InitializeOffsetBuffer_grid (w : WaterFFT) (expansion : Z) :
  (0 <= expansion)%Z -> (expansion * expansion < 2 ^ 31)%Z ->
  let m_OffsetBuffer := InitializeOffsetBuffer w expansion [] in
  OffsetBufferSize m_OffsetBuffer = (expansion * expansion)%Z /\
  forall x z : nat,
    (Z.of_nat x < expansion)%Z -> (Z.of_nat z < expansion)%Z ->
    m_OffsetBuffer !! (z * Z.to_nat expansion + x)%nat =
      Some (Offset.Mk (INR x * m_XLength w) 0 (INR z * m_ZLength w) 1).
Proof.
  intros He Hsq ob.
  set (e := Z.to_nat expansion).
  assert (Hnum : Z.to_nat (to_int (expansion * expansion)) = (e * e)%nat).
  { rewrite to_int_small by nia. unfold e. nia. }
  assert (H : let s := for_range (e * e) (offset_step w expansion) [] in
              length s = (e * e)%nat /\
              forall j, (j < e * e)%nat ->
                s !! j = Some (Offset.Mk
                  (IZR (Z.of_nat j mod expansion) * m_XLength w) 0
                  (IZR (Z.of_nat j / expansion) * m_ZLength w) 1)).
  { apply (for_range_ind (fun i s =>
      length s = i /\
      forall j, (j < i)%nat ->
        s !! j = Some (Offset.Mk
          (IZR (Z.of_nat j mod expansion) * m_XLength w) 0
          (IZR (Z.of_nat j / expansion) * m_ZLength w) 1))).
    - split; [reflexivity|]. intros j Hj. lia.
    - intros i s Hi [Hlen Hs]. unfold offset_step. split.
      + rewrite length_app, Hlen. cbn [length]. lia.
      + intros j Hj. destruct (decide (j = i)) as [->|Hne].
        * rewrite lookup_app_r by lia. rewrite Hlen, Nat.sub_diag. cbn [lookup list_lookup].
          assert (Hpos : (0 < expansion)%Z) by nia.
          assert (Hi' : (Z.of_nat i < expansion * expansion)%Z) by (unfold e in Hi; nia).
          pose proof (Z.mod_pos_bound (Z.of_nat i) expansion Hpos).
          assert ((0 <= Z.of_nat i / expansion < expansion)%Z).
          { split; [apply Z.div_pos; lia|]. apply Z.div_lt_upper_bound; lia. }
          rewrite !to_int_small by nia. reflexivity.
        * rewrite lookup_app_l by lia. apply Hs. lia. }
  destruct H as [Hlen Hs].
  unfold ob, InitializeOffsetBuffer. rewrite Hnum. split.
  - unfold OffsetBufferSize. rewrite Hlen. rewrite wrap32_small by (unfold e; nia).
    unfold e. nia.
  - intros x z Hx Hz.
    assert (Hj : (z * e + x < e * e)%nat) by (unfold e; nia).
    rewrite (Hs _ Hj).
    assert (Hpos : (0 < expansion)%Z) by lia.
    replace (Z.of_nat (z * e + x)) with (Z.of_nat x + Z.of_nat z * expansion)%Z
      by (unfold e; nia).
    rewrite Z.mod_add, Z.div_add, Z.mod_small, Z.div_small by lia.
    rewrite !INR_IZR_INZ, Z.add_0_l. reflexivity.
Qed.

Lemma InitializeOffsetBuffer_grid_example :
  OffsetBufferSize (InitializeOffsetBuffer (tile 3) 5 []) = (5 * 5)%Z.
Proof.
  exact (proj1 (InitializeOffsetBuffer_grid (tile 3) 5 ltac:(lia) ltac:(lia))).
Defined.

(** X14: when the square of the expansion, taken modulo 2^32, is 0 or
    does not fit an [int], the loop of [InitializeOffsetBuffer] does not
    run and no instance is added. *)
Theorem InitializeOffsetBuffer_wraps (w : WaterFFT) (expansion : Z)
    (m_OffsetBuffer : list Offset.t) :
  (wrap32 (expansion * expansion) = 0 \/
   2 ^ 31 <= wrap32 (expansion * expansion))%Z ->
  InitializeOffsetBuffer w expansion m_OffsetBuffer = m_OffsetBuffer.
Proof.
  intros H. unfold InitializeOffsetBuffer, to_int.
  assert (Hb : (0 <= wrap32 (expansion * expansion) < 2 ^ 32)%Z)
    by (unfold wrap32; apply Z.mod_pos_bound; lia).
  destruct (Z.ltb_spec (wrap32 (expansion * expansion)) (2 ^ 31)).
  - replace (wrap32 (expansion * expansion)) with 0%Z by lia. reflexivity.
  - replace (Z.to_nat (wrap32 (expansion * expansion) - 2 ^ 32)) with 0%nat by lia.
    reflexivity.
Qed.

Lemma InitializeOffsetBuffer_wraps_example :
  InitializeOffsetBuffer (tile 3) 65536 [] = [].
Proof.
  apply (InitializeOffsetBuffer_wraps (tile 3) 65536 []).
  left. reflexivity.
Defined.

(** ** Random draws *)

Section RandomProperties.

Variable rand : nat -> Z.
Variable RAND_MAX : Z.

Lemma polar_loop_rejects (j : nat) :
  forall fuel calls,
    (forall i, (i < j)%nat -> polar_w rand RAND_MAX (calls + 2 * i) >= 1) ->
    polar_loop rand RAND_MAX (j + fuel) calls =
      polar_loop rand RAND_MAX fuel (calls + 2 * j).
Proof.
  induction j as [|j IH]; intros fuel calls Hrej.
  - f_equal. lia.
  - cbn [Nat.add polar_loop UniformRandom].
    pose proof (Hrej 0%nat ltac:(lia)) as H0.
    replace (calls + 2 * 0)%nat with calls in H0 by lia.
    unfold polar_w, polar_x in H0.
    destruct (Rge_dec _ 1) as [_|Hn]; [|contradiction].
    rewrite IH.
    + f_equal. lia.
    + intros i Hi. replace (S (S calls) + 2 * i)%nat with (calls + 2 * S i)%nat by lia.
      apply Hrej. lia.
Qed.

Lemma polar_loop_starved (fuel : nat) :
  forall calls,
    (forall i, (i < fuel)%nat -> polar_w rand RAND_MAX (calls + 2 * i) >= 1) ->
    polar_loop rand RAND_MAX fuel calls = None.
Proof.
  intros calls Hrej.
  replace fuel with (fuel + 0)%nat by lia.
  rewrite polar_loop_rejects by exact Hrej. reflexivity.
Qed.

(** X15: [NormalComplexRandom] is the polar method.  When the first
    [j] pairs of draws fall outside the unit disc and the next one
    inside, at a [w] that is not 0, the function leaves its loop in
    round [j + 1], not earlier, after [2 (j + 1)] calls of [rand], and
    gives the pair scaled by [sqrt (-2 ln w / w)], a point whose
    squared distance from the origin is [-2 ln w]. *)
Theorem NormalComplexRandom_polar_method (calls j fuel : nat) :
  (forall i, (i < j)%nat -> polar_w rand RAND_MAX (calls + 2 * i) >= 1) ->
  0 < polar_w rand RAND_MAX (calls + 2 * j) < 1 ->
  (j < fuel)%nat ->
  let x1 := polar_x rand RAND_MAX (calls + 2 * j) in
  let x2 := polar_x rand RAND_MAX (S (calls + 2 * j)) in
  let w := polar_w rand RAND_MAX (calls + 2 * j) in
  let c := MkComplex (x1 * sqrt (-2 * ln w / w)) (x2 * sqrt (-2 * ln w / w)) in
  NormalComplexRandom rand RAND_MAX fuel calls = Some (c, (calls + 2 * S j)%nat) /\
  m_Real c * m_Real c + m_Imaginary c * m_Imaginary c = -2 * ln w /\
  NormalComplexRandom rand RAND_MAX j calls = None.
Proof.
  intros Hrej Hacc Hfuel x1 x2 w c.
  split; [|split].
  - unfold NormalComplexRandom.
    replace fuel with (j + S (fuel - S j))%nat by lia.
    rewrite polar_loop_rejects by exact Hrej.
    cbn [polar_loop UniformRandom].
    fold (polar_x rand RAND_MAX (calls + 2 * j)).
    fold (polar_x rand RAND_MAX (S (calls + 2 * j))).
    fold x1 x2. change (x1 * x1 + x2 * x2) with w.
    destruct (Rge_dec w 1) as [Hge|_]; [unfold w in Hge; lra|].
    unfold c. do 2 f_equal. lia.
  - unfold c. cbn [m_Real m_Imaginary].
    assert (Hln : ln w < 0).
    { rewrite <- ln_1. apply ln_increasing; unfold w; lra. }
    assert (Hpos : 0 <= -2 * ln w / w).
    { apply Rmult_le_pos; [lra|]. left. apply Rinv_0_lt_compat. unfold w. lra. }
    replace (x1 * sqrt (-2 * ln w / w) * (x1 * sqrt (-2 * ln w / w)) +
             x2 * sqrt (-2 * ln w / w) * (x2 * sqrt (-2 * ln w / w)))
      with ((x1 * x1 + x2 * x2) *
            (sqrt (-2 * ln w / w) * sqrt (-2 * ln w / w))) by ring.
    rewrite sqrt_sqrt by exact Hpos.
    change (x1 * x1 + x2 * x2) with w. field. unfold w. lra.
  - unfold NormalComplexRandom. rewrite polar_loop_starved by exact Hrej.
    reflexivity.
Qed.

End RandomProperties.

Lemma NormalComplexRandom_polar_method_example :
  NormalComplexRandom two_rounds 4 1 0 = None.
Proof.
  refine (proj2 (proj2 (NormalComplexRandom_polar_method two_rounds 4 0 1 2
    _ _ _))).
  - intros i Hi. replace i with 0%nat by lia.
    unfold polar_w, polar_x. cbn [Nat.add Nat.mul two_rounds]. lra.
  - unfold polar_w, polar_x. cbn [Nat.add Nat.mul two_rounds]. lra.
  - lia.
Defined.

(** ** The cell of a location *)

(** In exact arithmetic, on a grid of [n >= 1] cells a side. *)
Lemma LocationToMeshPosition_cell (w : WaterFFT) (location : vec2) :
  wf w -> (1 <= m_fft_XStride w)%nat ->
  let n := m_fft_XStride w in
  exists fuel0, forall fuel, (fuel0 <= fuel)%nat ->
  exists (xi zi : nat) (xt zt : R) (jx jz : Z),
    LocationToMeshPosition fuel w location =
      Some (MkMeshPosition (zi * S n + xi) xt zt) /\
    (xi < n)%nat /\ (zi < n)%nat /\ 0 <= xt < 1 /\ 0 <= zt < 1 /\
    vx location + INR (S n) / 2 = INR xi + xt + IZR jx * INR n /\
    vy location + INR (S n) / 2 = INR zi + zt + IZR jz * INR n.
Proof.
  intros Hwf Hn n. fold n in Hn.
  assert (HX : m_XStride w = S n) by apply (wf_XStride w Hwf).
  assert (HZ : m_ZStride w = S n).
  { rewrite (wf_ZStride w Hwf), (wf_fft_ZStride w Hwf). reflexivity. }
  assert (Hm : 0 < INR n) by (apply lt_0_INR; lia).
  destruct (wrap_returns (vx location + INR (S n) / 2) (INR n) Hm) as [fx Hfx].
  destruct (wrap_returns (vy location + INR (S n) / 2) (INR n) Hm) as [fz Hfz].
  exists (Nat.max fx fz). intros fuel Hfuel.
  destruct (Hfx fuel ltac:(lia)) as [rx Hrx].
  destruct (Hfz fuel ltac:(lia)) as [rz Hrz].
  destruct (wrap_spec _ _ _ _ Hm Hrx) as (Bx & jx & Hjx).
  destruct (wrap_spec _ _ _ _ Hm Hrz) as (Bz & jz & Hjz).
  destruct (grid_index rx n Bx) as (Ix & Tx).
  destruct (grid_index rz n Bz) as (Iz & Tz).
  destruct (float_to_unsigned_nonneg rx (proj1 Bx)) as (Px & _).
  destruct (float_to_unsigned_nonneg rz (proj1 Bz)) as (Pz & _).
  exists (Z.to_nat (float_to_unsigned rx)), (Z.to_nat (float_to_unsigned rz)),
    (rx - IZR (float_to_unsigned rx)), (rz - IZR (float_to_unsigned rz)), jx, jz.
  split.
  { rewrite <- HX at 1. apply LocationToMeshPosition_wrap; rewrite ?HX, ?HZ;
      replace (S n - 1)%nat with n by lia; assumption. }
  split; [exact Ix|]. split; [exact Iz|]. split; [exact Tx|]. split; [exact Tz|].
  rewrite !INR_IZR_INZ, !Z2Nat.id by assumption.
  rewrite <- !INR_IZR_INZ. split; lra.
Qed.

(** X16: in exact arithmetic, on a well formed grid of [n >= 1] cells a
    side, for every location whose index is below 2^32 grids on both
    axes: a quotient that the function converts to [unsigned] lies in
    [1, 2^32), so that the conversion is defined, and
    [LocationToMeshPosition] returns: the vertex index is that of a cell
    (xi, zi) of the grid, the two parameters lie in [0, 1), the four
    vertices of the cell are in the read buffer, and the location moved
    by half a stride is the point (xi + xt, zi + zt) up to a whole
    number of grids on each axis. *)
Theorem LocationToMeshPosition_finds_cell (w : WaterFFT) (location : vec2) :
  wf w -> (1 <= m_fft_XStride w)%nat ->
  conversions_defined w location ->
  let x_index_float := vx location + INR (m_XStride w) / 2 in
  let z_index_float := vy location + INR (m_ZStride w) / 2 in
  let x_max_index := INR (m_XStride w - 1) in
  let z_max_index := INR (m_ZStride w - 1) in
  (x_index_float >= x_max_index ->
   (1 <= float_to_unsigned (x_index_float / x_max_index) < 2 ^ 32)%Z) /\
  (z_index_float >= z_max_index ->
   (1 <= float_to_unsigned (z_index_float / z_max_index) < 2 ^ 32)%Z) /\
  exists fuel0, forall fuel, (fuel0 <= fuel)%nat ->
  exists (mp : MeshPosition) (xi zi : nat) (jx jz : Z),
    LocationToMeshPosition fuel w location = Some mp /\
    m_VertexIndex mp = (zi * m_XStride w + xi)%nat /\
    (xi < m_fft_XStride w)%nat /\ (zi < m_fft_XStride w)%nat /\
    0 <= m_Xt mp < 1 /\ 0 <= m_Zt mp < 1 /\
    Forall (fun i => (i < length (ReadBuffer w))%nat) (query_indices w mp) /\
    vx location + INR (m_XStride w) / 2 =
      INR xi + m_Xt mp + IZR jx * INR (m_fft_XStride w) /\
    vy location + INR (m_ZStride w) / 2 =
      INR zi + m_Zt mp + IZR jz * INR (m_fft_XStride w).
Proof.
  intros Hwf Hn [Hcx Hcz]. cbv zeta.
  assert (Hmx : 0 < INR (m_XStride w - 1)).
  { rewrite (wf_XStride w Hwf). apply lt_0_INR. lia. }
  assert (Hmz : 0 < INR (m_ZStride w - 1)).
  { rewrite (wf_ZStride w Hwf), (wf_fft_ZStride w Hwf). apply lt_0_INR. lia. }
  split; [intros Hge; apply wrap_down_conversion_fits; assumption|].
  split; [intros Hge; apply wrap_down_conversion_fits; assumption|].
  destruct (LocationToMeshPosition_cell w location Hwf Hn) as [fuel0 H].
  exists fuel0. intros fuel Hfuel.
  destruct (H fuel Hfuel)
    as (xi & zi & xt & zt & jx & jz & Hmp & Hxi & Hzi & Hxt & Hzt & Hx & Hz).
  set (n := m_fft_XStride w) in *.
  assert (HX : m_XStride w = S n) by apply (wf_XStride w Hwf).
  assert (HZ : m_ZStride w = S n).
  { rewrite (wf_ZStride w Hwf), (wf_fft_ZStride w Hwf). reflexivity. }
  exists (MkMeshPosition (zi * S n + xi) xt zt), xi, zi, jx, jz.
  rewrite HX, HZ. cbn [m_VertexIndex m_Xt m_Zt].
  repeat (split; [assumption || reflexivity|]).
  split; [|split; assumption].
  unfold query_indices. cbn [m_VertexIndex].
  rewrite (wf_ReadBuffer_length w Hwf), HX. fold n.
  assert (S zi * S n <= n * S n)%nat by (apply Nat.mul_le_mono_r; lia).
  repeat (apply Forall_cons; split; [lia|]). apply Forall_nil. exact I.
Qed.

Lemma tile_cells : (1 <= m_fft_XStride (tile 3))%nat.
Proof. destruct tile_lengths as (_ & _ & ->). apply Nat.le_succ_diag_r. Qed.

Lemma LocationToMeshPosition_finds_cell_on_tile :
  exists fuel0, forall fuel, (fuel0 <= fuel)%nat ->
  exists (mp : MeshPosition) (xi zi : nat) (jx jz : Z),
    LocationToMeshPosition fuel (tile 3) (MkVec2 100 (-7)) = Some mp /\
    m_VertexIndex mp = (zi * m_XStride (tile 3) + xi)%nat /\
    (xi < m_fft_XStride (tile 3))%nat /\ (zi < m_fft_XStride (tile 3))%nat /\
    0 <= m_Xt mp < 1 /\ 0 <= m_Zt mp < 1 /\
    Forall (fun i => (i < length (ReadBuffer (tile 3)))%nat)
      (query_indices (tile 3) mp) /\
    vx (MkVec2 100 (-7)) + INR (m_XStride (tile 3)) / 2 =
      INR xi + m_Xt mp + IZR jx * INR (m_fft_XStride (tile 3)) /\
    vy (MkVec2 100 (-7)) + INR (m_ZStride (tile 3)) / 2 =
      INR zi + m_Zt mp + IZR jz * INR (m_fft_XStride (tile 3)).
Proof.
  refine (proj2 (proj2 (LocationToMeshPosition_finds_cell (tile 3)
    (MkVec2 100 (-7)) (tile_wf 3 MIN_DX_DZ_le_3) tile_cells _))).
  apply (conversions_defined_small _ _ (tile_wf 3 MIN_DX_DZ_le_3) tile_cells);
    cbn [vx vy]; lra.
Defined.

(** ** Heights *)

(** X17: a height query never leaves the range of the heights of the
    mesh.  In exact arithmetic, on a well formed grid of [n >= 1] cells
    a side whose read buffer holds heights of [lo, hi], [HeightAtLocation]
    returns a value of [lo, hi] for every location whose index the code
    can convert ([conversions_defined]: below 2^32 grids on both axes). *)
Theorem HeightAtLocation_within_mesh_heights (w : WaterFFT) (location : vec2)
    (lo hi : R) :
  wf w -> (1 <= m_fft_XStride w)%nat ->
  conversions_defined w location ->
  Forall (fun v => lo <= m_Py v <= hi) (ReadBuffer w) ->
  exists fuel0, forall fuel, (fuel0 <= fuel)%nat ->
  exists h, HeightAtLocation fuel w location = Some h /\ lo <= h <= hi.
Proof.
  intros Hwf Hn _ Hall.
  destruct (LocationToMeshPosition_cell w location Hwf Hn) as [fuel0 H].
  exists fuel0. intros fuel Hfuel.
  destruct (H fuel Hfuel)
    as (xi & zi & xt & zt & jx & jz & Hmp & Hxi & Hzi & Hxt & Hzt & _ & _).
  set (n := m_fft_XStride w) in *.
  assert (HX : m_XStride w = S n) by apply (wf_XStride w Hwf).
  unfold HeightAtLocation. rewrite Hmp. eexists. split; [reflexivity|].
  unfold GetLocationHeightFFT. cbn [m_VertexIndex m_Xt m_Zt]. rewrite HX.
  assert (S zi * S n <= n * S n)%nat by (apply Nat.mul_le_mono_r; lia).
  assert (Hv : forall i, (i < S n * S n)%nat ->
             lo <= m_Py (ReadBuffer w !!! i) <= hi).
  { intros i Hi.
    apply (Forall_lookup_total_1 (fun v => lo <= m_Py v <= hi) _ i Hall).
    rewrite (wf_ReadBuffer_length w Hwf). fold n. exact Hi. }
  apply (Lerp_between lo hi _ _ zt);
    [apply (Lerp_between lo hi _ _ xt); [apply Hv; lia | apply Hv; lia | lra]
    |apply (Lerp_between lo hi _ _ xt); [apply Hv; lia | apply Hv; lia | lra]
    |lra].
Qed.

(** ** Normals *)

Lemma glm_normalize_unit (v : vec3) :
  0 < vec3_dot v v ->
  vec3_dot (glm_normalize v) (glm_normalize v) = 1.
Proof.
  intros Hd. unfold glm_normalize.
  set (d := vec3_dot v v) in *.
  assert (Hs : 0 < sqrt d) by (apply sqrt_lt_R0; exact Hd).
  assert (Hss : sqrt d * sqrt d = d) by (apply sqrt_sqrt; lra).
  unfold vec3_dot, vec3_scale; cbn [v3x v3y v3z].
  replace (v3x v * (1 / sqrt d) * (v3x v * (1 / sqrt d)) +
           v3y v * (1 / sqrt d) * (v3y v * (1 / sqrt d)) +
           v3z v * (1 / sqrt d) * (v3z v * (1 / sqrt d)))
    with ((v3x v * v3x v + v3y v * v3y v + v3z v * v3z v) /
          (sqrt d * sqrt d)) by (field; lra).
  rewrite Hss. change (v3x v * v3x v + v3y v * v3y v + v3z v * v3z v) with d.
  field. lra.
Qed.

Lemma blend_pos (a b t : R) : 0 < a -> 0 < b -> 0 <= t <= 1 -> 0 < a + (b - a) * t.
Proof.
  intros Ha Hb Ht. replace (a + (b - a) * t) with ((1 - t) * a + t * b) by ring.
  destruct (Rle_dec t (1 / 2)); nra.
Qed.

(** The normal query on four vertices whose normals point upward. *)
Lemma GetLocationNormalFFT_upward (w : WaterFFT) (mp : MeshPosition) :
  Forall (fun i => 0 < m_Ny (ReadBuffer w !!! i)) (query_indices w mp) ->
  0 <= m_Xt mp <= 1 -> 0 <= m_Zt mp <= 1 ->
  let normal := GetLocationNormalFFT w mp in
  vec3_dot normal normal = 1 /\ 0 < v3y normal.
Proof.
  intros Hall Hx Hz normal. unfold query_indices in Hall.
  inversion Hall as [|? ? Ha Hall1]; subst.
  inversion Hall1 as [|? ? Hb Hall2]; subst.
  inversion Hall2 as [|? ? Hc Hall3]; subst.
  inversion Hall3 as [|? ? Hd _]; subst.
  unfold normal, GetLocationNormalFFT.
  set (a := ReadBuffer w !!! m_VertexIndex mp) in *.
  set (b := ReadBuffer w !!! (m_VertexIndex mp + 1)%nat) in *.
  set (c := ReadBuffer w !!! (m_VertexIndex mp + m_XStride w)%nat) in *.
  set (d := ReadBuffer w !!! (m_VertexIndex mp + m_XStride w + 1)%nat) in *.
  cbv zeta.
  set (v := vec3_add _ _).
  assert (Hy : 0 < v3y v).
  { unfold v, vec3_add, vec3_scale, vec3_sub; cbn [v3x v3y v3z].
    apply blend_pos; [apply blend_pos; assumption .. | assumption]. }
  assert (Hdot : 0 < vec3_dot v v).
  { unfold vec3_dot. nra. }
  split; [apply glm_normalize_unit; exact Hdot|].
  unfold glm_normalize, vec3_scale; cbn [v3y].
  apply Rmult_lt_0_compat; [exact Hy|].
  apply Rmult_lt_0_compat; [lra|]. apply Rinv_0_lt_compat, sqrt_lt_R0. exact Hdot.
Qed.

(** X18: where the four vertices around a mesh position have normals
    that point upward, [GetLocationNormalFFT] gives, for parameters of
    [0, 1], a vector of length 1 that points upward. *)
Theorem GetLocationNormalFFT_unit_length (w : WaterFFT) (mp : MeshPosition) :
  Forall (fun i => 0 < m_Ny (ReadBuffer w !!! i)) (query_indices w mp) ->
  0 <= m_Xt mp <= 1 -> 0 <= m_Zt mp <= 1 ->
  let normal := GetLocationNormalFFT w mp in
  v3x normal * v3x normal + v3y normal * v3y normal + v3z normal * v3z normal = 1 /\
  0 < v3y normal.
Proof.
  intros Hall Hx Hz. exact (GetLocationNormalFFT_upward w mp Hall Hx Hz).
Qed.

(** ** The two buffers over the frames *)







(** ** Instances on the 2 by 2 grid *)

Lemma ripple_wf : wf ripple.
Proof.
  apply SwapBuffers_wf, UpdateFFT_wf;
    [apply dft_small_shape | apply tile_wf, MIN_DX_DZ_le_3].
Qed.

Lemma ripple_cells_a_side : m_fft_XStride ripple = 2%nat.
Proof.
  unfold ripple, Update. rewrite SwapBuffers_fft_XStride.
  destruct (UpdateFFT_fields dft_small 0 (tile 3)) as (_ & _ & _ & -> & _).
  exact (proj1 (tile_fields 3)).
Qed.

Lemma ripple_conversions (x z : R) :
  x < 2147483648 -> z < 2147483648 -> conversions_defined ripple (MkVec2 x z).
Proof.
  intros Hx Hz. apply (conversions_defined_small _ _ ripple_wf).
  - rewrite ripple_cells_a_side. apply Nat.le_succ_diag_r.
  - exact Hx.
  - exact Hz.
Qed.

(** The four vertices around the first cell of the rippled surface have
    normals that lean: (-s, 1, -s), (s, 1, s), (s, 1, s), (-s, 1, -s) with
    s = sigma * TAU / 3. *)
Lemma ripple_upward :
  Forall (fun i => 0 < m_Ny (ReadBuffer ripple !!! i))
    (query_indices ripple (MkMeshPosition 0 (1 / 4) (1 / 4))).
Proof.
  unfold query_indices. cbn [m_VertexIndex].
  destruct ripple_strides as (-> & _).
  destruct (ripple_cell 0 0 ltac:(lia) ltac:(lia)) as (_ & _ & H0 & _).
  destruct (ripple_cell 1 0 ltac:(lia) ltac:(lia)) as (_ & _ & H1 & _).
  destruct (ripple_cell 0 1 ltac:(lia) ltac:(lia)) as (_ & _ & H3 & _).
  destruct (ripple_cell 1 1 ltac:(lia) ltac:(lia)) as (_ & _ & H4 & _).
  cbn [Nat.mul Nat.add] in H0, H1, H3, H4. cbn [Nat.add].
  repeat (constructor; [lra|]). constructor.
Qed.

Lemma GetLocationNormalFFT_unit_length_on_ripple :
  let normal := GetLocationNormalFFT ripple (MkMeshPosition 0 (1 / 4) (1 / 4)) in
  v3x normal * v3x normal + v3y normal * v3y normal + v3z normal * v3z normal = 1 /\
  0 < v3y normal.
Proof.
  refine (GetLocationNormalFFT_unit_length ripple
            (MkMeshPosition 0 (1 / 4) (1 / 4)) ripple_upward _ _);
    cbn [m_Xt m_Zt]; lra.
Defined.



(** The heights of the rippled surface are sigma and - sigma. *)
Lemma ripple_heights :
  Forall (fun v => - sigma <= m_Py v <= sigma) (ReadBuffer ripple).
Proof.
  pose proof sigma_pos as Hs.
  destruct ripple_mesh as (H0 & H1 & H2 & H3 & H4 & H5 & H6 & H7 & H8 & _).
  apply (Forall_lookup_total_2 (fun v => - sigma <= m_Py v <= sigma)).
  intros i Hi.
  rewrite (wf_ReadBuffer_length _ ripple_wf), ripple_cells_a_side in Hi.
  cbn [Nat.mul Nat.add] in Hi.
  do 9 (destruct i as [|i]; [lra|]). lia.
Qed.

Lemma HeightAtLocation_within_mesh_heights_on_ripple :
  exists fuel0, forall fuel, (fuel0 <= fuel)%nat ->
  exists h, HeightAtLocation fuel ripple (MkVec2 0.25 0.25) = Some h /\
            - sigma <= h <= sigma.
Proof.
  refine (HeightAtLocation_within_mesh_heights ripple (MkVec2 0.25 0.25)
           (- sigma) sigma ripple_wf _ (ripple_conversions 0.25 0.25 _ _)
           ripple_heights); [|lra|lra].
  rewrite ripple_cells_a_side. apply Nat.le_succ_diag_r.
Defined.

(** ** Dispersion and spectrum *)

Lemma TAU_pos : 0 < TAU.
Proof. unfold TAU. lra. Qed.

Lemma glm_length_nonneg (v : vec2) : 0 <= glm_length v.
Proof. unfold glm_length. apply sqrt_pos. Qed.

Lemma glm_length_neg (v : vec2) : glm_length (vec2_neg v) = glm_length v.
Proof.
  unfold glm_length, vec2_neg; cbn [vx vy]. f_equal. ring.
Qed.

(** X21: in exact arithmetic ([float] as the real numbers, no rounding),
    [DispersionRelation] rounds the frequency [sqrt (g |k|)] down to a
    whole multiple of [w_0 = TAU / 200]: for a gravity that is not
    negative the result is [m * w_0] for a whole number [m >= 0], it is
    not above the frequency and less than [w_0] below it. *)
Theorem DispersionRelation_quantized (m_Gravity : R) (k : vec2) :
  0 <= m_Gravity ->
  let w_0 := TAU / 200 in
  let dispersion := DispersionRelation m_Gravity k in
  (exists m : Z, (0 <= m)%Z /\ dispersion = IZR m * w_0) /\
  dispersion <= sqrt (m_Gravity * glm_length k) < dispersion + w_0.
Proof.
  intros Hg w_0 dispersion.
  assert (Hw : 0 < w_0) by (unfold w_0; pose proof TAU_pos; lra).
  set (f := sqrt (m_Gravity * glm_length k)).
  assert (Hf : 0 <= f) by apply sqrt_pos.
  assert (Hq : 0 <= f / w_0).
  { apply Rmult_le_pos; [exact Hf | left; apply Rinv_0_lt_compat; exact Hw]. }
  destruct (base_Int_part (f / w_0)) as [Hlo Hhi].
  set (m := Int_part (f / w_0)) in *.
  assert (Hd : dispersion = IZR m * w_0) by reflexivity.
  assert (Hm : (0 <= m)%Z).
  { apply le_IZR. apply Rnot_lt_le. intros Hneg.
    assert (IZR m <= -1) by (apply IZR_le; apply lt_IZR in Hneg; lia). lra. }
  assert (Hfq : f = f / w_0 * w_0) by (field; lra).
  split; [exists m; split; assumption|].
  rewrite Hd. split.
  - rewrite Hfq. apply Rmult_le_compat_r; lra.
  - rewrite Hfq at 1.
    replace (IZR m * w_0 + w_0) with ((IZR m + 1) * w_0) by ring.
    apply Rmult_lt_compat_r; lra.
Qed.

Lemma DispersionRelation_quantized_example :
  DispersionRelation 9.81 (MkVec2 1 0) <= sqrt (9.81 * glm_length (MkVec2 1 0)).
Proof.
  refine (proj1 (proj2 (DispersionRelation_quantized 9.81 (MkVec2 1 0) _))). lra.
Defined.

Lemma PhillipsSpectrum_neg (amplitude gravity : R) (wind k : vec2) :
  PhillipsSpectrum amplitude gravity wind (vec2_neg k) =
    PhillipsSpectrum amplitude gravity wind k.
Proof.
  unfold PhillipsSpectrum. rewrite glm_length_neg.
  destruct (Rlt_dec (glm_length k) EPSILON); [reflexivity|].
  unfold glm_dot, vec2_div, vec2_neg; cbn [vx vy].
  f_equal. f_equal. unfold Rdiv. ring.
Qed.

(** X22: the Phillips spectrum is even in the wavevector, so that the
    seed of [-k] is the seed of [k] when the same number is drawn; it is
    0 for a wavevector at a right angle to the wind; and it is never
    negative when the amplitude is not negative. *)
Theorem PhillipsSpectrum_even_and_not_negative
    (amplitude gravity : R) (wind : vec2) (multiplier : Complex) (k : vec2) :
  0 <= amplitude ->
  PhillipsSpectrum amplitude gravity wind (vec2_neg k) =
    PhillipsSpectrum amplitude gravity wind k /\
  HTilde0 amplitude gravity wind multiplier (vec2_neg k) =
    HTilde0 amplitude gravity wind multiplier k /\
  (glm_dot k wind = 0 -> PhillipsSpectrum amplitude gravity wind k = 0) /\
  0 <= PhillipsSpectrum amplitude gravity wind k.
Proof.
  intros Ha. split; [apply PhillipsSpectrum_neg|].
  split; [unfold HTilde0; rewrite PhillipsSpectrum_neg; reflexivity|].
  split.
  - intros Hdot. unfold PhillipsSpectrum.
    destruct (Rlt_dec (glm_length k) EPSILON); [reflexivity|].
    unfold glm_dot, vec2_div in *; cbn [vx vy] in *.
    replace (vx k / glm_length k * (vx wind / glm_length wind) +
             vy k / glm_length k * (vy wind / glm_length wind))
      with ((vx k * vx wind + vy k * vy wind) *
            (/ glm_length k * / glm_length wind)) by (unfold Rdiv; ring).
    rewrite Hdot. ring.
  - unfold PhillipsSpectrum.
    destruct (Rlt_dec (glm_length k) EPSILON) as [|Hk]; [lra|].
    assert (Hpos : 0 < glm_length k) by (pose proof EPSILON_pos; lra).
    set (m := glm_length k) in *.
    set (d := glm_dot _ _).
    assert (H4 : 0 < m * m * (m * m)) by (repeat apply Rmult_lt_0_compat; exact Hpos).
    apply Rmult_le_pos; [|left; apply exp_pos].
    apply Rmult_le_pos; [|nra].
    apply Rmult_le_pos; [exact Ha|].
    apply Rmult_le_pos; [left; apply exp_pos|].
    left. apply Rinv_0_lt_compat. exact H4.
Qed.

Lemma PhillipsSpectrum_even_and_not_negative_example :
  0 <= PhillipsSpectrum 0.00005 9.81 (MkVec2 64 64) (MkVec2 1 0).
Proof.
  refine (proj2 (proj2 (proj2 (PhillipsSpectrum_even_and_not_negative
    0.00005 9.81 (MkVec2 64 64) (MkComplex 0 0) (MkVec2 1 0) _)))). lra.
Defined.

(** ** A frame does not depend on the frames before *)





Section Memoryless.

Variable fftwf_execute : nat -> nat -> list Complex -> list Complex.
Variables time1 time2 : R.
Variable w : WaterFFT.
Hypothesis Hshape : fftw_shape fftwf_execute.
Hypothesis Hwf : wf w.
Hypothesis Hcells : (1 <= m_fft_XStride w)%nat.

Let n := m_fft_XStride w.






Let raw := execute_plans fftwf_execute w (fill_inputs w time2).









End Memoryless.



(** ** Queries over whole grids *)

(** X24: in exact arithmetic, on a well formed grid of [n >= 1] cells a
    side, the height and the normal that [HeightNormalAtLocation]
    returns do not change when the location is moved by a whole number
    of grids ([n] index units) along x, along z, or both, whatever the
    [time] given, for a location and a moved location whose indices the
    code can convert ([conversions_defined]: below 2^32 grids on both
    axes). *)
Theorem HeightNormalAtLocation_repeats_over_grids (w : WaterFFT)
    (location : vec2) (jx jz : Z) (time time' : R) :
  wf w -> (1 <= m_fft_XStride w)%nat ->
  let n := INR (m_fft_XStride w) in
  conversions_defined w location ->
  conversions_defined w
    (MkVec2 (vx location + IZR jx * n) (vy location + IZR jz * n)) ->
  exists fuel0, forall fuel, (fuel0 <= fuel)%nat ->
  exists result,
    HeightNormalAtLocation fuel w location time = Some result /\
    HeightNormalAtLocation fuel w
      (MkVec2 (vx location + IZR jx * n) (vy location + IZR jz * n)) time'
      = Some result.
Proof.
  intros Hwf Hn. set (n := m_fft_XStride w) in *. cbv zeta. intros _ _.
  assert (HX : m_XStride w = S n) by apply (wf_XStride w Hwf).
  assert (HZ : m_ZStride w = S n).
  { rewrite (wf_ZStride w Hwf), (wf_fft_ZStride w Hwf). reflexivity. }
  assert (Hm : 0 < INR n) by (apply lt_0_INR; lia).
  set (x0 := vx location + INR (S n) / 2).
  set (z0 := vy location + INR (S n) / 2).
  destruct (wrap_returns x0 (INR n) Hm) as [f1 Hf1].
  destruct (wrap_returns (x0 + IZR jx * INR n) (INR n) Hm) as [f2 Hf2].
  destruct (wrap_returns z0 (INR n) Hm) as [f3 Hf3].
  destruct (wrap_returns (z0 + IZR jz * INR n) (INR n) Hm) as [f4 Hf4].
  exists (Nat.max (Nat.max f1 f2) (Nat.max f3 f4)). intros fuel Hfuel.
  destruct (Hf1 fuel ltac:(lia)) as [rx Hrx].
  destruct (Hf2 fuel ltac:(lia)) as [rx' Hrx'].
  destruct (Hf3 fuel ltac:(lia)) as [rz Hrz].
  destruct (Hf4 fuel ltac:(lia)) as [rz' Hrz'].
  assert (rx = rx') by (eapply wrap_periodic; eassumption). subst rx'.
  assert (rz = rz') by (eapply wrap_periodic; eassumption). subst rz'.
  unfold HeightNormalAtLocation, GetLocationHeightNormalFFT.
  rewrite (LocationToMeshPosition_wrap fuel w location rx rz);
    [| rewrite HX; replace (S n - 1)%nat with n by lia; exact Hrx
     | rewrite HZ; replace (S n - 1)%nat with n by lia; exact Hrz].
  rewrite (LocationToMeshPosition_wrap fuel w _ rx rz).
  - eexists. split; reflexivity.
  - rewrite HX. replace (S n - 1)%nat with n by lia. cbn [vx].
    replace (vx location + IZR jx * INR n + INR (S n) / 2)
      with (x0 + IZR jx * INR n) by (unfold x0; ring).
    exact Hrx'.
  - rewrite HZ. replace (S n - 1)%nat with n by lia. cbn [vy].
    replace (vy location + IZR jz * INR n + INR (S n) / 2)
      with (z0 + IZR jz * INR n) by (unfold z0; ring).
    exact Hrz'.
Qed.

Lemma HeightNormalAtLocation_repeats_over_grids_on_tile :
  exists fuel0, forall fuel, (fuel0 <= fuel)%nat ->
  exists result,
    HeightNormalAtLocation fuel ripple2 (MkVec2 0.25 0.25) 0 = Some result /\
    HeightNormalAtLocation fuel ripple2
      (MkVec2 (vx (MkVec2 0.25 0.25) + IZR 3 * INR (m_fft_XStride ripple2))
              (vy (MkVec2 0.25 0.25) + IZR (-2) * INR (m_fft_XStride ripple2))) 1
      = Some result.
Proof.
  assert (Hn : (1 <= m_fft_XStride ripple2)%nat).
  { destruct ripple2_fields as [-> _]. apply Nat.le_succ_diag_r. }
  apply (HeightNormalAtLocation_repeats_over_grids ripple2 (MkVec2 0.25 0.25)
           3 (-2) 0 1 ripple2_wf Hn).
  - apply (conversions_defined_small _ _ ripple2_wf Hn); cbn [vx vy]; lra.
  - apply (conversions_defined_small _ _ ripple2_wf Hn); cbn [vx vy];
      destruct ripple2_fields as [-> _]; cbn [INR]; lra.
Defined.

(** ** The clock *)

Lemma to_int_signed (z : Z) : (- 2 ^ 31 <= z < 2 ^ 31)%Z -> to_int z = z.
Proof.
  intros H. unfold to_int, wrap32.
  destruct (Z_lt_le_dec z 0) as [Hneg|Hpos].
  - replace (z mod 2 ^ 32)%Z with (z + 2 ^ 32)%Z.
    + destruct (Z.ltb_spec (z + 2 ^ 32) (2 ^ 31)); lia.
    + apply (Z.mod_unique _ _ (-1)); lia.
  - rewrite Z.mod_small by lia. destruct (Z.ltb_spec z (2 ^ 31)); lia.
Qed.

Lemma Time_Update_follows (scale : R) (ticks : Z) (s : Time.t) :
  (0 <= ticks < 2 ^ 31)%Z ->
  follows scale s ->
  follows scale (Time.Update ticks s) /\
  Time.m_TicksPrev (Time.Update ticks s) = ticks /\
  Time.m_DeltaTime (Time.Update ticks s) =
    (IZR ticks - IZR (Time.m_TicksPrev s)) / 1000.
Proof.
  intros Ht (Hp & Hs & Ht1 & Ht2).
  unfold Time.Update, follows.
  cbn [Time.m_TicksPrev Time.m_TimeScale Time.m_TotalTime Time.m_TotalTimeScaled
       Time.m_DeltaTime].
  rewrite (to_int_signed ticks) by lia.
  rewrite (to_int_signed (ticks - Time.m_TicksPrev s)) by lia.
  rewrite Ht1, Ht2, Hs, minus_IZR.
  repeat split; try lia; field.
Qed.

Lemma Time_run_follows (scale : R) (ticks : list Z) :
  forall s, Forall (fun t => (0 <= t < 2 ^ 31)%Z) ticks ->
  follows scale s ->
  follows scale (Time.run (map Time.DoUpdate ticks) s).
Proof.
  induction ticks as [|t ticks IH]; intros s Hall Hs; [exact Hs|].
  inversion Hall as [|? ? Ht Hrest]; subst.
  cbn [map Time.run fold_left Time.act]. apply IH; [exact Hrest|].
  apply Time_Update_follows; assumption.
Qed.

(** X25: the clock does not drift.  In exact arithmetic, with one time
    scale set at the start and tick readings that fit an [int], after
    any number of updates [TotalTime] is the last reading in seconds,
    the value [TotalTimeExact] gives for that reading; [TotalTimeScaled],
    which the water thread reads, is that time multiplied by the scale;
    and [DT] is the time between the last two readings. *)
Theorem Time_totals_follow_the_ticks (scale : R) (ticks : list Z) (prev last : Z) :
  Forall (fun t => (0 <= t < 2 ^ 31)%Z) (ticks ++ [prev; last]) ->
  let s := Time.run
    (Time.SetTimeScale scale :: map Time.DoUpdate (ticks ++ [prev; last]))
    Time.initial in
  Time.TotalTime s = IZR last / 1000 /\
  Time.TotalTime s = Time.TotalTimeExact last /\
  Time.TotalTimeScaled s = IZR last / 1000 * scale /\
  Time.DT s = (IZR last - IZR prev) / 1000.
Proof.
  intros Hall s.
  apply Forall_app in Hall. destruct Hall as [Hticks Hlast].
  inversion Hlast as [|? ? Hp Hl']; subst.
  inversion Hl' as [|? ? Hl _]; subst.
  unfold s. cbn [Time.run fold_left Time.act].
  rewrite map_app, fold_left_app. cbn [map fold_left Time.act].
  match goal with
  | |- context [fold_left _ (map Time.DoUpdate ticks) ?t] => set (s0 := t)
  end.
  assert (H0 : follows scale s0).
  { unfold follows, s0.
    cbn [Time.m_TicksPrev Time.m_TimeScale Time.m_TotalTime Time.m_TotalTimeScaled
         Time.initial].
    repeat split; try lia; try reflexivity; unfold Rdiv; ring. }
  pose proof (Time_run_follows scale ticks s0 Hticks H0) as H1.
  unfold Time.run in H1.
  set (s1 := fold_left _ (map Time.DoUpdate ticks) s0) in *.
  destruct (Time_Update_follows scale prev s1 Hp H1) as (H2 & P2 & _).
  destruct (Time_Update_follows scale last (Time.Update prev s1) Hl H2)
    as ((_ & _ & T3 & S3) & P3 & D3).
  unfold Time.TotalTime, Time.TotalTimeScaled, Time.DT, Time.TotalTimeExact.
  rewrite T3, S3, D3, P3, P2, (to_int_signed last) by lia.
  repeat split.
Qed.

Lemma Time_totals_follow_the_ticks_example :
  Time.TotalTimeScaled
    (Time.run (Time.SetTimeScale 2 :: map Time.DoUpdate ([] ++ [16; 33]%Z))
       Time.initial) = IZR 33 / 1000 * 2.
Proof.
  refine (proj1 (proj2 (proj2
    (Time_totals_follow_the_ticks 2 [] 16 33 _)))).
  repeat (constructor; [lia|]). constructor.
Defined.

Lemma Time_act_stopwatches (a : Time.Action) (s : Time.t) :
  Forall stopped (Time.m_Stopwatches s) ->
  Forall stopped (Time.m_Stopwatches (Time.act a s)).
Proof.
  intros H. destruct a as [ticks|scale|start|i paused scale];
    cbn [Time.act Time.Update Time.m_Stopwatches].
  - apply Forall_map. eapply Forall_impl; [exact H|].
    intros w [Hd Ht]. unfold stopped, Stopwatch.Update,
      Stopwatch.DeltaTime, Stopwatch.TotalTime in *.
    destruct (negb (Stopwatch.m_Paused w));
      cbn [Stopwatch.m_DeltaTime Stopwatch.m_TotalTime];
      [rewrite Hd, Ht; split; ring | split; assumption].
  - exact H.
  - apply Forall_app. split; [exact H|].
    constructor; [split; reflexivity | constructor].
  - apply Forall_alter; [exact H|]. intros w _ [Hd Ht]. split; assumption.
Qed.

(** X26: a stopwatch never advances.  Whatever the program does with
    the clock (updates at any readings, changes of the time scale, new
    stopwatches, changes of the public members of a stopwatch), the
    [DeltaTime] and the [TotalTime] of every stopwatch stay 0:
    [Stopwatch::Update] multiplies the stopwatch's own delta, which
    starts at 0, and never reads the delta of the clock. *)
Theorem Stopwatch_never_advances (actions : list Time.Action) :
  Forall (fun w => Stopwatch.DeltaTime w = 0 /\ Stopwatch.TotalTime w = 0)
    (Time.m_Stopwatches (Time.run actions Time.initial)).
Proof.
  assert (H : forall s, Forall stopped (Time.m_Stopwatches s) ->
            Forall stopped (Time.m_Stopwatches (Time.run actions s))).
  { induction actions as [|a actions IH]; intros s Hs; [exact Hs|].
    cbn [Time.run fold_left]. apply IH, Time_act_stopwatches, Hs. }
  apply (H Time.initial). constructor.
Qed.

(** ** The control of the harness *)

Lemma explored_closed : closed explored = true.
Proof. vm_compute. reflexivity. Qed.

Lemma explored_swap_safe : forallb swap_safe explored = true.
Proof. vm_compute. reflexivity. Qed.

Lemma explored_ends_well : forallb ends_well explored = true.
Proof. vm_compute. reflexivity. Qed.

Lemma member_In (c : Control) (l : list Control) : member c l = true -> In c l.
Proof.
  unfold member. intros H. apply existsb_exists in H.
  destruct H as (c' & Hin & Heq). apply bool_decide_eq_true in Heq.
  subst c'. exact Hin.
Qed.

Lemma control_notify_all_eq (s : Harness) :
  control (notify_all s) = control_notify_all (control s).
Proof. reflexivity. Qed.

Lemma barrier_step_control (self : Thread) (b : BarrierPc) (s : Harness) :
  control_barrier_step self b (control s) =
    match barrier_step self b s with
    | Some (s', next) => Some (control s', next)
    | None => None
    end.
Proof.
  destruct b as [[|]| | | | | | | | | | | | ]; cbn [barrier_step control_barrier_step];
    try reflexivity.
  - cbn [control c_KnockedDown]. destruct (m_KnockedDown s); reflexivity.
  - cbn [control c_Mutex]. destruct (m_Mutex s); reflexivity.
  - cbn [control c_ThreadsLeft]. destruct (m_ThreadsLeft s =? 0)%Z; reflexivity.
  - cbn [control c_Mutex]. destruct (m_Mutex s); reflexivity.
Qed.

Section ControlProperties.

Variable fftwf_execute : nat -> nat -> list Complex -> list Complex.
Variable fetch_time : nat -> R.

Lemma run_step_control (s : Harness) :
  control_run_step (control s) =
    option_map control (run_step fftwf_execute fetch_time s).
Proof.
  unfold control_run_step, run_step. cbn [control c_run_pc].
  destruct (run_pc s) as [| |b|]; try reflexivity.
  rewrite barrier_step_control.
  destruct (barrier_step WaterThread b s) as [[s' [b'|]]|]; reflexivity.
Qed.

Lemma main_step_control (call : Call) (s : Harness) :
  control_main_step call (control s) =
    option_map control (main_step call s).
Proof.
  unfold control_main_step, main_step. cbn [control c_main_pc c_run_pc].
  destruct (main_pc s) as [|b| |b| |]; try reflexivity.
  - destruct call; reflexivity.
  - rewrite barrier_step_control.
    destruct (barrier_step MainThread b s) as [[s' [b'|]]|]; reflexivity.
  - rewrite barrier_step_control.
    destruct (barrier_step MainThread b s) as [[s' [b'|]]|]; reflexivity.
  - destruct (run_pc s); reflexivity.
Qed.

Lemma step_successor (s s' : Harness) :
  step fftwf_execute fetch_time s s' -> In (control s') (successors (control s)).
Proof.
  intros H. unfold successors. cbn [omap list_omap].
  rewrite run_step_control, !main_step_control.
  destruct H as [H|[|] H]; rewrite H; cbn [option_map];
    repeat match goal with
           | |- context [match option_map control ?o with _ => _ end] =>
               destruct o; cbn [option_map]
           end;
    cbn [In]; tauto.
Qed.

Lemma successor_step (s : Harness) :
  successors (control s) <> [] -> exists s', step fftwf_execute fetch_time s s'.
Proof.
  unfold successors. cbn [omap list_omap].
  rewrite run_step_control, !main_step_control.
  destruct (run_step fftwf_execute fetch_time s) as [s1|] eqn:E1.
  { intros _. exists s1. apply step_water. exact E1. }
  destruct (main_step CallWait s) as [s2|] eqn:E2.
  { intros _. exists s2. apply (step_main _ _ _ _ CallWait). exact E2. }
  destruct (main_step CallTerminate s) as [s3|] eqn:E3.
  { intros _. exists s3. apply (step_main _ _ _ _ CallTerminate). exact E3. }
  cbn. intros H. contradiction.
Qed.

(** Every state that the threads can reach has its control among the
    explored ones. *)
Lemma reachable_explored (water : WaterFFT) (s : Harness) :
  reachable fftwf_execute fetch_time (Execute water) s ->
  In (control s) explored.
Proof.
  intros H. induction H as [|t u _ IH Hstep].
  - apply member_In. vm_compute. reflexivity.
  - pose proof explored_closed as Hc. unfold closed in Hc.
    rewrite forallb_forall in Hc. specialize (Hc _ IH).
    rewrite forallb_forall in Hc. apply member_In, Hc.
    apply step_successor. exact Hstep.
Qed.

End ControlProperties.

Section HarnessSafety.

Variable fftwf_execute : nat -> nat -> list Complex -> list Complex.
Variable fetch_time : nat -> R.

Lemma reachable_swap_safe (water : WaterFFT) (s : Harness) :
  reachable fftwf_execute fetch_time (Execute water) s ->
  (run_pc s = RunBarrier Callback -> main_pc s = MainWait Blocked) /\
  (main_pc s = MainWait Callback -> run_pc s = RunBarrier Blocked) /\
  main_pc s <> TermWait Callback /\
  ~ (run_pc s = RunBarrier Blocked /\ main_pc s = MainWait Blocked) /\
  (0 <= m_ThreadsLeft s <= 2)%Z.
Proof.
  intros Hr.
  pose proof (reachable_explored fftwf_execute fetch_time water s Hr) as Hin.
  pose proof explored_swap_safe as Hall. rewrite forallb_forall in Hall.
  specialize (Hall _ Hin). unfold swap_safe in Hall.
  cbn [control c_run_pc c_main_pc c_ThreadsLeft] in Hall.
  rewrite !andb_true_iff in Hall.
  destruct Hall as ((((H1 & H2) & H3) & H4) & H5).
  apply bool_decide_eq_true in H5.
  apply negb_true_iff in H3, H4.
  apply bool_decide_eq_false in H3.
  split; [|split; [|split; [|split]]].
  - intros E. rewrite bool_decide_eq_true_2 in H1 by exact E.
    apply bool_decide_eq_true in H1. exact H1.
  - intros E. rewrite bool_decide_eq_true_2 in H2 by exact E.
    apply bool_decide_eq_true in H2. exact H2.
  - exact H3.
  - intros [E1 E2]. rewrite !bool_decide_eq_true_2 in H4 by assumption.
    discriminate.
  - exact H5.
Qed.

Lemma reachable_spurious_play (schedule : list Move) :
  forall s0 s s', reachable_spurious fftwf_execute fetch_time s0 s ->
  play fftwf_execute fetch_time schedule s = Some s' ->
  reachable_spurious fftwf_execute fetch_time s0 s'.
Proof.
  induction schedule as [|m schedule IH]; intros s0 s s' Hr H; cbn in H.
  - injection H as <-. exact Hr.
  - destruct (move fftwf_execute fetch_time m s) as [t|] eqn:Hm; [|discriminate].
    apply (IH s0 t s'); [|exact H].
    apply (reachable_spurious_step _ _ _ s t Hr).
    apply step_notified. destruct m as [|call]; cbn [move] in Hm.
    + apply step_water. exact Hm.
    + apply (step_main _ _ _ _ call). exact Hm.
Qed.

Lemma frame_to_swap_plays (water : WaterFFT) :
  play fftwf_execute fetch_time frame_to_swap (Execute water) =
    Some (swap_point fftwf_execute fetch_time water).
Proof. reflexivity. Qed.

(** A wake-up without a notify lets the main thread reach the callback
    while the water thread stands before its [Update]. *)
Lemma early_swap_reachable (water : WaterFFT) :
  reachable_spurious fftwf_execute fetch_time (Execute water) (early_swap water).
Proof.
  set (blocked := MkHarness true false 1 2 None water (m_ReadBuffer water) 0
                    RunTest (MainWait Blocked)).
  assert (H1 : play fftwf_execute fetch_time main_blocks (Execute water) =
               Some blocked) by reflexivity.
  assert (H2 : spurious_wake MainThread blocked =
               Some (set_main_pc (MainWait Woken) blocked)) by reflexivity.
  assert (H3 : play fftwf_execute fetch_time main_waits_again
                 (set_main_pc (MainWait Woken) blocked) = Some (early_swap water))
    by reflexivity.
  refine (reachable_spurious_play main_waits_again _ _ _ _ H3).
  apply (reachable_spurious_step _ _ _ blocked).
  - refine (reachable_spurious_play main_blocks _ _ _ _ H1).
    apply reachable_spurious_refl.
  - apply (step_woken _ _ _ _ MainThread). exact H2.
Qed.

(** X27: the barrier swaps the buffers only while the other thread is
    blocked in its wait, as long as no wait returns without a notify.
    In every state that the two threads can reach after [Execute] by
    steps in which [m_CV.wait] returns only after [notify_all], a thread
    that is about to run the callback finds the other thread blocked in
    the barrier; [Terminate] never runs the callback; the two threads
    are never both blocked in a [Wait()]; and [m_ThreadsLeft] stays
    between 0 and 2.  The wait has no predicate, so this rests on that
    proviso: with one return of the wait without a notify, which C++
    allows, the threads reach a state in which the main thread runs the
    callback, and swaps the buffers, while the water thread stands
    before its [Update]. *)
Theorem barrier_swaps_while_other_thread_waits (water : WaterFFT) :
  (forall s, reachable fftwf_execute fetch_time (Execute water) s ->
     (run_pc s = RunBarrier Callback -> main_pc s = MainWait Blocked) /\
     (main_pc s = MainWait Callback -> run_pc s = RunBarrier Blocked) /\
     main_pc s <> TermWait Callback /\
     ~ (run_pc s = RunBarrier Blocked /\ main_pc s = MainWait Blocked) /\
     (0 <= m_ThreadsLeft s <= 2)%Z) /\
  (exists s s',
     reachable_spurious fftwf_execute fetch_time (Execute water) s /\
     main_pc s = MainWait Callback /\ run_pc s = RunUpdate /\
     main_step CallWait s = Some s' /\
     holder_Water s' = SwapBuffers water /\
     renderer_VertexBuffer s' = m_WriteBuffer water /\
     run_pc s' = RunUpdate).
Proof.
  split; [exact (reachable_swap_safe water)|].
  exists (early_swap water),
    (set_main_pc (MainWait Reset) (PrepBuffers (early_swap water))).
  split; [apply early_swap_reachable|].
  repeat split.
Qed.

(** X28: the harness stops in two ways only.  A state that the threads
    can reach after [Execute] and from which neither can take a step is
    either the return of [Terminate], with the water thread ended, or
    the join of [Terminate] waiting for a water thread that is blocked
    in the barrier; as long as [Terminate] has not been called, some
    thread can always go on. *)
Theorem harness_stops_in_two_ways (water : WaterFFT) (s : Harness) :
  reachable fftwf_execute fetch_time (Execute water) s ->
  (forall s', ~ step fftwf_execute fetch_time s s') ->
  (main_pc s = TermReturned /\ run_pc s = RunExit) \/
  (main_pc s = TermJoin /\ run_pc s = RunBarrier Blocked /\
   m_KnockedDown s = true).
Proof.
  intros Hr Hstuck.
  pose proof (reachable_explored fftwf_execute fetch_time water s Hr) as Hin.
  pose proof explored_ends_well as Hall. rewrite forallb_forall in Hall.
  specialize (Hall _ Hin). unfold ends_well in Hall.
  destruct (successors (control s)) as [|c l] eqn:E.
  - cbn [control c_run_pc c_main_pc c_KnockedDown] in Hall.
    apply orb_true_iff in Hall. destruct Hall as [H|H];
      apply bool_decide_eq_true in H; [left | right]; exact H.
  - destruct (successor_step fftwf_execute fetch_time s) as [s' Hs'].
    + rewrite E. discriminate.
    + exfalso. exact (Hstuck s' Hs').
Qed.

(** ** The buffer of the renderer *)


Lemma PrepBuffers_renderer (s : Harness) :
  renderer_VertexBuffer (PrepBuffers s) = m_ReadBuffer (holder_Water (PrepBuffers s)) /\
  holder_Water (PrepBuffers s) = SwapBuffers (holder_Water s).
Proof. split; reflexivity. Qed.




End HarnessSafety.

Lemma barrier_swaps_while_other_thread_waits_example :
  main_pc (swap_point dft_small (fun _ => 0) (tile 3)) = MainWait Blocked.
Proof.
  exact (proj1 (proj1
    (barrier_swaps_while_other_thread_waits dft_small (fun _ => 0) (tile 3))
    (swap_point dft_small (fun _ => 0) (tile 3))
    (play_reachable dft_small (fun _ => 0) frame_to_swap _ _
       (frame_to_swap_plays dft_small (fun _ => 0) (tile 3)))) eq_refl).
Defined.

Lemma harness_stops_in_two_ways_example :
  (main_pc (hung dft_small (fun _ => 0) (tile 3)) = TermReturned /\
   run_pc (hung dft_small (fun _ => 0) (tile 3)) = RunExit) \/
  (main_pc (hung dft_small (fun _ => 0) (tile 3)) = TermJoin /\
   run_pc (hung dft_small (fun _ => 0) (tile 3)) = RunBarrier Blocked /\
   m_KnockedDown (hung dft_small (fun _ => 0) (tile 3)) = true).
Proof.
  exact (harness_stops_in_two_ways dft_small (fun _ => 0) (tile 3)
           (hung dft_small (fun _ => 0) (tile 3))
           (play_reachable dft_small (fun _ => 0) lost_wakeup _ _
              (lost_wakeup_hangs dft_small (fun _ => 0) (tile 3)))
           (hung_stuck dft_small (fun _ => 0) (tile 3))).
Defined.

